(** * quickjs-ruby: the native sandbox extension (ext/quickjs/quickjs_ext.c)

    A shallow embedding of the C extension that glues the QuickJS engine to
    Ruby: the bounded console buffer, the [console.log] and [fetch]
    callbacks, the two value converters, [sandbox_eval] and
    [sandbox_set_variable], followed by the properties proved about them.

    Conventions.
    - [size_t] and the other machine integers are [Z]; where the C
      arithmetic can wrap, the wrap-around is written out.
    - A C string is a [list ascii]; [cstr] cuts a byte sequence at its first
      NUL, which is what every [strlen]-based consumer sees.
    - A [double] is a [spec_float] at precision 53 and exponent bound 1024.
    - A C function that may leave through a Ruby exception ([rb_raise],
      [rb_exc_raise], a failing [NUM2INT] ...) returns in the [rb] monad.
    - The engine (QuickJS) and the Ruby runtime are not part of the
      extension.  Their values are modelled by the inductive types
      [JSValue] and [VALUE]; what a script does during [JS_Eval] is a
      [Script], the tree of callbacks it makes into the extension.
    - Strings are byte sequences taken to be well-formed UTF-8, so that
      the engine hands back the bytes it was given; what the engine does
      with an ill-formed sequence is outside the model.
    - The state that the C code reaches through pointers and globals is a
      [World]: the wrapper, whether [current_wrapper] points at it, the
      outcomes of the [realloc] calls still to come, and the log of the
      calls made to the HTTP handler. *)

From Stdlib Require Import Ascii String.
From Stdlib Require Import ZArith List Bool Lia.
From Stdlib Require Import Floats.SpecFloat.
Import ListNotations.

Set Warnings "-register-all".
Local Open Scope Z_scope.

(* ================================================================== *)
(** * Machine integers and C strings                                    *)
(* ================================================================== *)

Module C.

(** [size_t] on the 64-bit targets the extension is built for. *)
Definition SIZE_BITS : Z := 64.
Definition size_wrap (z : Z) : Z := z mod 2 ^ SIZE_BITS.

Definition INT_MIN : Z := - 2 ^ 31.
Definition INT_MAX : Z := 2 ^ 31 - 1.
Definition INT64_MIN : Z := - 2 ^ 63.
Definition INT64_MAX : Z := 2 ^ 63 - 1.

Definition NUL : ascii := Ascii.zero.
Definition newline : ascii := ascii_of_nat 10.

(** The bytes of a literal. *)
Definition lit (s : string) : list ascii := list_ascii_of_string s.

(** What a NUL-terminated reader sees of a byte sequence. *)
Fixpoint cstr (s : list ascii) : list ascii :=
  match s with
  | [] => []
  | c :: r => if Ascii.eqb c NUL then [] else c :: cstr r
  end.

Definition strlen (s : list ascii) : Z := Z.of_nat (List.length (cstr s)).

Definition has_nul (s : list ascii) : bool :=
  existsb (fun c => Ascii.eqb c NUL) s.

Fixpoint bytes_eqb (a b : list ascii) : bool :=
  match a, b with
  | [], [] => true
  | x :: a', y :: b' => Ascii.eqb x y && bytes_eqb a' b'
  | _, _ => false
  end.

(** [strncmp (s, t, n) == 0] for NUL-terminated [s] and [t]. *)
Definition strncmp_eq (s t : list ascii) (n : nat) : bool :=
  bytes_eqb (firstn n (cstr s)) (firstn n (cstr t)).

End C.

(* ================================================================== *)
(** * Doubles                                                          *)
(* ================================================================== *)

Definition double : Type := spec_float.

Module Double.

Definition prec : Z := 53.
Definition emax : Z := 1024.

(** [(double) n]: conversion of an integer, rounding to nearest even. *)
Definition of_Z (n : Z) : double := binary_normalize prec emax n 0 false.

(** [d1 == d2], [d1 <= d2], [d1 >= d2] on doubles. *)
Definition eqb (a b : double) : bool := SFeqb a b.
Definition leb (a b : double) : bool := SFleb a b.
Definition geb (a b : double) : bool := SFleb b a.

(** The integer part of a finite double (truncation toward zero). *)
Definition trunc (d : double) : option Z :=
  match d with
  | S754_zero _ => Some 0
  | S754_finite s m e =>
      let a := match e with
               | Zneg p => Z.pos m / 2 ^ Z.pos p
               | _ => Z.pos m * 2 ^ e
               end in
      Some (if s then - a else a)
  | _ => None
  end.

(** [(int64_t) d].  Outside the range of [int64_t] (and on NaN) the C
    cast is undefined; [indefinite] is what the machine delivers there.
    x86-64 delivers [INT64_MIN] whatever the operand, and that is the
    choice of [to_int64]; [js_number_cast_irrelevant] shows that the
    conversion does not depend on it. *)
Definition to_int64_with (indefinite : double -> Z) (d : double) : Z :=
  match trunc d with
  | Some n => if (C.INT64_MIN <=? n) && (n <=? C.INT64_MAX) then n
              else indefinite d
  | None => indefinite d
  end.

Definition to_int64 : double -> Z := to_int64_with (fun _ => C.INT64_MIN).

End Double.

(* ================================================================== *)
(** * Ruby values                                                      *)
(* ================================================================== *)

(** The classes the extension names, and any other class by its name. *)
Inductive RClass : Type :=
| rb_cResult
| rb_eQuickJSSyntaxError
| rb_eQuickJSJavascriptError
| rb_eQuickJSMemoryLimitError
| rb_eQuickJSTimeoutError
| rb_eQuickJSHTTPBlockedError
| rb_eQuickJSHTTPLimitError
| rb_eQuickJSHTTPError
| rb_eArgError
| rb_eTypeError
| rb_eRangeError
| rb_cOther (name : list ascii).

Definition RClass_eq_dec (a b : RClass) : {a = b} + {a <> b}.
Proof. decide equality. apply (list_eq_dec Ascii.ascii_dec). Defined.

Definition rclass_eqb (a b : RClass) : bool :=
  if RClass_eq_dec a b then true else false.

(** A Ruby [VALUE], by its [TYPE()].  [T_OBJECT klass argv] is an instance
    of [klass] as [rb_class_new_instance (argc, argv, klass)] builds it;
    exceptions and the [Result] object are such instances.  A hash keeps
    its entries in insertion order. *)
Inductive VALUE : Type :=
| Qnil
| Qtrue
| Qfalse
| T_FIXNUM (n : Z)
| T_BIGNUM (n : Z)
| T_FLOAT (d : double)
| T_STRING (s : list ascii)
| T_SYMBOL (name : list ascii)
| T_ARRAY (elems : list VALUE)
| T_HASH (entries : list (VALUE * VALUE))
| T_OBJECT (klass : RClass) (argv : list VALUE).

Definition NIL_P (v : VALUE) : bool :=
  match v with Qnil => true | _ => false end.

Definition rb_bool (b : bool) : VALUE := if b then Qtrue else Qfalse.

(** [rb_str_new2 (s)]: a Ruby string from a NUL-terminated C string. *)
Definition rb_str_new2 (s : list ascii) : VALUE := T_STRING (C.cstr s).

Definition rb_class_new_instance (argv : list VALUE) (klass : RClass) : VALUE :=
  T_OBJECT klass argv.

Definition rb_obj_class (v : VALUE) : RClass :=
  match v with
  | T_OBJECT klass _ => klass
  | Qnil => rb_cOther (C.lit "NilClass")
  | Qtrue => rb_cOther (C.lit "TrueClass")
  | Qfalse => rb_cOther (C.lit "FalseClass")
  | T_FIXNUM _ | T_BIGNUM _ => rb_cOther (C.lit "Integer")
  | T_FLOAT _ => rb_cOther (C.lit "Float")
  | T_STRING _ => rb_cOther (C.lit "String")
  | T_SYMBOL _ => rb_cOther (C.lit "Symbol")
  | T_ARRAY _ => rb_cOther (C.lit "Array")
  | T_HASH _ => rb_cOther (C.lit "Hash")
  end.

(** FIXNUM range of a 64-bit Ruby. *)
Definition FIXNUM_MAX : Z := 2 ^ 62 - 1.
Definition FIXNUM_MIN : Z := - 2 ^ 62.

(** [LONG2FIX (i)] tags [2 * i + 1] into a 64-bit word and [FIX2LONG]
    shifts it back: outside the FIXNUM range the top bit is lost. *)
Definition LONG2FIX (i : Z) : VALUE :=
  T_FIXNUM ((i + 2 ^ 62) mod 2 ^ 63 - 2 ^ 62).

(** ** Leaving through a Ruby exception *)

(** The ways a C function of the extension can end: it returns, it is left
    through a Ruby exception, or it has run into behaviour C leaves
    undefined. *)
Inductive rb (A : Type) : Type :=
| Return (a : A)
| Raise (exc : VALUE)
| Undefined.
Arguments Return {A} a.
Arguments Raise {A} exc.
Arguments Undefined {A}.

Definition rb_bind {A B} (m : rb A) (k : A -> rb B) : rb B :=
  match m with
  | Return a => k a
  | Raise e => Raise e
  | Undefined => Undefined
  end.

Declare Scope rb_scope.
Delimit Scope rb_scope with rb.
Notation "x <- m ;; k" := (rb_bind m (fun x => k))
  (at level 61, m at next level, right associativity) : rb_scope.

Definition rb_raise {A} (klass : RClass) (msg : string) : rb A :=
  Raise (T_OBJECT klass [T_STRING (C.lit msg)]).

(** [StringValueCStr (v)]: the C string of a Ruby String; [TypeError] for
    a value that is no String, [ArgumentError] when the bytes contain a
    NUL. *)
Definition StringValueCStr (v : VALUE) : rb (list ascii) :=
  match v with
  | T_STRING s =>
      if C.has_nul s then rb_raise rb_eArgError "string contains null byte"
      else Return s
  | _ => rb_raise rb_eTypeError "no implicit conversion into String"
  end.

(** [NUM2INT (v)]: an Integer or Float as a C [int]; a Float is truncated,
    [RangeError] outside [INT_MIN .. INT_MAX], [TypeError] for anything
    that is not numeric. *)
Definition NUM2INT (v : VALUE) : rb Z :=
  let ranged (n : Z) : rb Z :=
    if (C.INT_MIN <=? n) && (n <=? C.INT_MAX) then Return n
    else rb_raise rb_eRangeError "integer out of range of int" in
  match v with
  | T_FIXNUM n | T_BIGNUM n => ranged n
  | T_FLOAT d =>
      match Double.trunc d with
      | Some n => ranged n
      | None => rb_raise rb_eRangeError "float out of range of integer"
      end
  | _ => rb_raise rb_eTypeError "no implicit conversion into Integer"
  end.

(** [NUM2DBL (v)] on the two classes [ruby_to_js] applies it to. *)
Definition NUM2DBL (v : VALUE) : double :=
  match v with
  | T_FIXNUM n | T_BIGNUM n => Double.of_Z n
  | T_FLOAT d => d
  | _ => S754_nan
  end.

(** [rb_hash_aref (hash, key)] for a symbol key: the value stored under the
    key, [Qnil] when there is none, and no result at all when the receiver
    is not a Hash (the C function does not check). *)
Fixpoint hash_lookup_sym (name : list ascii) (entries : list (VALUE * VALUE))
  : VALUE :=
  match entries with
  | [] => Qnil
  | (T_SYMBOL k, v) :: rest =>
      if C.bytes_eqb k name then v else hash_lookup_sym name rest
  | _ :: rest => hash_lookup_sym name rest
  end.

Definition rb_hash_aref_sym (hash : VALUE) (name : string) : rb VALUE :=
  match hash with
  | T_HASH entries => Return (hash_lookup_sym (C.lit name) entries)
  | _ => Undefined
  end.

(** [rb_hash_aset (hash, key, val)] for a String key: an entry with the
    same key is overwritten in place, a new key goes last. *)
Fixpoint rb_hash_aset_str (entries : list (VALUE * VALUE)) (key : list ascii)
  (val : VALUE) : list (VALUE * VALUE) :=
  match entries with
  | [] => [(T_STRING key, val)]
  | (T_STRING k, old) :: rest =>
      if C.bytes_eqb k key then (T_STRING k, val) :: rest
      else (T_STRING k, old) :: rb_hash_aset_str rest key val
  | e :: rest => e :: rb_hash_aset_str rest key val
  end.

(** [rb_id2name (SYM2ID (sym))]: the name of a symbol, as a C string. *)
Definition rb_id2name (name : list ascii) : list ascii := name.

(** [rb_funcall (exc, rb_intern ("message"), 0)] on an exception built by
    [klass.new (message, ...)]. *)
Definition rb_exc_message (exc : VALUE) : VALUE :=
  match exc with
  | T_OBJECT _ (m :: _) => m
  | _ => Qnil
  end.

(* ================================================================== *)
(** * Script values                                                    *)
(* ================================================================== *)

Inductive JSErrorEnum : Type :=
| JS_SYNTAX_ERROR
| JS_TYPE_ERROR
| JS_INTERNAL_ERROR
| JS_PLAIN_ERROR.

(** The class of an object.  Every function, error and plain object
    carries the tag [JS_TAG_OBJECT]; the class tells them apart.  (The
    engine keeps the kind of an error in its prototype; it is kept in the
    class here.) *)
Inductive JSClassID : Type :=
| JS_CLASS_OBJECT
| JS_CLASS_ERROR (kind : JSErrorEnum)
| JS_CLASS_C_FUNCTION
| JS_CLASS_BYTECODE_FUNCTION.

(** A property key: a string, or a symbol. *)
Inductive JSAtom : Type :=
| JS_ATOM_STRING (s : list ascii)
| JS_ATOM_SYMBOL (description : list ascii).

(** Script values by tag.  A string is kept as its UTF-8 bytes, the form in
    which the extension hands it over ([JS_NewString]) and reads it back
    ([JS_ToCString]).  An array is the list of its elements (a hole reads
    as [JS_UNDEFINED]); any other object is its class and its own
    properties in creation order, each with its enumerable flag.
    [JS_EXCEPTION] is the marker a failed call returns; the thrown value
    itself sits in the context. *)
Inductive JSValue : Type :=
| JS_NULL
| JS_UNDEFINED
| JS_BOOL (b : bool)
| JS_INT (i : Z)
| JS_FLOAT64 (d : double)
| JS_STRING (s : list ascii)
| JS_SYMBOL (description : list ascii)
| JS_BIG_INT (n : Z)
| JS_ARRAY (elems : list JSValue)
| JS_OBJECT (class_id : JSClassID) (props : list (JSAtom * (bool * JSValue)))
| JS_EXCEPTION.

Definition JSProperty : Type := (JSAtom * (bool * JSValue))%type.

Definition JS_TRUE : JSValue := JS_BOOL true.
Definition JS_FALSE : JSValue := JS_BOOL false.

Definition JS_IsNull (v : JSValue) : bool :=
  match v with JS_NULL => true | _ => false end.
Definition JS_IsUndefined (v : JSValue) : bool :=
  match v with JS_UNDEFINED => true | _ => false end.
Definition JS_IsBool (v : JSValue) : bool :=
  match v with JS_BOOL _ => true | _ => false end.
Definition JS_IsNumber (v : JSValue) : bool :=
  match v with JS_INT _ | JS_FLOAT64 _ => true | _ => false end.
Definition JS_IsString (v : JSValue) : bool :=
  match v with JS_STRING _ => true | _ => false end.
(** [JS_IsObject] tests the tag alone: arrays, functions and errors are
    objects too. *)
Definition JS_IsObject (v : JSValue) : bool :=
  match v with JS_ARRAY _ | JS_OBJECT _ _ => true | _ => false end.
Definition JS_IsException (v : JSValue) : bool :=
  match v with JS_EXCEPTION => true | _ => false end.

Definition JS_ToBool (v : JSValue) : bool :=
  match v with JS_BOOL b => b | _ => false end.

(** [JS_ToFloat64] on a number. *)
Definition JS_ToFloat64 (v : JSValue) : option double :=
  match v with
  | JS_INT i => Some (Double.of_Z i)
  | JS_FLOAT64 d => Some d
  | _ => None
  end.

Definition JS_NewInt32 (i : Z) : JSValue := JS_INT i.
Definition JS_NewFloat64 (d : double) : JSValue := JS_FLOAT64 d.
Definition JS_NewBool (b : bool) : JSValue := JS_BOOL b.

(** [JS_NewInt64]: an [int32] when the value fits, a double otherwise. *)
Definition JS_NewInt64 (v : Z) : JSValue :=
  if (C.INT_MIN <=? v) && (v <=? C.INT_MAX) then JS_NewInt32 v
  else JS_NewFloat64 (Double.of_Z v).

(** [JS_NewString (ctx, s)] reads a NUL-terminated C string. *)
Definition JS_NewString (s : list ascii) : JSValue := JS_STRING (C.cstr s).

Definition JS_NewObject : JSValue := JS_OBJECT JS_CLASS_OBJECT [].
Definition JS_NewArray : JSValue := JS_ARRAY [].

(** ** Properties of an object *)

Definition atom_eqb (a b : JSAtom) : bool :=
  match a, b with
  | JS_ATOM_STRING x, JS_ATOM_STRING y => C.bytes_eqb x y
  | JS_ATOM_SYMBOL x, JS_ATOM_SYMBOL y => C.bytes_eqb x y
  | _, _ => false
  end.

Fixpoint find_property {V : Type} (a : JSAtom)
  (props : list (JSAtom * (bool * V))) : option (bool * V) :=
  match props with
  | [] => None
  | (k, p) :: rest => if atom_eqb k a then Some p else find_property a rest
  end.

(** Assignment to an own data property: an existing one keeps its place
    and its flags, a new one goes last and is enumerable. *)
Fixpoint assign_property (a : JSAtom) (v : JSValue) (props : list JSProperty)
  : list JSProperty :=
  match props with
  | [] => [(a, (true, v))]
  | (k, (en, old)) :: rest =>
      if atom_eqb k a then (k, (en, v)) :: rest
      else (k, (en, old)) :: assign_property a v rest
  end.

(** [JS_SetPropertyStr (ctx, obj, key, val)].  The key is a C string.
    Assigning to [__proto__] runs the accessor every object inherits and
    creates no own property (the prototype itself is not modelled).
    Every own property of a modelled object is a writable data property,
    as on the objects the converters build.  The global object of the
    engine has three that are not, [NaN], [Infinity] and [undefined],
    and refuses a store to them: what is stated of a store into the
    global object is stated for the other names. *)
Definition JS_SetPropertyStr (obj : JSValue) (key : list ascii) (val : JSValue)
  : JSValue :=
  match obj with
  | JS_OBJECT cls props =>
      if C.bytes_eqb (C.cstr key) (C.lit "__proto__") then obj
      else JS_OBJECT cls (assign_property (JS_ATOM_STRING (C.cstr key)) val props)
  | _ => obj
  end.

(** [JS_GetProperty (ctx, obj, atom)] and [JS_GetPropertyStr] on own data
    properties; [JS_UNDEFINED] when there is none. *)
Definition JS_GetProperty (obj : JSValue) (a : JSAtom) : JSValue :=
  match obj with
  | JS_OBJECT _ props =>
      match find_property a props with
      | Some (_, v) => v
      | None => JS_UNDEFINED
      end
  | _ => JS_UNDEFINED
  end.

Definition JS_GetPropertyStr (obj : JSValue) (key : string) : JSValue :=
  JS_GetProperty obj (JS_ATOM_STRING (C.lit key)).

(** [JS_SetPropertyUint32 (ctx, arr, i, val)] on an array: stores at [i],
    growing the array (with holes) when [i] is past the end. *)
Definition JS_SetPropertyUint32 (arr : JSValue) (i : Z) (val : JSValue)
  : JSValue :=
  match arr with
  | JS_ARRAY elems =>
      let n := Z.to_nat i in
      if (n <? List.length elems)%nat
      then JS_ARRAY (firstn n elems ++ val :: skipn (S n) elems)
      else JS_ARRAY (elems ++ repeat JS_UNDEFINED (n - List.length elems) ++ [val])
  | _ => arr
  end.

Definition JS_GetPropertyUint32 (arr : JSValue) (i : Z) : JSValue :=
  match arr with
  | JS_ARRAY elems => nth (Z.to_nat i) elems JS_UNDEFINED
  | _ => JS_UNDEFINED
  end.

(** The [length] of an array as [JS_ToUint32] reads it. *)
Definition js_array_length (arr : JSValue) : Z :=
  match arr with
  | JS_ARRAY elems => Z.of_nat (List.length elems) mod 2 ^ 32
  | _ => 0
  end.

(** *** Enumeration order

    [JS_GetOwnPropertyNames] lists the keys that are array indices first,
    in ascending numeric order, then the other string keys in creation
    order.  An array index is the canonical decimal form of an integer
    below [2^32 - 1]. *)

Definition digit_of (c : ascii) : option Z :=
  let n := Z.of_N (N_of_ascii c) in
  if (48 <=? n) && (n <=? 57) then Some (n - 48) else None.

Fixpoint decimal_value (acc : Z) (s : list ascii) : option Z :=
  match s with
  | [] => Some acc
  | c :: r =>
      match digit_of c with
      | Some d => decimal_value (10 * acc + d) r
      | None => None
      end
  end.

Definition array_index (s : list ascii) : option Z :=
  match s with
  | [] => None
  | [c] => digit_of c
  | c :: _ =>
      match digit_of c with
      | Some 0 => None
      | Some _ =>
          if (10 <? List.length s)%nat then None
          else match decimal_value 0 s with
               | Some n => if n <? 2 ^ 32 - 1 then Some n else None
               | None => None
               end
      | None => None
      end
  end.

Fixpoint insert_by_index (k : Z * list ascii) (l : list (Z * list ascii))
  : list (Z * list ascii) :=
  match l with
  | [] => [k]
  | h :: t => if fst k <=? fst h then k :: l else h :: insert_by_index k t
  end.

Definition sort_by_index (l : list (Z * list ascii)) : list (Z * list ascii) :=
  fold_right insert_by_index [] l.

(** The enumerable string keys of a property list, in creation order. *)
Fixpoint enumerable_string_keys (props : list JSProperty) : list (list ascii) :=
  match props with
  | [] => []
  | (JS_ATOM_STRING k, (true, _)) :: rest => k :: enumerable_string_keys rest
  | _ :: rest => enumerable_string_keys rest
  end.

Fixpoint index_keys (keys : list (list ascii)) : list (Z * list ascii) :=
  match keys with
  | [] => []
  | k :: rest =>
      match array_index k with
      | Some i => (i, k) :: index_keys rest
      | None => index_keys rest
      end
  end.

Definition is_index_key (k : list ascii) : bool :=
  match array_index k with Some _ => true | None => false end.

(** [JS_GetOwnPropertyNames (ctx, &props, &count, obj,
    JS_GPN_STRING_MASK | JS_GPN_ENUM_ONLY)]. *)
Definition JS_GetOwnPropertyNames (obj : JSValue) : option (list JSAtom) :=
  match obj with
  | JS_OBJECT _ props =>
      let keys := enumerable_string_keys props in
      Some (map (fun k => JS_ATOM_STRING (snd k)) (sort_by_index (index_keys keys))
            ++ map JS_ATOM_STRING (filter (fun k => negb (is_index_key k)) keys))
  | _ => None
  end.

(** [JS_AtomToCString (ctx, atom)]. *)
Definition JS_AtomToCString (a : JSAtom) : option (list ascii) :=
  match a with
  | JS_ATOM_STRING s => Some s
  | JS_ATOM_SYMBOL _ => None
  end.

(** Errors as the [JS_Throw...Error] helpers build them: an error object
    whose [message] is an own, non-enumerable property. *)
Definition js_error (kind : JSErrorEnum) (msg : string) : JSValue :=
  JS_OBJECT (JS_CLASS_ERROR kind)
    [(JS_ATOM_STRING (C.lit "message"), (false, JS_STRING (C.lit msg)))].

(* ================================================================== *)
(** * The sandbox state                                                *)
(* ================================================================== *)

(** What the extension can observe of the runtime: the memory limit it
    set and the garbage-collection passes it forced. *)
Record JSRuntime : Type := {
  memory_limit : option Z;
  gc_runs : nat
}.

(** What the extension can observe of the context: the global object and
    the pending exception ([JS_GetException] takes it out). *)
Record JSContext : Type := {
  global : JSValue;
  exception : option JSValue
}.

(** The Ruby callable behind [rb_http_callback], applied to
    [(method, url, body, headers)]: it returns a value or raises. *)
Definition Callback : Type := VALUE -> VALUE -> VALUE -> VALUE -> rb VALUE.

(** [typedef struct { ... } ContextWrapper].  [console_output] holds the
    bytes of the buffer before its terminating NUL; [rb_http_callback] is
    [None] for [Qnil]; [timed_out] and [console_truncated] are the C
    [int] flags. *)
Record ContextWrapper : Type := {
  rt : JSRuntime;
  ctx : JSContext;
  mem_limit : Z;
  start_time_ms : Z;
  timeout_ms : Z;
  timed_out : bool;
  console_output : list ascii;
  console_output_len : Z;
  console_output_capacity : Z;
  console_max_size : Z;
  console_truncated : bool;
  rb_http_callback : option Callback;
  pending_ruby_exception : VALUE
}.

Definition set_rt (v : JSRuntime) (w : ContextWrapper) : ContextWrapper :=
  {| rt := v;
     ctx := ctx w;
     mem_limit := mem_limit w;
     start_time_ms := start_time_ms w;
     timeout_ms := timeout_ms w;
     timed_out := timed_out w;
     console_output := console_output w;
     console_output_len := console_output_len w;
     console_output_capacity := console_output_capacity w;
     console_max_size := console_max_size w;
     console_truncated := console_truncated w;
     rb_http_callback := rb_http_callback w;
     pending_ruby_exception := pending_ruby_exception w |}.
Definition set_ctx (v : JSContext) (w : ContextWrapper) : ContextWrapper :=
  {| rt := rt w;
     ctx := v;
     mem_limit := mem_limit w;
     start_time_ms := start_time_ms w;
     timeout_ms := timeout_ms w;
     timed_out := timed_out w;
     console_output := console_output w;
     console_output_len := console_output_len w;
     console_output_capacity := console_output_capacity w;
     console_max_size := console_max_size w;
     console_truncated := console_truncated w;
     rb_http_callback := rb_http_callback w;
     pending_ruby_exception := pending_ruby_exception w |}.
Definition set_start_time_ms (v : Z) (w : ContextWrapper) : ContextWrapper :=
  {| rt := rt w;
     ctx := ctx w;
     mem_limit := mem_limit w;
     start_time_ms := v;
     timeout_ms := timeout_ms w;
     timed_out := timed_out w;
     console_output := console_output w;
     console_output_len := console_output_len w;
     console_output_capacity := console_output_capacity w;
     console_max_size := console_max_size w;
     console_truncated := console_truncated w;
     rb_http_callback := rb_http_callback w;
     pending_ruby_exception := pending_ruby_exception w |}.
Definition set_timed_out (v : bool) (w : ContextWrapper) : ContextWrapper :=
  {| rt := rt w;
     ctx := ctx w;
     mem_limit := mem_limit w;
     start_time_ms := start_time_ms w;
     timeout_ms := timeout_ms w;
     timed_out := v;
     console_output := console_output w;
     console_output_len := console_output_len w;
     console_output_capacity := console_output_capacity w;
     console_max_size := console_max_size w;
     console_truncated := console_truncated w;
     rb_http_callback := rb_http_callback w;
     pending_ruby_exception := pending_ruby_exception w |}.
Definition set_console_output (v : list ascii) (w : ContextWrapper) : ContextWrapper :=
  {| rt := rt w;
     ctx := ctx w;
     mem_limit := mem_limit w;
     start_time_ms := start_time_ms w;
     timeout_ms := timeout_ms w;
     timed_out := timed_out w;
     console_output := v;
     console_output_len := console_output_len w;
     console_output_capacity := console_output_capacity w;
     console_max_size := console_max_size w;
     console_truncated := console_truncated w;
     rb_http_callback := rb_http_callback w;
     pending_ruby_exception := pending_ruby_exception w |}.
Definition set_console_output_len (v : Z) (w : ContextWrapper) : ContextWrapper :=
  {| rt := rt w;
     ctx := ctx w;
     mem_limit := mem_limit w;
     start_time_ms := start_time_ms w;
     timeout_ms := timeout_ms w;
     timed_out := timed_out w;
     console_output := console_output w;
     console_output_len := v;
     console_output_capacity := console_output_capacity w;
     console_max_size := console_max_size w;
     console_truncated := console_truncated w;
     rb_http_callback := rb_http_callback w;
     pending_ruby_exception := pending_ruby_exception w |}.
Definition set_console_output_capacity (v : Z) (w : ContextWrapper) : ContextWrapper :=
  {| rt := rt w;
     ctx := ctx w;
     mem_limit := mem_limit w;
     start_time_ms := start_time_ms w;
     timeout_ms := timeout_ms w;
     timed_out := timed_out w;
     console_output := console_output w;
     console_output_len := console_output_len w;
     console_output_capacity := v;
     console_max_size := console_max_size w;
     console_truncated := console_truncated w;
     rb_http_callback := rb_http_callback w;
     pending_ruby_exception := pending_ruby_exception w |}.
Definition set_console_truncated (v : bool) (w : ContextWrapper) : ContextWrapper :=
  {| rt := rt w;
     ctx := ctx w;
     mem_limit := mem_limit w;
     start_time_ms := start_time_ms w;
     timeout_ms := timeout_ms w;
     timed_out := timed_out w;
     console_output := console_output w;
     console_output_len := console_output_len w;
     console_output_capacity := console_output_capacity w;
     console_max_size := console_max_size w;
     console_truncated := v;
     rb_http_callback := rb_http_callback w;
     pending_ruby_exception := pending_ruby_exception w |}.
Definition set_rb_http_callback (v : option Callback) (w : ContextWrapper) : ContextWrapper :=
  {| rt := rt w;
     ctx := ctx w;
     mem_limit := mem_limit w;
     start_time_ms := start_time_ms w;
     timeout_ms := timeout_ms w;
     timed_out := timed_out w;
     console_output := console_output w;
     console_output_len := console_output_len w;
     console_output_capacity := console_output_capacity w;
     console_max_size := console_max_size w;
     console_truncated := console_truncated w;
     rb_http_callback := v;
     pending_ruby_exception := pending_ruby_exception w |}.
Definition set_pending_ruby_exception (v : VALUE) (w : ContextWrapper) : ContextWrapper :=
  {| rt := rt w;
     ctx := ctx w;
     mem_limit := mem_limit w;
     start_time_ms := start_time_ms w;
     timeout_ms := timeout_ms w;
     timed_out := timed_out w;
     console_output := console_output w;
     console_output_len := console_output_len w;
     console_output_capacity := console_output_capacity w;
     console_max_size := console_max_size w;
     console_truncated := console_truncated w;
     rb_http_callback := rb_http_callback w;
     pending_ruby_exception := v |}.

(** One invocation of the Ruby callback: [(method, url, body, headers)]. *)
Definition HttpCall : Type := (VALUE * VALUE * VALUE * VALUE)%type.

(** The state the C functions run in: the wrapper struct of the one
    sandbox under consideration; whether the thread-local
    [current_wrapper] points at it (or is [NULL]); and two pieces of the
    surroundings: the outcomes of the coming [realloc] calls ([true] for
    success, an exhausted list for success ever after) and the log of the
    calls made to the Ruby callback. *)
Record World : Type := {
  self : ContextWrapper;
  current_wrapper : bool;
  realloc_results : list bool;
  http_calls : list HttpCall
}.

Definition set_self (v : ContextWrapper) (st : World) : World :=
  {| self := v;
     current_wrapper := current_wrapper st;
     realloc_results := realloc_results st;
     http_calls := http_calls st |}.
Definition set_current_wrapper (v : bool) (st : World) : World :=
  {| self := self st;
     current_wrapper := v;
     realloc_results := realloc_results st;
     http_calls := http_calls st |}.
Definition set_realloc_results (v : list bool) (st : World) : World :=
  {| self := self st;
     current_wrapper := current_wrapper st;
     realloc_results := v;
     http_calls := http_calls st |}.
Definition set_http_calls (v : list HttpCall) (st : World) : World :=
  {| self := self st;
     current_wrapper := current_wrapper st;
     realloc_results := realloc_results st;
     http_calls := v |}.

Definition update_self (f : ContextWrapper -> ContextWrapper) (st : World)
  : World := set_self (f (self st)) st.

(* ================================================================== *)
(** * The clock                                                        *)
(* ================================================================== *)

(** [struct timespec]. *)
Record timespec : Type := {
  tv_sec : Z;
  tv_nsec : Z
}.

(** [static int64_t get_time_ms (void)], on the reading [ts] that
    [clock_gettime (CLOCK_MONOTONIC, &ts)] delivers:
    [(int64_t) ts.tv_sec * 1000 + (ts.tv_nsec / 1000000)].  The division
    truncates toward zero; a product or a sum that [int64_t] does not
    hold is undefined in C, and there is no result then. *)
Definition get_time_ms (ts : timespec) : option Z :=
  let in_int64 (z : Z) := (C.INT64_MIN <=? z) && (z <=? C.INT64_MAX) in
  let product := tv_sec ts * 1000 in
  let ms := product + Z.quot (tv_nsec ts) 1000000 in
  if in_int64 product && in_int64 ms then Some ms else None.

(* ================================================================== *)
(** * Console capture                                                  *)
(* ================================================================== *)

(** [realloc]: the next outcome of the allocator. *)
Definition realloc (st : World) : bool * World :=
  match realloc_results st with
  | [] => (true, st)
  | ok :: rest => (ok, set_realloc_results rest st)
  end.

(** [static void append_console_output (ContextWrapper *wrapper,
    const char *str, size_t len)], for the non-NULL [wrapper] and [str]
    its callers pass; [len] is the length of [str]. *)
Definition append_console_output (st : World) (str : list ascii) : World :=
  let wrapper := self st in
  let len := Z.of_nat (List.length str) in
  if len =? 0 then st
  else if console_max_size wrapper <=? console_output_len wrapper then
    (* already at the limit *)
    update_self (set_console_truncated true) st
  else
    let available := console_max_size wrapper - console_output_len wrapper in
    let to_append := if len <? available then len else available in
    let st1 :=
      if to_append <? len then update_self (set_console_truncated true) st
      else st in
    (* memcpy, length update and terminating NUL *)
    let copy (st2 : World) : World :=
      update_self
        (fun w =>
           set_console_output_len (console_output_len w + to_append)
             (set_console_output
                (firstn (Z.to_nat (console_output_len w)) (console_output w)
                 ++ firstn (Z.to_nat to_append) str) w)) st2 in
    if console_output_capacity wrapper <? console_output_len wrapper + to_append
    then
      let new_capacity := C.size_wrap (console_output_capacity wrapper * 2) in
      let new_capacity :=
        if console_max_size wrapper <? new_capacity
        then console_max_size wrapper else new_capacity in
      let new_capacity :=
        if new_capacity <? console_output_len wrapper + to_append
        then console_output_len wrapper + to_append else new_capacity in
      let (new_buffer, st2) := realloc st1 in
      if new_buffer
      then copy (update_self (set_console_output_capacity new_capacity) st2)
      else st2
    else copy st1.

(** A run of appends, in order. *)
Definition append_all (st : World) (strs : list (list ascii)) : World :=
  fold_left append_console_output strs st.

(** The bytes offered by a run of appends. *)
Definition bytes_offered (strs : list (list ascii)) : Z :=
  Z.of_nat (List.length (concat strs)).

(** The block behind [console_output].  [sandbox_initialize] obtains it
    with [malloc (console_output_capacity)]; [append_console_output]
    replaces it with [realloc (console_output, new_capacity + 1)] when it
    has to grow.  [append_console_block block st str] follows the same
    append and gives the size of the block afterwards together with the
    index at which the terminating NUL is stored (the highest index the
    append writes), if the append gets as far as the copy. *)
Definition append_console_block (block : Z) (st : World) (str : list ascii)
  : Z * option Z :=
  let wrapper := self st in
  let len := Z.of_nat (List.length str) in
  if len =? 0 then (block, None)
  else if console_max_size wrapper <=? console_output_len wrapper then
    (block, None)
  else
    let available := console_max_size wrapper - console_output_len wrapper in
    let to_append := if len <? available then len else available in
    if console_output_capacity wrapper <? console_output_len wrapper + to_append
    then
      let new_capacity := C.size_wrap (console_output_capacity wrapper * 2) in
      let new_capacity :=
        if console_max_size wrapper <? new_capacity
        then console_max_size wrapper else new_capacity in
      let new_capacity :=
        if new_capacity <? console_output_len wrapper + to_append
        then console_output_len wrapper + to_append else new_capacity in
      let (new_buffer, _) := realloc st in
      if new_buffer
      then (C.size_wrap (new_capacity + 1),
            Some (console_output_len wrapper + to_append))
      else (block, None)
    else (block, Some (console_output_len wrapper + to_append)).

(** What the engine does while it runs a program, as far as the extension
    takes part in it: the calls into [js_console_log] and [js_fetch], the
    polls of the interrupt handler (with the clock reading at each), and
    the way the run ends.  After a [fetch] the program goes on according
    to what the call returned ([JS_EXCEPTION] when it threw). *)
Inductive Script : Type :=
| Completes (result : JSValue)
| Throws (thrown : JSValue)
| Propagates
| CallsConsole (argv : list JSValue) (next : Script)
| CallsFetch (argv : list JSValue) (next : JSValue -> Script)
| Polls (now : Z) (next : Script).


(* ================================================================== *)
(** * Construction                                                     *)
(* ================================================================== *)

(** [NUM2SIZET] and [NUM2LL] on an Integer. *)
Definition NUM2SIZET (v : VALUE) : rb Z :=
  match v with
  | T_FIXNUM n | T_BIGNUM n =>
      if (0 <=? n) && (n <? 2 ^ C.SIZE_BITS) then Return n
      else rb_raise rb_eRangeError "integer out of range of size_t"
  | _ => rb_raise rb_eTypeError "no implicit conversion into Integer"
  end.

Definition NUM2LL (v : VALUE) : rb Z :=
  match v with
  | T_FIXNUM n | T_BIGNUM n =>
      if (C.INT64_MIN <=? n) && (n <=? C.INT64_MAX) then Return n
      else rb_raise rb_eRangeError "integer out of range of long long"
  | _ => rb_raise rb_eTypeError "no implicit conversion into Integer"
  end.

Definition js_cfunction (name : string) : JSValue :=
  JS_OBJECT JS_CLASS_C_FUNCTION
    [(JS_ATOM_STRING (C.lit "name"), (false, JS_STRING (C.lit name)))].

(** [static VALUE sandbox_initialize (VALUE self, VALUE options)], for a
    runtime and a context that could be created; [allocator] fixes the
    outcomes of the [realloc] calls to come. *)
Definition sandbox_initialize (allocator : list bool) (options : VALUE)
  : rb World :=
  (rb_mem_limit <- rb_hash_aref_sym options "memory_limit" ;;
   rb_timeout <- rb_hash_aref_sym options "timeout_ms" ;;
   rb_console_max <- rb_hash_aref_sym options "console_log_max_size" ;;
   mem_limit <- (if NIL_P rb_mem_limit then Return 1000000
                 else NUM2SIZET rb_mem_limit) ;;
   timeout_ms <- (if NIL_P rb_timeout then Return 5000 else NUM2LL rb_timeout) ;;
   console_max_size <- (if NIL_P rb_console_max then Return 10000
                        else NUM2SIZET rb_console_max) ;;
   let console :=
     JS_OBJECT JS_CLASS_OBJECT
       [(JS_ATOM_STRING (C.lit "log"), (true, js_cfunction "log"));
        (JS_ATOM_STRING (C.lit "error"), (true, js_cfunction "error"));
        (JS_ATOM_STRING (C.lit "warn"), (true, js_cfunction "warn"))] in
   let global :=
     JS_OBJECT JS_CLASS_OBJECT
       [(JS_ATOM_STRING (C.lit "console"), (true, console));
        (JS_ATOM_STRING (C.lit "fetch"), (true, js_cfunction "fetch"))] in
   Return
     {| self :=
          {| rt := {| memory_limit := Some mem_limit; gc_runs := 0 |};
             ctx := {| global := global; exception := None |};
             mem_limit := mem_limit;
             start_time_ms := 0;
             timeout_ms := timeout_ms;
             timed_out := false;
             console_output := [];
             console_output_len := 0;
             console_output_capacity := 1024;
             console_max_size := console_max_size;
             console_truncated := false;
             rb_http_callback := None;
             pending_ruby_exception := Qnil |};
        current_wrapper := false;
        realloc_results := allocator;
        http_calls := [] |})%rb.

(** [static VALUE sandbox_alloc (VALUE klass)]: the wrapper as [memset]
    leaves it. *)
Definition sandbox_alloc : World :=
  {| self :=
       {| rt := {| memory_limit := None; gc_runs := 0 |};
          ctx := {| global := JS_UNDEFINED; exception := None |};
          mem_limit := 0;
          start_time_ms := 0;
          timeout_ms := 0;
          timed_out := false;
          console_output := [];
          console_output_len := 0;
          console_output_capacity := 0;
          console_max_size := 0;
          console_truncated := false;
          rb_http_callback := None;
          pending_ruby_exception := Qnil |};
     current_wrapper := false;
     realloc_results := [];
     http_calls := [] |}.

(** A sandbox as [new] leaves it, for the given allocator and options. *)
Definition new_sandbox (allocator : list bool) (options : VALUE) : World :=
  match sandbox_initialize allocator options with
  | Return st => st
  | _ => sandbox_alloc
  end.

(* ================================================================== *)
(** * Sample surroundings                                              *)
(* ================================================================== *)

Module Sample.

(** An engine whose [ToString] never fails on the values left to it, and
    a Ruby whose [to_s] answers with one fixed text. *)
Definition tostring (v : JSValue) : option (list ascii) :=
  Some (C.lit "[object Object]").

Definition to_s (v : VALUE) : rb VALUE := Return (T_STRING (C.lit "42")).

(** Handlers. *)
Definition not_found : Callback :=
  fun _ _ _ _ =>
    Return (T_HASH [(T_SYMBOL (C.lit "status"), T_FIXNUM 404);
                    (T_SYMBOL (C.lit "body"), T_STRING (C.lit "nope"))]).

Definition blocked_error : VALUE :=
  T_OBJECT rb_eQuickJSHTTPBlockedError [T_STRING (C.lit "blocked")].

Definition blocked : Callback := fun _ _ _ _ => Raise blocked_error.

Definition binary_body : Callback :=
  fun _ _ _ _ =>
    Return (T_HASH [(T_SYMBOL (C.lit "status"), T_FIXNUM 200);
                    (T_SYMBOL (C.lit "body"),
                     T_STRING [ascii_of_nat 97; C.NUL; ascii_of_nat 98])]).

Definition two_hundred_and_a_half : double :=
  S754_finite false 7054466603810816 (-45).

Definition fractional_status : Callback :=
  fun _ _ _ _ =>
    Return (T_HASH [(T_SYMBOL (C.lit "status"), T_FLOAT two_hundred_and_a_half)]).

Definition huge_status : Callback :=
  fun _ _ _ _ => Return (T_HASH [(T_SYMBOL (C.lit "status"), T_FIXNUM (2 ^ 31))]).

(** Sandboxes: the defaults; the defaults with a handler; small ceilings. *)
Definition sandbox : World := new_sandbox [] (T_HASH []).

Definition sandbox_with (callback : Callback) : World :=
  update_self (set_rb_http_callback (Some callback)) sandbox.

Definition sandbox_of_size (allocator : list bool) (max : Z) : World :=
  new_sandbox allocator
    (T_HASH [(T_SYMBOL (C.lit "console_log_max_size"), T_FIXNUM max)]).

(** Programs: a [fetch] whose failure is caught and ignored; a [fetch]
    whose failure is left uncaught; a [fetch] followed by a loop that is
    still running when the engine polls at 6000 ms. *)
Definition url : JSValue := JS_STRING (C.lit "http://example.test/").

Definition fetch_and_ignore : Script :=
  CallsFetch [url] (fun _ => Completes (JS_INT 1)).

Definition fetch_uncaught : Script :=
  CallsFetch [url]
    (fun r => if JS_IsException r then Propagates else Completes r).

Definition fetch_then_loop : Script :=
  CallsFetch [url] (fun _ => Polls 6000 Propagates).

(** A program that logs one line and completes, and one that throws a
    string. *)
Definition log_and_finish : Script :=
  CallsConsole [JS_STRING (C.lit "hi")] (Completes (JS_INT 1)).

Definition throw_text : Script :=
  Throws (JS_STRING (C.lit "SyntaxError in disguise")).

(** A sandbox without a timeout, 1024 bytes of text, and two readings of
    the clock one nanosecond apart. *)
Definition sandbox_without_timeout : World :=
  new_sandbox [] (T_HASH [(T_SYMBOL (C.lit "timeout_ms"), T_FIXNUM 0)]).

Definition kilobyte : list ascii := repeat (ascii_of_nat 97) 1024.

Definition end_of_second : timespec := {| tv_sec := 5; tv_nsec := 999999999 |}.
Definition next_second : timespec := {| tv_sec := 6; tv_nsec := 0 |}.

(** A Hash in which a Symbol and a String stand for the same name. *)
Definition twice_a : list (VALUE * VALUE) :=
  [(T_SYMBOL (C.lit "a"), T_FIXNUM 1);
   (T_STRING (C.lit "a"), T_FIXNUM 2);
   (T_STRING (C.lit "b"), T_FIXNUM 3)].

(** Host values. *)
Definition two_and_a_half : double := S754_finite false 5629499534213120 (-51).

Definition nested : VALUE :=
  T_HASH
    [(T_STRING (C.lit "a"), T_FIXNUM 1);
     (T_STRING (C.lit "b"),
      T_ARRAY [Qnil; Qtrue; T_FLOAT two_and_a_half; T_STRING (C.lit "x")]);
     (T_STRING (C.lit "c"),
      T_HASH [(T_STRING (C.lit "d"), T_FLOAT (Double.of_Z 3))])].

End Sample.

Section Sandbox.

(** The two pieces of the surroundings the extension calls into and whose
    results it only passes on: the engine's [ToString] on a value that is
    not already a string ([None] when it throws), and Ruby's [to_s]. *)
Variable js_tostring : JSValue -> option (list ascii).
Variable rb_to_s : VALUE -> rb VALUE.

(** [JS_ToCString (ctx, val)]: the UTF-8 bytes of [ToString (val)], [NULL]
    when the conversion throws; a symbol never converts. *)
Definition JS_ToCString (val : JSValue) : option (list ascii) :=
  match val with
  | JS_STRING s => Some s
  | JS_SYMBOL _ => None
  | JS_EXCEPTION => None
  | _ => js_tostring val
  end.

(** The [for] loop of [js_console_log], at argument number [i]. *)
Fixpoint console_log_args (st : World) (i : Z) (argv : list JSValue) : World :=
  match argv with
  | [] => st
  | arg :: rest =>
      let st1 := if 0 <? i then append_console_output st (C.lit " ") else st in
      let st2 :=
        match JS_ToCString arg with
        | Some str => append_console_output st1 (C.cstr str)
        | None => st1
        end in
      console_log_args st2 (i + 1) rest
  end.

(** [static JSValue js_console_log (ctx, this_val, argc, argv)]. *)
Definition js_console_log (st : World) (argv : list JSValue) : JSValue * World :=
  if negb (current_wrapper st) then (JS_UNDEFINED, st)
  else
    let st1 := console_log_args st 0 argv in
    (JS_UNDEFINED, append_console_output st1 [C.newline]).

(** ** The fetch bridge *)

Definition set_exception (e : option JSValue) (st : World) : World :=
  update_self
    (fun w => set_ctx {| global := global (ctx w); exception := e |} w) st.

(** [JS_ThrowTypeError] and [JS_ThrowInternalError]: the error becomes the
    pending exception of the context and the call returns [JS_EXCEPTION]. *)
Definition JS_ThrowTypeError (msg : string) (st : World) : JSValue * World :=
  (JS_EXCEPTION, set_exception (Some (js_error JS_TYPE_ERROR msg)) st).

Definition JS_ThrowInternalError (msg : string) (st : World) : JSValue * World :=
  (JS_EXCEPTION, set_exception (Some (js_error JS_INTERNAL_ERROR msg)) st).

Definition returning (r : JSValue * World) : rb JSValue * World :=
  (Return (fst r), snd r).

(** The options block of [js_fetch]: the [method] and [body] strings of
    the second argument, each [NULL] when the argument or the field is
    missing, undefined or null, or when the field does not convert. *)
Definition fetch_options (more : list JSValue)
  : option (list ascii) * option (list ascii) :=
  let read_field (options : JSValue) (name : string) :=
    let field_val := JS_GetPropertyStr options name in
    if negb (JS_IsUndefined field_val) && negb (JS_IsNull field_val)
    then JS_ToCString field_val else None in
  match more with
  | options :: _ =>
      if negb (JS_IsUndefined options) && negb (JS_IsNull options)
      then (read_field options "method"%string, read_field options "body"%string)
      else (None, None)
  | [] => (None, None)
  end.

(** The tail of [js_fetch]: the answer of the callback is read as a Hash
    and turned into the response object.  Nothing here runs under
    [rb_protect]. *)
Definition fetch_response (rb_response : VALUE) : rb JSValue :=
  (rb_status <- rb_hash_aref_sym rb_response "status" ;;
   rb_status_text <- rb_hash_aref_sym rb_response "statusText" ;;
   rb_response_body <- rb_hash_aref_sym rb_response "body" ;;
   status <- (if NIL_P rb_status then Return 200 else NUM2INT rb_status) ;;
   status_text <- (if NIL_P rb_status_text then Return (C.lit "OK")
                   else StringValueCStr rb_status_text) ;;
   response_body <- (if NIL_P rb_response_body then Return []
                     else StringValueCStr rb_response_body) ;;
   let response_obj := JS_NewObject in
   let response_obj :=
     JS_SetPropertyStr response_obj (C.lit "status") (JS_NewInt32 status) in
   let response_obj :=
     JS_SetPropertyStr response_obj (C.lit "statusText")
       (JS_NewString status_text) in
   let response_obj :=
     JS_SetPropertyStr response_obj (C.lit "ok")
       (JS_NewBool ((200 <=? status) && (status <? 300))) in
   let response_obj :=
     JS_SetPropertyStr response_obj (C.lit "body") (JS_NewString response_body) in
   let headers_obj := JS_NewObject in
   let response_obj :=
     JS_SetPropertyStr response_obj (C.lit "headers") headers_obj in
   Return response_obj)%rb.

(** [static JSValue js_fetch (ctx, this_val, argc, argv)].  The callback
    runs under [rb_protect]: an exception it raises is caught there. *)
Definition js_fetch (st : World) (argv : list JSValue) : rb JSValue * World :=
  if negb (current_wrapper st) then
    returning (JS_ThrowTypeError "fetch() called outside sandbox context" st)
  else
    let wrapper := self st in
    match rb_http_callback wrapper with
    | None =>
        returning (JS_ThrowTypeError
                     "fetch() is not enabled - HTTP callback not configured" st)
    | Some callback =>
        match argv with
        | [] =>
            returning (JS_ThrowTypeError
                         "fetch() requires at least 1 argument (url)" st)
        | arg0 :: more =>
            match JS_ToCString arg0 with
            | None =>
                returning (JS_ThrowTypeError "fetch() url must be a string" st)
            | Some url =>
                let rb_headers := T_HASH [] in
                let '(method_str, body_str) := fetch_options more in
                let rb_url := rb_str_new2 url in
                let rb_method :=
                  match method_str with
                  | Some m => rb_str_new2 m
                  | None => rb_str_new2 (C.lit "GET")
                  end in
                let rb_body :=
                  match body_str with
                  | Some b => rb_str_new2 b
                  | None => Qnil
                  end in
                let st1 :=
                  set_http_calls
                    (http_calls st ++ [(rb_method, rb_url, rb_body, rb_headers)])
                    st in
                match callback rb_method rb_url rb_body rb_headers with
                | Raise exception =>
                    (* kept for [sandbox_eval]; the script sees a generic error *)
                    returning
                      (JS_ThrowInternalError "HTTP request failed"
                         (update_self (set_pending_ruby_exception exception) st1))
                | Undefined => (Undefined, st1)
                | Return rb_response => (fetch_response rb_response, st1)
                end
            end
        end
    end.

(** ** Script value to Ruby value *)

(** The number case of [js_to_ruby]:
    [d == (int64_t) d && d >= FIXNUM_MIN && d <= FIXNUM_MAX], the two
    bounds being converted to [double] for the comparison; [cast] is the
    conversion to [int64_t]. *)
Definition js_number_to_ruby_with (cast : double -> Z) (d : double) : VALUE :=
  if Double.eqb d (Double.of_Z (cast d))
     && Double.geb d (Double.of_Z FIXNUM_MIN)
     && Double.leb d (Double.of_Z FIXNUM_MAX)
  then LONG2FIX (cast d)
  else T_FLOAT d.

Definition js_number_to_ruby : double -> VALUE :=
  js_number_to_ruby_with Double.to_int64.

(** One round of the property loop of [js_to_ruby]: [converted] holds the
    own properties with their values already converted, so that looking
    [atom] up in it is [js_to_ruby (JS_GetProperty (ctx, val, atom))]. *)
Definition js_to_ruby_property (converted : list (JSAtom * (bool * VALUE)))
  (rb_hash : list (VALUE * VALUE)) (atom : JSAtom) : list (VALUE * VALUE) :=
  match JS_AtomToCString atom with
  | Some key =>
      let rb_val :=
        match find_property atom converted with
        | Some (_, v) => v
        | None => Qnil
        end in
      rb_hash_aset_str rb_hash (C.cstr key) rb_val
  | None => rb_hash
  end.

(** [static VALUE js_to_ruby (JSContext *ctx, JSValue val)]. *)
Fixpoint js_to_ruby (val : JSValue) : VALUE :=
  if JS_IsNull val then Qnil
  else if JS_IsUndefined val then Qnil
  else if JS_IsBool val then rb_bool (JS_ToBool val)
  else
    match (if JS_IsNumber val
           then option_map js_number_to_ruby (JS_ToFloat64 val) else None) with
    | Some rb_num => rb_num
    | None =>
    match (if JS_IsString val
           then option_map rb_str_new2 (JS_ToCString val) else None) with
    | Some rb_str => rb_str
    | None =>
    match val with
    | JS_ARRAY elems =>
        (* JS_IsArray: [length], then the indices below it *)
        let len := js_array_length val in
        T_ARRAY (firstn (Z.to_nat len) (map js_to_ruby elems))
    | JS_OBJECT _ props =>
        (* JS_IsObject: own enumerable string keys, in enumeration order *)
        let converted :=
          map (fun p : JSProperty =>
                 let '(k, (en, v)) := p in (k, (en, js_to_ruby v))) props in
        match JS_GetOwnPropertyNames val with
        | Some names =>
            T_HASH (fold_left (js_to_ruby_property converted) names [])
        | None => T_HASH []
        end
    | _ => Qnil
    end
    end
    end.

(** ** Ruby value to script value *)

(** [struct hash_iter_data] (without the context pointer). *)
Record hash_iter_data : Type := {
  obj : JSValue;
  has_error : bool
}.

Inductive st_retval : Type := ST_CONTINUE | ST_STOP.

(** [rb_hash_foreach (hash, cb, arg)]: the entries in insertion order, until
    the callback answers [ST_STOP]. *)
Section HashForeach.
Variable cb : VALUE -> VALUE -> hash_iter_data -> rb (st_retval * hash_iter_data).

Fixpoint rb_hash_foreach (entries : list (VALUE * VALUE)) (data : hash_iter_data)
  : rb hash_iter_data :=
  match entries with
  | [] => Return data
  | (key, val) :: rest =>
      (r <- cb key val data ;;
       match fst r with
       | ST_STOP => Return (snd r)
       | ST_CONTINUE => rb_hash_foreach rest (snd r)
       end)%rb
  end.
End HashForeach.

(** The array loop of [ruby_to_js], from index [i] on: each element is
    converted by [ruby_to_js] and stored at its index; a failed conversion
    ends the loop with the exception marker. *)
Section ArrayLoop.
Variable ruby_to_js : VALUE -> rb JSValue.

Fixpoint ruby_array_to_js (elems : list VALUE) (i : Z) (arr : JSValue)
  : rb JSValue :=
  match elems with
  | [] => Return arr
  | elem :: rest =>
      (js_elem <- ruby_to_js elem ;;
       if JS_IsException js_elem then Return js_elem
       else ruby_array_to_js rest (i + 1) (JS_SetPropertyUint32 arr i js_elem))%rb
  end.
End ArrayLoop.

(** [static int hash_foreach_cb (VALUE key, VALUE val, VALUE arg)]; the
    converter it calls back into is the argument [ruby_to_js]. *)
Definition hash_foreach_cb (ruby_to_js : VALUE -> rb JSValue)
  (key val : VALUE) (data : hash_iter_data) : rb (st_retval * hash_iter_data) :=
  if has_error data then Return (ST_STOP, data)
  else
    (key_str <- match key with
                | T_SYMBOL name => Return (rb_id2name name)
                | T_STRING _ => StringValueCStr key
                | _ => (key_str_val <- rb_to_s key ;;
                        StringValueCStr key_str_val)
                end ;;
     js_val <- ruby_to_js val ;;
     if JS_IsException js_val
     then Return (ST_STOP, {| obj := obj data; has_error := true |})
     else Return (ST_CONTINUE,
                  {| obj := JS_SetPropertyStr (obj data) key_str js_val;
                     has_error := has_error data |}))%rb.

(** [static JSValue ruby_to_js (JSContext *ctx, VALUE rb_val)]. *)
Fixpoint ruby_to_js (rb_val : VALUE) : rb JSValue :=
  match rb_val with
  | Qnil => Return JS_NULL
  | Qtrue => Return JS_TRUE
  | Qfalse => Return JS_FALSE
  | T_FIXNUM val => Return (JS_NewInt64 val)
  | T_BIGNUM _ => Return (JS_NewFloat64 (NUM2DBL rb_val))
  | T_FLOAT _ => Return (JS_NewFloat64 (NUM2DBL rb_val))
  | T_STRING _ => (str <- StringValueCStr rb_val ;; Return (JS_NewString str))%rb
  | T_SYMBOL name => Return (JS_NewString (rb_id2name name))
  | T_ARRAY elems =>
      ruby_array_to_js ruby_to_js elems 0 JS_NewArray
  | T_HASH entries =>
      (data <- rb_hash_foreach (hash_foreach_cb ruby_to_js) entries
                 {| obj := JS_NewObject; has_error := false |} ;;
       if has_error data then Return JS_EXCEPTION else Return (obj data))%rb
  | T_OBJECT _ _ =>
      (* any other type: its to_s *)
      (str_val <- rb_to_s rb_val ;;
       str <- StringValueCStr str_val ;;
       Return (JS_NewString str))%rb
  end.

(* ================================================================== *)
(** * Evaluation                                                       *)
(* ================================================================== *)

(** [static int interrupt_handler (JSRuntime *rt, void *opaque)], with
    [now] the reading of [get_time_ms ()]. *)
Definition interrupt_handler (st : World) (now : Z) : bool * World :=
  let wrapper := self st in
  if 0 <? timeout_ms wrapper then
    let elapsed := now - start_time_ms wrapper in
    if timeout_ms wrapper <? elapsed
    then (true, update_self (set_timed_out true) st)
    else (false, st)
  else (false, st).

(** The engine's reading of a source text. *)
Variable js_program : list ascii -> Script.

(** [JS_Eval]: a completed run returns its value; an uncaught exception
    (thrown by the program, or left pending by a callback and not caught)
    returns [JS_EXCEPTION]; a poll that answers 1 aborts the run with an
    error the program cannot catch.  A Ruby exception that escapes
    [js_fetch] unwinds through the engine. *)
Fixpoint JS_Eval (st : World) (program : Script) : rb JSValue * World :=
  match program with
  | Completes result => (Return result, st)
  | Throws thrown => (Return JS_EXCEPTION, set_exception (Some thrown) st)
  | Propagates => (Return JS_EXCEPTION, st)
  | CallsConsole argv next =>
      JS_Eval (snd (js_console_log st argv)) next
  | CallsFetch argv next =>
      match js_fetch st argv with
      | (Return r, st1) => JS_Eval st1 (next r)
      | (Raise e, st1) => (Raise e, st1)
      | (Undefined, st1) => (Undefined, st1)
      end
  | Polls now next =>
      let (stop, st1) := interrupt_handler st now in
      if stop
      then (Return JS_EXCEPTION,
            set_exception (Some (js_error JS_INTERNAL_ERROR "interrupted")) st1)
      else JS_Eval st1 next
  end.

(** [JS_GetException]: takes the pending exception out of the context. *)
Definition JS_GetException (st : World) : JSValue * World :=
  (match exception (ctx (self st)) with
   | Some e => e
   | None => JS_NULL
   end, set_exception None st).

Definition JS_RunGC (st : World) : World :=
  update_self
    (fun w => set_rt {| memory_limit := memory_limit (rt w);
                        gc_runs := S (gc_runs (rt w)) |} w) st.

(** The first lines of [sandbox_eval]: console output, timeout flag and
    pending exception are reset, the start time is taken and
    [current_wrapper] is pointed at the wrapper. *)
Definition sandbox_eval_reset (st : World) (now : Z) : World :=
  let st :=
    update_self
      (fun w =>
         set_pending_ruby_exception Qnil
           (set_timed_out false
              (set_console_truncated false
                 (set_console_output []
                    (set_console_output_len 0 w))))) st in
  let st := update_self (set_start_time_ms now) st in
  set_current_wrapper true st.

(** [static VALUE sandbox_eval (VALUE self, VALUE code)], with [now] the
    reading of [get_time_ms ()] at the start. *)
Definition sandbox_eval (st : World) (now : Z) (code : VALUE) : rb VALUE * World :=
  let st := sandbox_eval_reset st now in
  match StringValueCStr code with
  | Raise e => (Raise e, st)
  | Undefined => (Undefined, st)
  | Return code_str =>
  match JS_Eval st (js_program code_str) with
  | (Raise e, st) => (Raise e, st)
  | (Undefined, st) => (Undefined, st)
  | (Return result, st) =>
      let st := set_current_wrapper false st in
      let wrapper := self st in
      let console_output :=
        T_STRING (firstn (Z.to_nat (console_output_len wrapper))
                    (console_output wrapper)) in
      let console_truncated := rb_bool (console_truncated wrapper) in
      if timed_out wrapper then
        (Raise (rb_class_new_instance
                  [rb_str_new2 (C.lit "JavaScript execution timeout exceeded");
                   console_output; console_truncated]
                  rb_eQuickJSTimeoutError), st)
      else if JS_IsException result then
        let (exception, st) := JS_GetException st in
        if negb (NIL_P (pending_ruby_exception wrapper)) then
          let pending := pending_ruby_exception wrapper in
          let st := update_self (set_pending_ruby_exception Qnil) st in
          let st := JS_RunGC st in
          let exc_class := rb_obj_class pending in
          let message := rb_exc_message pending in
          if rclass_eqb exc_class rb_eQuickJSHTTPBlockedError
             || rclass_eqb exc_class rb_eQuickJSHTTPLimitError
             || rclass_eqb exc_class rb_eQuickJSHTTPError
          then
            (Raise (rb_class_new_instance
                      [message; console_output; console_truncated] exc_class),
             st)
          else (Raise pending, st)
        else
          let exception_str := JS_ToCString exception in
          let is_syntax :=
            match exception_str with
            | Some str => C.strncmp_eq str (C.lit "SyntaxError") 11
            | None => false
            end in
          let rb_message :=
            match exception_str with
            | Some str => rb_str_new2 str
            | None => rb_str_new2 (C.lit "Unknown JavaScript error")
            end in
          let rb_stack := rb_str_new2 [] in
          let rb_stack :=
            if JS_IsObject exception then
              let stack_val := JS_GetPropertyStr exception "stack" in
              if negb (JS_IsUndefined stack_val) && negb (JS_IsNull stack_val)
              then match JS_ToCString stack_val with
                   | Some stack => rb_str_new2 stack
                   | None => rb_stack
                   end
              else rb_stack
            else rb_stack in
          let argv := [rb_message; rb_stack; console_output; console_truncated] in
          if is_syntax
          then (Raise (rb_class_new_instance argv rb_eQuickJSSyntaxError), st)
          else (Raise (rb_class_new_instance argv rb_eQuickJSJavascriptError), st)
      else
        let rb_result := js_to_ruby result in
        let st := JS_RunGC st in
        let rb_http_requests := T_ARRAY [] in
        (Return (rb_class_new_instance
                   [rb_result; console_output; console_truncated;
                    rb_http_requests] rb_cResult), st)
  end
  end.

(** [static VALUE sandbox_set_variable (VALUE self, VALUE name, VALUE value)].
    The result of [JS_SetPropertyStr] is discarded: the call returns nil
    whether or not the engine has stored the value. *)
Definition sandbox_set_variable (st : World) (name value : VALUE)
  : rb VALUE * World :=
  match StringValueCStr name with
  | Raise e => (Raise e, st)
  | Undefined => (Undefined, st)
  | Return var_name =>
      if C.strlen var_name =? 0
      then (rb_raise rb_eArgError "Variable name cannot be empty", st)
      else
        match ruby_to_js value with
        | Raise e => (Raise e, st)
        | Undefined => (Undefined, st)
        | Return js_val =>
            (Return Qnil,
             update_self
               (fun w =>
                  set_ctx {| global := JS_SetPropertyStr (global (ctx w))
                                         var_name js_val;
                             exception := exception (ctx w) |} w) st)
        end
  end.

(** [static VALUE sandbox_set_http_callback (VALUE self, VALUE callback)]. *)
Definition sandbox_set_http_callback (st : World) (callback : option Callback)
  : rb VALUE * World :=
  (Return Qnil, update_self (set_rb_http_callback callback) st).


(* ================================================================== *)
(** * Vocabulary of the statements                                     *)
(* ================================================================== *)

(** The buffer is consistent: its recorded length is the number of bytes
    it holds and does not exceed the ceiling. *)
Definition console_ok (w : ContextWrapper) : Prop :=
  0 <= console_output_len w <= console_max_size w
  /\ Z.of_nat (List.length (console_output w)) = console_output_len w.

(** Every [realloc] still to come succeeds. *)
Definition reallocs_succeed (st : World) : Prop :=
  Forall (fun ok => ok = true) (realloc_results st).

(** Two states that differ in the console buffer at most (and in what is
    left of the allocator's outcomes). *)
Definition same_but_console (st st' : World) : Prop :=
  current_wrapper st' = current_wrapper st
  /\ http_calls st' = http_calls st
  /\ rt (self st') = rt (self st)
  /\ ctx (self st') = ctx (self st)
  /\ mem_limit (self st') = mem_limit (self st)
  /\ start_time_ms (self st') = start_time_ms (self st)
  /\ timeout_ms (self st') = timeout_ms (self st)
  /\ timed_out (self st') = timed_out (self st)
  /\ console_max_size (self st') = console_max_size (self st)
  /\ rb_http_callback (self st') = rb_http_callback (self st)
  /\ pending_ruby_exception (self st') = pending_ruby_exception (self st).

(** The strings [js_console_log] hands to [append_console_output] for the
    arguments from number [i] on, in order. *)
Fixpoint log_pieces (i : Z) (argv : list JSValue) : list (list ascii) :=
  match argv with
  | [] => []
  | arg :: rest =>
      (if 0 <? i then [C.lit " "] else [])
      ++ match JS_ToCString arg with
         | Some str => [C.cstr str]
         | None => []
         end
      ++ log_pieces (i + 1) rest
  end.

(** The line a call of [console.log] stands for: the texts of the
    arguments joined by single spaces, then a newline; an argument that
    cannot be turned into a string contributes no text. *)
Definition arg_text (arg : JSValue) : list ascii :=
  match JS_ToCString arg with
  | Some str => C.cstr str
  | None => []
  end.

Fixpoint join_spaces (texts : list (list ascii)) : list ascii :=
  match texts with
  | [] => []
  | [t] => t
  | t :: rest => t ++ C.lit " " ++ join_spaces rest
  end.

Definition console_line (argv : list JSValue) : list ascii :=
  join_spaces (map arg_text argv) ++ [C.newline].

(** The fields of the buffer agree in two states. *)
Definition same_console (st st' : World) : Prop :=
  console_output (self st') = console_output (self st)
  /\ console_output_len (self st') = console_output_len (self st)
  /\ console_max_size (self st') = console_max_size (self st)
  /\ console_truncated (self st') = console_truncated (self st).

(** The request a [fetch (target, options)] call stands for: the method
    defaults to GET, the body to none, the headers are empty. *)
Definition request_of (url : list ascii) (more : list JSValue) : HttpCall :=
  let options := match more with o :: _ => o | [] => JS_UNDEFINED end in
  let field (name : string) : option (list ascii) :=
    match JS_GetPropertyStr options name with
    | JS_UNDEFINED | JS_NULL => None
    | v => JS_ToCString v
    end in
  (match field "method"%string with
   | Some m => T_STRING (C.cstr m)
   | None => T_STRING (C.lit "GET")
   end,
   T_STRING (C.cstr url),
   match field "body"%string with
   | Some b => T_STRING (C.cstr b)
   | None => Qnil
   end,
   T_HASH []).

(** The fields of a structured response: an Integer status that a C [int]
    holds, and texts that a C string holds; each may be absent. *)
Definition response_status (entries : list (VALUE * VALUE)) : option Z :=
  match hash_lookup_sym (C.lit "status") entries with
  | Qnil => Some 200
  | T_FIXNUM n =>
      if (C.INT_MIN <=? n) && (n <=? C.INT_MAX) then Some n else None
  | _ => None
  end.

Definition response_text (name : string) (default : string)
  (entries : list (VALUE * VALUE)) : option (list ascii) :=
  match hash_lookup_sym (C.lit name) entries with
  | Qnil => Some (C.lit default)
  | T_STRING s => if C.has_nul s then None else Some s
  | _ => None
  end.

(** The script-visible response object. *)
Definition response_object (status : Z) (status_text body : list ascii)
  : JSValue :=
  JS_OBJECT JS_CLASS_OBJECT
    [(JS_ATOM_STRING (C.lit "status"), (true, JS_INT status));
     (JS_ATOM_STRING (C.lit "statusText"), (true, JS_STRING status_text));
     (JS_ATOM_STRING (C.lit "ok"),
      (true, JS_BOOL ((200 <=? status) && (status <? 300))));
     (JS_ATOM_STRING (C.lit "body"), (true, JS_STRING body));
     (JS_ATOM_STRING (C.lit "headers"), (true, JS_OBJECT JS_CLASS_OBJECT []))].

(** The reserved effect-error classes. *)
Definition reserved_effect_error (klass : RClass) : bool :=
  match klass with
  | rb_eQuickJSHTTPBlockedError
  | rb_eQuickJSHTTPLimitError
  | rb_eQuickJSHTTPError => true
  | _ => false
  end.

(** The console output and truncation flag every outcome of [sandbox_eval]
    carries. *)
Definition captured_output (w : ContextWrapper) : VALUE :=
  T_STRING (firstn (Z.to_nat (console_output_len w)) (console_output w)).

Definition captured_truncated (w : ContextWrapper) : VALUE :=
  rb_bool (console_truncated w).

(** The double [2^62], the one value just past the FIXNUM range that the
    range test of [js_to_ruby] lets through. *)
Definition double_2_62 : double := S754_finite false 4503599627370496 10.

Definition is_double_2_62 (d : double) : bool :=
  match d with
  | S754_finite false 4503599627370496 10 => true
  | _ => false
  end.

(** [d] has no fractional part and its value is the integer [n]. *)
Definition double_is_integer (d : double) (n : Z) : Prop :=
  match d with
  | S754_zero _ => n = 0
  | S754_finite s m e =>
      let a := if s then - n else n in
      match e with
      | Zneg q => a * 2 ^ Z.pos q = Z.pos m
      | _ => a = Z.pos m * 2 ^ e
      end
  | _ => False
  end.

(** Host to script and back. *)
Definition roundtrip (v : VALUE) : rb VALUE :=
  (js <- ruby_to_js v ;; Return (js_to_ruby js))%rb.

(** A key that passes through a script object unchanged and in place: it
    holds no NUL byte, it is not an array index (the engine lists those
    first, in numeric order) and it is not [__proto__] (assigning to it
    creates no property). *)
Definition plain_key (k : list ascii) : bool :=
  negb (C.has_nul k) && negb (is_index_key k)
  && negb (C.bytes_eqb k (C.lit "__proto__")).

Definition key_of (e : VALUE * VALUE) : list ascii :=
  match fst e with
  | T_STRING k => k
  | _ => []
  end.

Fixpoint distinct (keys : list (list ascii)) : bool :=
  match keys with
  | [] => true
  | k :: rest => negb (existsb (fun k0 => C.bytes_eqb k0 k) rest) && distinct rest
  end.

(** The host values that survive the round trip: null, booleans, integers
    a double holds exactly (below [2^53] in magnitude), well-formed
    doubles other than [2^62], strings without NUL bytes, sequences of
    fewer than [2^32] such values, and mappings from distinct plain string
    keys to such values. *)
Fixpoint marshallable (v : VALUE) : bool :=
  match v with
  | Qnil | Qtrue | Qfalse => true
  | T_FIXNUM n => (- 2 ^ 53 <? n) && (n <? 2 ^ 53)
  | T_FLOAT d => valid_binary 53 1024 d && negb (is_double_2_62 d)
  | T_STRING s => negb (C.has_nul s)
  | T_ARRAY elems =>
      (Z.of_nat (List.length elems) <? 2 ^ 32) && forallb marshallable elems
  | T_HASH entries =>
      forallb (fun e => match fst e with
                        | T_STRING k => plain_key k
                        | _ => false
                        end && marshallable (snd e)) entries
      && distinct (map key_of entries)
  | _ => false
  end.

(** Structural equality of what went in and what came back, except that
    a double without fractional part may have become the FIXNUM of the
    same value. *)
Inductive comes_back : VALUE -> VALUE -> Prop :=
| back_nil : comes_back Qnil Qnil
| back_true : comes_back Qtrue Qtrue
| back_false : comes_back Qfalse Qfalse
| back_fixnum n : comes_back (T_FIXNUM n) (T_FIXNUM n)
| back_float d : comes_back (T_FLOAT d) (T_FLOAT d)
| back_float_as_integer d n :
    double_is_integer d n -> FIXNUM_MIN <= n <= FIXNUM_MAX ->
    comes_back (T_FLOAT d) (T_FIXNUM n)
| back_string s : comes_back (T_STRING s) (T_STRING s)
| back_array l l' :
    Forall2 comes_back l l' -> comes_back (T_ARRAY l) (T_ARRAY l')
| back_hash es es' :
    Forall2 (fun e e' => fst e = fst e' /\ comes_back (snd e) (snd e')) es es' ->
    comes_back (T_HASH es) (T_HASH es').

(** The own properties and the Ruby entries that a list of keys with
    their script values stands for. *)
Definition props_of (kjs : list (list ascii * JSValue)) : list JSProperty :=
  map (fun kj => (JS_ATOM_STRING (fst kj), (true, snd kj))) kjs.

Definition hash_of (kjs : list (list ascii * JSValue)) : list (VALUE * VALUE) :=
  map (fun kj => (T_STRING (fst kj), js_to_ruby (snd kj))) kjs.


Definition fresh (k : list ascii) (keys : list (list ascii)) : Prop :=
  existsb (fun k0 => C.bytes_eqb k0 k) keys = false.

Definition converted_of (kjs : list (list ascii * JSValue))
  : list (JSAtom * (bool * VALUE)) :=
  map (fun kj => (JS_ATOM_STRING (fst kj), (true, js_to_ruby (snd kj)))) kjs.

(** The handler raised [exc] on one of the calls of the list. *)
Definition raised_during (callback : option Callback) (calls : list HttpCall)
  (exc : VALUE) : Prop :=
  exists cb m u b h,
    callback = Some cb /\ In (m, u, b, h) calls /\ cb m u b h = Raise exc.

(** What a stretch of a run may do to the handler, the call log and the
    deferred slot: the handler stays, calls are added, and the slot holds
    what it held or an exception the handler raised on an added call. *)
Definition defers (st st' : World) : Prop :=
  rb_http_callback (self st') = rb_http_callback (self st)
  /\ exists calls,
      http_calls st' = http_calls st ++ calls
      /\ (pending_ruby_exception (self st') = pending_ruby_exception (self st)
          \/ raised_during (rb_http_callback (self st)) calls
               (pending_ruby_exception (self st'))).

(** ** The buffer and its block *)

(** The whole of the buffer agrees in two states. *)
Definition same_buffer (st st' : World) : Prop :=
  console_output (self st') = console_output (self st)
  /\ console_output_len (self st') = console_output_len (self st)
  /\ console_output_capacity (self st') = console_output_capacity (self st)
  /\ console_max_size (self st') = console_max_size (self st)
  /\ console_truncated (self st') = console_truncated (self st).

(** What was captured stays: the output is extended at its end, and a
    truncation flag that is set stays set. *)
Definition console_grows (st st' : World) : Prop :=
  (exists suffix,
      console_output (self st') = console_output (self st) ++ suffix)
  /\ console_output_len (self st) <= console_output_len (self st')
  /\ (console_truncated (self st) = true ->
      console_truncated (self st') = true).

(** The recorded capacity covers the recorded length. *)
Definition capacity_ok (w : ContextWrapper) : Prop :=
  console_output_len w <= console_output_capacity w.

(** The capacity does not shrink, it does not pass the larger of what it
    was and the ceiling, and the ceiling stays. *)
Definition capacity_grows (st st' : World) : Prop :=
  console_output_capacity (self st) <= console_output_capacity (self st')
  /\ console_output_capacity (self st')
     <= Z.max (console_output_capacity (self st)) (console_max_size (self st))
  /\ console_max_size (self st') = console_max_size (self st).

(** The lines a run logs, in order: one for every call of [console.log]
    the program gets to. *)
Fixpoint console_lines (st : World) (program : Script) : list (list ascii) :=
  match program with
  | CallsConsole argv next =>
      console_line argv :: console_lines (snd (js_console_log st argv)) next
  | CallsFetch argv next =>
      match js_fetch st argv with
      | (Return r, st1) => console_lines st1 (next r)
      | _ => []
      end
  | Polls now next =>
      let (stop, st1) := interrupt_handler st now in
      if stop then [] else console_lines st1 next
  | _ => []
  end.

(** ** The clock *)

(** A reading as the clock delivers it, and the order of two readings. *)
Definition normalized (ts : timespec) : Prop :=
  0 <= tv_nsec ts < 1000000000.

Definition not_after (ts1 ts2 : timespec) : Prop :=
  tv_sec ts1 < tv_sec ts2
  \/ (tv_sec ts1 = tv_sec ts2 /\ tv_nsec ts1 <= tv_nsec ts2).

(** ** The settings *)

(** The limits and the handler of a sandbox agree in two states. *)
Definition same_settings (st st' : World) : Prop :=
  mem_limit (self st') = mem_limit (self st)
  /\ timeout_ms (self st') = timeout_ms (self st)
  /\ console_max_size (self st') = console_max_size (self st)
  /\ rb_http_callback (self st') = rb_http_callback (self st)
  /\ memory_limit (rt (self st')) = memory_limit (rt (self st)).

(** Two sandboxes that an evaluation cannot tell apart once it has reset
    its state: they agree in the settings and in the context; the console
    buffer, the flags, the deferred slot, the start time, the call log and
    the count of garbage collections are free. *)
Definition same_configuration (st1 st2 : World) : Prop :=
  mem_limit (self st1) = mem_limit (self st2)
  /\ timeout_ms (self st1) = timeout_ms (self st2)
  /\ console_max_size (self st1) = console_max_size (self st2)
  /\ rb_http_callback (self st1) = rb_http_callback (self st2)
  /\ ctx (self st1) = ctx (self st2).



(** What a run goes by: two states that agree in it are told apart by no
    call into the extension.  The capacity of the buffer, the outcomes of
    the allocator, the call log and the runtime are not part of it. *)
Definition same_run (st1 st2 : World) : Prop :=
  current_wrapper st1 = current_wrapper st2
  /\ ctx (self st1) = ctx (self st2)
  /\ timeout_ms (self st1) = timeout_ms (self st2)
  /\ start_time_ms (self st1) = start_time_ms (self st2)
  /\ timed_out (self st1) = timed_out (self st2)
  /\ console_output (self st1) = console_output (self st2)
  /\ console_output_len (self st1) = console_output_len (self st2)
  /\ console_max_size (self st1) = console_max_size (self st2)
  /\ console_truncated (self st1) = console_truncated (self st2)
  /\ rb_http_callback (self st1) = rb_http_callback (self st2)
  /\ pending_ruby_exception (self st1) = pending_ruby_exception (self st2).

(** An option of [new]: the value given under the key when it is an
    Integer, the default when the key is absent or nil. *)
Definition setting (name : string) (default : Z) (entries : list (VALUE * VALUE))
  : option Z :=
  match hash_lookup_sym (C.lit name) entries with
  | Qnil => Some default
  | T_FIXNUM n | T_BIGNUM n => Some n
  | _ => None
  end.

(** ** Values *)

(** Plain host data: nil, booleans, Integers in the FIXNUM range, Floats,
    Strings without a NUL byte, Arrays of plain data, and Hashes from
    pairwise distinct such Strings to plain data. *)
Fixpoint host_data (v : VALUE) : bool :=
  match v with
  | Qnil | Qtrue | Qfalse => true
  | T_FIXNUM n => (FIXNUM_MIN <=? n) && (n <=? FIXNUM_MAX)
  | T_FLOAT _ => true
  | T_STRING s => negb (C.has_nul s)
  | T_ARRAY elems => forallb host_data elems
  | T_HASH entries =>
      forallb (fun e => match fst e with
                        | T_STRING k => negb (C.has_nul k)
                        | _ => false
                        end && host_data (snd e)) entries
      && distinct (map key_of entries)
  | _ => false
  end.

(** Host values made of nil, booleans, numbers, Strings, Symbols, Arrays
    and Hashes with String or Symbol keys. *)
Fixpoint data_only (v : VALUE) : bool :=
  match v with
  | T_ARRAY elems => forallb data_only elems
  | T_HASH entries =>
      forallb (fun e => match fst e with
                        | T_STRING _ | T_SYMBOL _ => true
                        | _ => false
                        end && data_only (snd e)) entries
  | T_OBJECT _ _ => false
  | _ => true
  end.

(** No String in the value, key or element at any depth, holds a NUL
    byte. *)
Fixpoint nul_free (v : VALUE) : bool :=
  match v with
  | T_STRING s => negb (C.has_nul s)
  | T_ARRAY elems => forallb nul_free elems
  | T_HASH entries =>
      forallb (fun e => nul_free (fst e) && nul_free (snd e)) entries
  | _ => true
  end.

(** The property name a key of a Hash stands for. *)
Definition property_name (key : VALUE) : rb (list ascii) :=
  match key with
  | T_SYMBOL name => Return (rb_id2name name)
  | T_STRING _ => StringValueCStr key
  | _ => (key_str_val <- rb_to_s key ;; StringValueCStr key_str_val)%rb
  end.

(** ** Calls to the handler *)

(** The headers a call hands to the handler. *)
Definition call_headers (call : HttpCall) : VALUE := snd call.

(** The calls a stretch of a run adds to the log all carry an empty
    headers mapping. *)
Definition adds_bare_calls (st st' : World) : Prop :=
  exists calls,
    http_calls st' = http_calls st ++ calls
    /\ Forall (fun call => call_headers call = T_HASH []) calls.

(** ** Uncaught script errors *)

Definition starts_with (prefix s : list ascii) : Prop :=
  exists rest, s = prefix ++ rest.

(** The message and the stack text reported for a thrown value. *)
Definition error_message (thrown : JSValue) : VALUE :=
  match JS_ToCString thrown with
  | Some str => T_STRING (C.cstr str)
  | None => T_STRING (C.lit "Unknown JavaScript error")
  end.

Definition error_stack (thrown : JSValue) : VALUE :=
  match thrown with
  | JS_OBJECT _ props =>
      match find_property (JS_ATOM_STRING (C.lit "stack")) props with
      | Some (_, JS_UNDEFINED) | Some (_, JS_NULL) | None => T_STRING []
      | Some (_, stack_val) =>
          match JS_ToCString stack_val with
          | Some stack => T_STRING (C.cstr stack)
          | None => T_STRING []
          end
      end
  | _ => T_STRING []
  end.

(* ================================================================== *)
(** * Facts about C strings                                            *)
(* ================================================================== *)

Lemma bytes_eqb_eq a b : C.bytes_eqb a b = true <-> a = b.
Proof.
revert b; induction a as [|x a IH]; intros [|y b]; simpl;
  try (split; [discriminate | discriminate]); try tauto.
rewrite andb_true_iff, Ascii.eqb_eq, IH.
split; [intros [-> ->]; reflexivity | intros H; inversion H; auto].
Qed.

Lemma bytes_eqb_refl a : C.bytes_eqb a a = true.
Proof. apply bytes_eqb_eq; reflexivity. Qed.

Lemma cstr_no_nul s : C.has_nul s = false -> C.cstr s = s.
Proof.
induction s as [|c r IH]; simpl; [reflexivity|].
destruct (Ascii.eqb c C.NUL); simpl; [discriminate|].
intros H; rewrite IH; auto.
Qed.

Lemma cstr_has_no_nul s : C.has_nul (C.cstr s) = false.
Proof.
induction s as [|c r IH]; simpl; [reflexivity|].
destruct (Ascii.eqb c C.NUL) eqn:E; simpl; [reflexivity|].
rewrite E; exact IH.
Qed.

Lemma cstr_idem s : C.cstr (C.cstr s) = C.cstr s.
Proof. apply cstr_no_nul, cstr_has_no_nul. Qed.


(* ================================================================== *)
(** * The console buffer                                               *)
(* ================================================================== *)

Ltac break_if :=
  match goal with
  | |- context [if ?c then _ else _] => destruct c eqn:?
  end.

Lemma realloc_self st : self (snd (realloc st)) = self st.
Proof. unfold realloc; destruct (realloc_results st); reflexivity. Qed.

Lemma realloc_succeeds st :
  reallocs_succeed st ->
  fst (realloc st) = true /\ reallocs_succeed (snd (realloc st)).
Proof.
  unfold reallocs_succeed, realloc; intros H.
  destruct (realloc_results st) as [|ok rest] eqn:E; simpl.
  - rewrite E; auto.
  - inversion H; subst; auto.
Qed.

(** Whatever the allocator does, an append keeps the buffer consistent and
    leaves the ceiling alone. *)
Lemma append_console_ok st str :
  console_ok (self st) ->
  console_ok (self (append_console_output st str))
  /\ console_max_size (self (append_console_output st str))
     = console_max_size (self st).
Proof.
  unfold console_ok, append_console_output; intros [[Hlo Hhi] Hlen].
  destruct (Z.eqb_spec (Z.of_nat (List.length str)) 0) as [E0|E0]; [auto|].
  destruct (Z.leb_spec (console_max_size (self st)) (console_output_len (self st)));
    [simpl; auto|].
  set (available := console_max_size (self st) - console_output_len (self st)).
  set (to_append := if Z.of_nat (List.length str) <? available
                    then Z.of_nat (List.length str) else available).
  assert (Hta : 0 <= to_append <= available /\ to_append <= Z.of_nat (List.length str)).
  { unfold to_append, available.
    destruct (Z.ltb_spec (Z.of_nat (List.length str))
                (console_max_size (self st) - console_output_len (self st))); lia. }
  assert (Hcopy : forall w : ContextWrapper,
             console_output_len w = console_output_len (self st) ->
             console_output w = console_output (self st) ->
             Z.of_nat (List.length
                         (firstn (Z.to_nat (console_output_len w)) (console_output w)
                          ++ firstn (Z.to_nat to_append) str))
             = console_output_len w + to_append).
  { intros w El Eo. rewrite El, Eo, length_app, !length_firstn. lia. }
  unfold realloc.
  destruct (to_append <? Z.of_nat (List.length str));
    destruct (console_output_capacity (self st) <? console_output_len (self st) + to_append);
    simpl; try (destruct (realloc_results st) as [|[|] rest]); simpl;
    try (rewrite Hcopy by reflexivity); unfold available in *; repeat split; try lia.
Qed.

Lemma same_but_console_refl st : same_but_console st st.
Proof. unfold same_but_console; repeat split. Qed.

Lemma same_but_console_trans a b c :
  same_but_console a b -> same_but_console b c -> same_but_console a c.
Proof.
  unfold same_but_console; intros H1 H2.
  repeat match goal with H : _ /\ _ |- _ => destruct H end.
  repeat split; congruence.
Qed.

Lemma append_same_but_console st str :
  same_but_console st (append_console_output st str).
Proof.
  unfold same_but_console, append_console_output, realloc.
  repeat break_if; simpl; repeat split;
    destruct (realloc_results st) as [|[|] rest]; try discriminate;
    repeat match goal with
           | H : (_, _) = (_, _) |- _ => inversion H; subst; clear H
           end; reflexivity.
Qed.

(** With an allocator that does not fail, an append stores the longest
    prefix that fits under the ceiling and raises the flag exactly when
    that is not the whole of it. *)
Lemma append_console_spec st str :
  console_ok (self st) ->
  reallocs_succeed st ->
  let st' := append_console_output st str in
  console_output (self st')
  = firstn (Z.to_nat (console_max_size (self st))) (console_output (self st) ++ str)
  /\ console_truncated (self st')
     = console_truncated (self st)
       || (console_max_size (self st)
           <? console_output_len (self st) + Z.of_nat (List.length str))
  /\ reallocs_succeed st'.
Proof.
  unfold console_ok, reallocs_succeed, append_console_output;
    intros [[Hlo Hhi] Hlen] Hre; cbv zeta.
  destruct (Z.eqb_spec (Z.of_nat (List.length str)) 0) as [E0|E0].
  { destruct str; [|discriminate]. rewrite app_nil_r, firstn_all2 by lia.
    replace (console_max_size (self st)
             <? console_output_len (self st) + Z.of_nat (List.length (@nil ascii)))
      with false by (symmetry; apply Z.ltb_ge; simpl; lia).
    rewrite orb_false_r; auto. }
  destruct (Z.leb_spec (console_max_size (self st)) (console_output_len (self st))).
  { simpl. rewrite firstn_app, firstn_all2 by lia.
    replace (Z.to_nat (console_max_size (self st))
             - List.length (console_output (self st)))%nat with 0%nat by lia.
    rewrite app_nil_r.
    destruct (Z.ltb_spec (console_max_size (self st))
                (console_output_len (self st) + Z.of_nat (List.length str))); [|lia].
    rewrite orb_true_r; auto. }
  set (available := console_max_size (self st) - console_output_len (self st)).
  set (to_append := if Z.of_nat (List.length str) <? available
                    then Z.of_nat (List.length str) else available).
  assert (Hstore :
            firstn (Z.to_nat (console_output_len (self st))) (console_output (self st))
            ++ firstn (Z.to_nat to_append) str
            = firstn (Z.to_nat (console_max_size (self st)))
                (console_output (self st) ++ str)).
  { rewrite firstn_all2 by lia. rewrite firstn_app.
    rewrite (firstn_all2 (console_output (self st))) by lia.
    f_equal. unfold to_append, available.
    destruct (Z.ltb_spec (Z.of_nat (List.length str))
                (console_max_size (self st) - console_output_len (self st))).
    - rewrite !firstn_all2 by lia; reflexivity.
    - f_equal; lia. }
  assert (Hflag : (to_append <? Z.of_nat (List.length str))
                  = (console_max_size (self st)
                     <? console_output_len (self st) + Z.of_nat (List.length str))).
  { unfold to_append, available.
    destruct (Z.ltb_spec (Z.of_nat (List.length str))
                (console_max_size (self st) - console_output_len (self st)));
      destruct (Z.ltb_spec (console_max_size (self st))
                  (console_output_len (self st) + Z.of_nat (List.length str)));
      try lia; try apply Z.ltb_irrefl; try (apply Z.ltb_lt; lia). }
  unfold realloc. rewrite <- Hflag.
  destruct (to_append <? Z.of_nat (List.length str));
    destruct (console_output_capacity (self st) <? console_output_len (self st) + to_append);
    simpl; rewrite ?orb_true_r, ?orb_false_r;
    first [ solve [rewrite ?Hstore; repeat split; auto]
          | destruct (realloc_results st) as [|ok rest] eqn:Eres; simpl;
            [| inversion Hre; subst; simpl];
            rewrite ?Eres, ?Hstore; repeat split; auto ].
Qed.

Lemma firstn_firstn_app {A} (n : nat) (a b : list A) :
  firstn n (firstn n a ++ b) = firstn n (a ++ b).
Proof.
  destruct (Nat.le_gt_cases n (List.length a)) as [H|H].
  - rewrite !firstn_app, length_firstn.
    replace (n - Nat.min n (List.length a))%nat with 0%nat by lia.
    replace (n - List.length a)%nat with 0%nat by lia.
    simpl. rewrite !app_nil_r, firstn_firstn, Nat.min_id; reflexivity.
  - rewrite (firstn_all2 a) by lia; reflexivity.
Qed.

Lemma append_all_ok st strs :
  console_ok (self st) ->
  console_ok (self (append_all st strs))
  /\ same_but_console st (append_all st strs).
Proof.
  unfold append_all; revert st; induction strs as [|s rest IH]; intros st H; simpl.
  - split; [assumption | apply same_but_console_refl].
  - destruct (append_console_ok st s H) as [H1 _].
    destruct (IH _ H1) as [H2 H3]. split; [assumption|].
    eapply same_but_console_trans; [apply append_same_but_console | exact H3].
Qed.

Lemma append_all_spec st strs :
  console_ok (self st) ->
  reallocs_succeed st ->
  let st' := append_all st strs in
  console_output (self st')
  = firstn (Z.to_nat (console_max_size (self st)))
      (console_output (self st) ++ concat strs)
  /\ console_truncated (self st')
     = console_truncated (self st)
       || (console_max_size (self st)
           <? console_output_len (self st) + bytes_offered strs)
  /\ reallocs_succeed st'.
Proof.
  unfold append_all, bytes_offered; revert st;
    induction strs as [|s rest IH]; intros st Hok Hre; simpl.
  - destruct Hok as [[Hlo Hhi] Hlen].
    rewrite app_nil_r, firstn_all2 by lia.
    replace (console_max_size (self st) <? console_output_len (self st) + 0)
      with false by (symmetry; apply Z.ltb_ge; lia).
    rewrite orb_false_r; auto.
  - destruct (append_console_spec st s Hok Hre) as (Ho & Ht & Hr).
    destruct (append_console_ok st s Hok) as [Hok1 Hmax].
    destruct (IH _ Hok1 Hr) as (Ho' & Ht' & Hr').
    rewrite Hmax in Ho', Ht'. split; [|split; [|exact Hr']].
    + rewrite Ho', Ho, firstn_firstn_app, app_assoc; reflexivity.
    + rewrite Ht', Ht, <- orb_assoc. f_equal.
      destruct Hok as [[Hlo Hhi] Hlen]. destruct Hok1 as [_ Hlen1].
      rewrite <- Hlen1, Ho, length_firstn, !length_app.
      repeat match goal with
             | |- context [?a <? ?b] => destruct (Z.ltb_spec a b)
             end; simpl; try reflexivity; lia.
Qed.

(** ** [js_console_log] as a run of appends *)

Lemma console_log_args_pieces st i argv :
  console_log_args st i argv = append_all st (log_pieces i argv).
Proof.
  unfold append_all; revert st i; induction argv as [|arg rest IH];
    intros st i; simpl; [reflexivity|].
  rewrite IH, !fold_left_app.
  destruct (0 <? i); destruct (JS_ToCString arg); reflexivity.
Qed.

Lemma js_console_log_pieces st argv :
  current_wrapper st = true ->
  snd (js_console_log st argv)
  = append_all st (log_pieces 0 argv ++ [[C.newline]]).
Proof.
  unfold js_console_log; intros ->; simpl.
  rewrite console_log_args_pieces. unfold append_all.
  rewrite fold_left_app; reflexivity.
Qed.

Lemma join_spaces_cons t rest :
  join_spaces (t :: rest) = t ++ concat (map (fun x => C.lit " " ++ x) rest).
Proof.
  revert t; induction rest as [|u rest IH]; intros t.
  - simpl; rewrite app_nil_r; reflexivity.
  - change (join_spaces (t :: u :: rest)) with (t ++ C.lit " " ++ join_spaces (u :: rest)).
    rewrite IH; reflexivity.
Qed.

Lemma log_pieces_later i argv :
  0 < i ->
  concat (log_pieces i argv)
  = concat (map (fun x => C.lit " " ++ x) (map arg_text argv)).
Proof.
  revert i; induction argv as [|arg rest IH]; intros i Hi; simpl; [reflexivity|].
  destruct (Z.ltb_spec 0 i); [|lia].
  rewrite !concat_app, IH by lia. unfold arg_text.
  destruct (JS_ToCString arg); simpl; rewrite ?app_nil_r; reflexivity.
Qed.

Lemma log_pieces_line argv :
  concat (log_pieces 0 argv ++ [[C.newline]]) = console_line argv.
Proof.
  unfold console_line. rewrite concat_app; simpl (concat [[C.newline]]).
  f_equal. destruct argv as [|arg rest]; [reflexivity|].
  rewrite map_cons, join_spaces_cons. simpl log_pieces.
  rewrite !concat_app, log_pieces_later by lia. unfold arg_text.
  destruct (JS_ToCString arg); simpl; rewrite ?app_nil_r; reflexivity.
Qed.

Lemma append_all_same_but_console st strs :
  same_but_console st (append_all st strs).
Proof.
  unfold append_all; revert st; induction strs as [|s rest IH]; intros st; simpl.
  - apply same_but_console_refl.
  - eapply same_but_console_trans; [apply append_same_but_console | apply IH].
Qed.

Lemma js_console_log_same_but_console st argv :
  same_but_console st (snd (js_console_log st argv)).
Proof.
  destruct (current_wrapper st) eqn:E.
  - rewrite js_console_log_pieces by assumption.
    apply append_all_same_but_console.
  - unfold js_console_log; rewrite E; simpl. apply same_but_console_refl.
Qed.

Lemma js_console_log_ok st argv :
  console_ok (self st) ->
  console_ok (self (snd (js_console_log st argv)))
  /\ same_but_console st (snd (js_console_log st argv)).
Proof.
  intros H. destruct (current_wrapper st) eqn:E.
  - rewrite js_console_log_pieces by assumption. apply append_all_ok; assumption.
  - unfold js_console_log; rewrite E; simpl.
    split; [assumption | apply same_but_console_refl].
Qed.

(** ** The console buffer during an evaluation *)

Ltac break_match :=
  match goal with
  | |- context [match ?x with _ => _ end] => destruct x eqn:?
  end.

Lemma same_console_ok st st' :
  same_console st st' -> console_ok (self st) -> console_ok (self st').
Proof.
  unfold same_console, console_ok; intros (Ho & Hl & Hm & _) H.
  rewrite Ho, Hl, Hm; exact H.
Qed.

Lemma js_fetch_same_console st argv :
  same_console st (snd (js_fetch st argv)).
Proof.
  unfold js_fetch, same_console.
  repeat (break_match; simpl; try (repeat split; reflexivity)).
Qed.

Lemma interrupt_handler_same_console st now :
  same_console st (snd (interrupt_handler st now)).
Proof.
  unfold interrupt_handler, same_console.
  repeat (break_match; simpl; try (repeat split; reflexivity)).
Qed.

Lemma JS_Eval_console_ok program :
  forall st,
    console_ok (self st) ->
    console_ok (self (snd (JS_Eval st program)))
    /\ console_max_size (self (snd (JS_Eval st program)))
       = console_max_size (self st).
Proof.
  induction program as [r | e | | argv next IH | argv next IH | now next IH];
    intros st Hok; simpl; try (split; [assumption | reflexivity]).
  - destruct (js_console_log_ok st argv Hok) as [H1 H2].
    destruct (IH _ H1) as [H3 H4]. split; [assumption|].
    rewrite H4. apply H2.
  - pose proof (js_fetch_same_console st argv) as Hs.
    destruct (js_fetch st argv) as [[r | e |] st1]; simpl in *.
    + destruct (IH r st1 (same_console_ok _ _ Hs Hok)) as [H3 H4].
      split; [assumption|]. rewrite H4. apply Hs.
    + split; [eapply same_console_ok; eassumption | apply Hs].
    + split; [eapply same_console_ok; eassumption | apply Hs].
  - pose proof (interrupt_handler_same_console st now) as Hs.
    destruct (interrupt_handler st now) as [[|] st1]; simpl in *.
    + split; [eapply same_console_ok; eassumption | apply Hs].
    + destruct (IH st1 (same_console_ok _ _ Hs Hok)) as [H3 H4].
      split; [assumption|]. rewrite H4. apply Hs.
Qed.

Lemma sandbox_eval_reset_console st now :
  0 <= console_max_size (self st) ->
  console_ok (self (sandbox_eval_reset st now))
  /\ console_output (self (sandbox_eval_reset st now)) = []
  /\ console_output_len (self (sandbox_eval_reset st now)) = 0
  /\ console_truncated (self (sandbox_eval_reset st now)) = false
  /\ console_max_size (self (sandbox_eval_reset st now)) = console_max_size (self st)
  /\ realloc_results (sandbox_eval_reset st now) = realloc_results st.
Proof.
  intros H; unfold console_ok, sandbox_eval_reset; simpl.
  repeat split; try reflexivity; lia.
Qed.

(** C1 (amended).  From the reset at the start of an evaluation on, for
    every sequence of appends and for every program the engine runs, the
    buffer never holds more than [console_max_size] bytes and its recorded
    length is the number of bytes it holds, whatever the allocator does.
    When no [realloc] fails, the buffer holds the longest prefix of the
    bytes produced that fits under the ceiling, and the truncated flag is
    set if and only if the bytes produced exceed the ceiling.  A non-empty
    append that would start at or past the ceiling adds nothing and sets
    the flag; an empty append changes nothing at all. *)
Theorem console_capture_bounded :
  forall (st : World) (now : Z),
    0 <= console_max_size (self st) ->
    let st0 := sandbox_eval_reset st now in
    (forall strs : list (list ascii),
        let st' := append_all st0 strs in
        Z.of_nat (List.length (console_output (self st')))
        <= console_max_size (self st)
        /\ console_output_len (self st')
           = Z.of_nat (List.length (console_output (self st')))
        /\ (reallocs_succeed st ->
            console_output (self st')
            = firstn (Z.to_nat (console_max_size (self st))) (concat strs)
            /\ (console_truncated (self st') = true
                <-> console_max_size (self st) < bytes_offered strs)))
    /\ (forall program : Script,
          let st' := snd (JS_Eval st0 program) in
          Z.of_nat (List.length (console_output (self st')))
          <= console_max_size (self st)
          /\ console_output_len (self st')
             = Z.of_nat (List.length (console_output (self st'))))
    /\ (forall (st1 : World) (str : list ascii),
          str <> [] ->
          console_max_size (self st1) <= console_output_len (self st1) ->
          append_console_output st1 str
          = update_self (set_console_truncated true) st1)
    /\ (forall st1 : World, append_console_output st1 [] = st1).
Proof.
  intros st now Hmax st0.
  destruct (sandbox_eval_reset_console st now Hmax)
    as (Hok & Hout & Hlen & Htr & Hm & Hre).
  fold st0 in Hok, Hout, Hlen, Htr, Hm, Hre.
  split; [|split; [|split]].
  - intros strs st'.
    destruct (append_all_ok st0 strs Hok) as [[[_ Hhi] Hl] Hsame].
    fold st' in Hhi, Hl, Hsame.
    assert (Hm' : console_max_size (self st') = console_max_size (self st)).
    { destruct Hsame as (_ & _ & _ & _ & _ & _ & _ & _ & E & _).
      rewrite E; exact Hm. }
    rewrite Hm' in Hhi. split; [lia|]. split; [lia|].
    intros Hsucc.
    assert (Hsucc0 : reallocs_succeed st0)
      by (unfold reallocs_succeed; rewrite Hre; exact Hsucc).
    destruct (append_all_spec st0 strs Hok Hsucc0) as (Ho & Ht & _).
    fold st' in Ho, Ht. rewrite Hout, Hm in Ho. rewrite Htr, Hlen, Hm in Ht.
    split; [exact Ho|]. rewrite Ht; simpl. apply Z.ltb_lt.
  - intros program st'.
    destruct (JS_Eval_console_ok program st0 Hok) as [[[_ Hhi] Hl] Hm'].
    fold st' in Hhi, Hl, Hm'. rewrite Hm', Hm in Hhi. lia.
  - intros st1 str Hne Hfull. unfold append_console_output.
    destruct (Z.eqb_spec (Z.of_nat (List.length str)) 0) as [E|_].
    + destruct str; [contradiction | discriminate].
    + destruct (Z.leb_spec (console_max_size (self st1))
                  (console_output_len (self st1))); [reflexivity | lia].
  - reflexivity.
Qed.

Lemma console_line_skips before bad after :
  before <> [] ->
  JS_ToCString bad = None ->
  console_line (before ++ bad :: after)
  = join_spaces (map arg_text before) ++ C.lit " "
    ++ concat (map (fun x => C.lit " " ++ x) (map arg_text after))
    ++ [C.newline].
Proof.
  intros Hne Hbad. destruct before as [|b bs]; [contradiction|].
  unfold console_line.
  change ((b :: bs) ++ bad :: after) with (b :: (bs ++ bad :: after)).
  change (map arg_text (b :: bs ++ bad :: after))
    with (arg_text b :: map arg_text (bs ++ bad :: after)).
  change (map arg_text (b :: bs)) with (arg_text b :: map arg_text bs).
  rewrite !join_spaces_cons, !map_app, concat_app.
  change (map arg_text (bad :: after)) with (arg_text bad :: map arg_text after).
  unfold arg_text at 3. rewrite Hbad.
  simpl. rewrite <- !app_assoc. reflexivity.
Qed.

(** C9 (amended).  A call of [console.log] (or [.warn] / [.error]) made
    during an evaluation returns [undefined] and offers to the capture
    buffer the pieces of the line [console_line argv], in order: the
    texts of the arguments, a single space before each argument but the
    first, and a final newline.  With zero arguments the line is the
    single newline byte, and the call is one append of that byte.  An
    argument that cannot be turned into a string contributes no text
    while the single space before it is still part of the line.  What
    of the line reaches the buffer is decided by the buffer: in a
    consistent buffer and with no reallocation failing, the buffer then
    holds what it held followed by the line, cut at the ceiling, and the
    truncation flag is raised exactly when the line does not fit; when
    the line fits, the buffer is extended by exactly the line and the
    flag stays as it was. *)
Theorem console_log_line :
  forall (st : World) (argv : list JSValue),
    current_wrapper st = true ->
    let st' := snd (js_console_log st argv) in
    fst (js_console_log st argv) = JS_UNDEFINED
    /\ st' = append_all st (log_pieces 0 argv ++ [[C.newline]])
    /\ concat (log_pieces 0 argv ++ [[C.newline]]) = console_line argv
    /\ console_line [] = [C.newline]
    /\ js_console_log st [] = (JS_UNDEFINED, append_console_output st [C.newline])
    /\ (forall (before after : list JSValue) (bad : JSValue),
          before <> [] ->
          JS_ToCString bad = None ->
          console_line (before ++ bad :: after)
          = join_spaces (map arg_text before) ++ C.lit " "
            ++ concat (map (fun x => C.lit " " ++ x) (map arg_text after))
            ++ [C.newline])
    /\ (console_ok (self st) ->
        reallocs_succeed st ->
        console_output (self st')
        = firstn (Z.to_nat (console_max_size (self st)))
            (console_output (self st) ++ console_line argv)
        /\ console_truncated (self st')
           = console_truncated (self st)
             || (console_max_size (self st)
                 <? console_output_len (self st)
                    + Z.of_nat (List.length (console_line argv)))
        /\ (console_output_len (self st)
            + Z.of_nat (List.length (console_line argv))
            <= console_max_size (self st) ->
            console_output (self st')
            = console_output (self st) ++ console_line argv
            /\ console_truncated (self st') = console_truncated (self st))).
Proof.
  intros st argv Hcw st'.
  assert (E : st' = append_all st (log_pieces 0 argv ++ [[C.newline]]))
    by (apply js_console_log_pieces; exact Hcw).
  split; [unfold js_console_log; rewrite Hcw; reflexivity|].
  split; [exact E|].
  split; [apply log_pieces_line|].
  split; [reflexivity|].
  split; [unfold js_console_log; rewrite Hcw; reflexivity|].
  split; [intros before after bad; apply console_line_skips|].
  intros Hok Hre.
  destruct (append_all_spec st (log_pieces 0 argv ++ [[C.newline]]) Hok Hre)
    as (Ho & Ht & _).
  rewrite <- E in Ho, Ht. unfold bytes_offered in Ht.
  rewrite log_pieces_line in Ho, Ht.
  split; [exact Ho|].
  split; [exact Ht|].
  intros Hfit. destruct Hok as [[Hlo Hhi] Hlen]. split.
  - rewrite Ho. apply firstn_all2. rewrite length_app. lia.
  - rewrite Ht.
    replace (console_max_size (self st)
             <? console_output_len (self st)
                + Z.of_nat (List.length (console_line argv)))
      with false by (symmetry; apply Z.ltb_ge; lia).
    apply orb_false_r.
Qed.

(* ================================================================== *)
(** * The fetch bridge                                                 *)
(* ================================================================== *)

(** C7.  Without a registered handler, without a target argument, or with
    a target that cannot be read as a string, [fetch] throws a TypeError
    into the script at once: the state changes in nothing but the
    context's pending exception, so no handler has been called and the
    deferred-exception slot is as it was. *)
Theorem fetch_fails_immediately :
  forall (st : World) (argv : list JSValue),
    rb_http_callback (self st) = None
    \/ argv = []
    \/ (exists target rest, argv = target :: rest /\ JS_ToCString target = None) ->
    exists msg : string,
      js_fetch st argv
      = (Return JS_EXCEPTION,
         set_exception (Some (js_error JS_TYPE_ERROR msg)) st)
      /\ http_calls (snd (js_fetch st argv)) = http_calls st
      /\ pending_ruby_exception (self (snd (js_fetch st argv)))
         = pending_ruby_exception (self st)
      /\ rb_http_callback (self (snd (js_fetch st argv)))
         = rb_http_callback (self st).
Proof.
  intros st argv H. unfold js_fetch.
  destruct (current_wrapper st); simpl;
    [| eexists; repeat split; reflexivity].
  destruct (rb_http_callback (self st)) as [callback|] eqn:Ecb;
    [| eexists; simpl; rewrite ?Ecb; repeat split; reflexivity].
  destruct H as [H | [H | (target & rest & -> & H)]]; [discriminate | |].
  - subst argv. eexists; simpl; rewrite ?Ecb; repeat split; reflexivity.
  - rewrite H. eexists; simpl; rewrite ?Ecb; repeat split; reflexivity.
Qed.

(** The request the options block stands for. *)
Lemma fetch_options_request url more :
  (match fst (fetch_options more) with
   | Some m => rb_str_new2 m
   | None => rb_str_new2 (C.lit "GET")
   end,
   rb_str_new2 url,
   match snd (fetch_options more) with
   | Some b => rb_str_new2 b
   | None => Qnil
   end,
   T_HASH []) = request_of url more.
Proof.
  unfold request_of, fetch_options, rb_str_new2.
  destruct more as [|options rest]; [reflexivity|].
  destruct options; try reflexivity;
    cbn [JS_IsUndefined JS_IsNull negb andb fst snd];
    repeat match goal with
           | |- context [JS_GetPropertyStr ?o ?n] =>
               destruct (JS_GetPropertyStr o n);
               cbn [JS_IsUndefined JS_IsNull negb andb fst snd]
           end; reflexivity.
Qed.

(** What [js_fetch] does once its arguments are read: the handler is
    called with the request, and the call is on record. *)
Lemma js_fetch_calls_handler st callback target more url :
  current_wrapper st = true ->
  rb_http_callback (self st) = Some callback ->
  JS_ToCString target = Some url ->
  forall m u b h, request_of url more = (m, u, b, h) ->
  let st1 := set_http_calls (http_calls st ++ [(m, u, b, h)]) st in
  js_fetch st (target :: more)
  = match callback m u b h with
    | Raise exc =>
        (Return JS_EXCEPTION,
         set_exception (Some (js_error JS_INTERNAL_ERROR "HTTP request failed"))
           (update_self (set_pending_ruby_exception exc) st1))
    | Undefined => (Undefined, st1)
    | Return rb_response => (fetch_response rb_response, st1)
    end.
Proof.
  intros Hcw Hcb Hurl m u b h Hreq.
  rewrite <- fetch_options_request in Hreq.
  unfold js_fetch. rewrite Hcw, Hcb, Hurl. simpl negb. cbv iota.
  destruct (fetch_options more) as [method_str body_str]; simpl in Hreq.
  inversion Hreq; subst; clear Hreq.
  destruct (callback _ _ _ _); reflexivity.
Qed.

Lemma fetch_response_structured entries status status_text body :
  response_status entries = Some status ->
  response_text "statusText" "OK" entries = Some status_text ->
  response_text "body" "" entries = Some body ->
  fetch_response (T_HASH entries)
  = Return (response_object status status_text body).
Proof.
  unfold response_status, response_text, fetch_response.
  cbn [rb_hash_aref_sym rb_bind].
  generalize (hash_lookup_sym (C.lit "status") entries)
    (hash_lookup_sym (C.lit "statusText") entries)
    (hash_lookup_sym (C.lit "body") entries).
  intros s1 s2 s3 H1 H2 H3.
  assert (E1 : (if NIL_P s1 then Return 200 else NUM2INT s1) = Return status).
  { destruct s1; try discriminate; simpl in *.
    - inversion H1; reflexivity.
    - destruct ((C.INT_MIN <=? n) && (n <=? C.INT_MAX)); inversion H1; reflexivity. }
  assert (E2 : (if NIL_P s2 then Return (C.lit "OK") else StringValueCStr s2)
               = Return status_text).
  { destruct s2; try discriminate; simpl in *.
    - inversion H2; reflexivity.
    - destruct (C.has_nul s); inversion H2; reflexivity. }
  assert (E3 : (if NIL_P s3 then Return [] else StringValueCStr s3) = Return body).
  { destruct s3; try discriminate; simpl in *.
    - inversion H3; reflexivity.
    - destruct (C.has_nul s); inversion H3; reflexivity. }
  assert (N2 : C.cstr status_text = status_text).
  { destruct s2; try discriminate; simpl in H2.
    - inversion H2; reflexivity.
    - destruct (C.has_nul s) eqn:E; inversion H2; subst.
      apply cstr_no_nul; exact E. }
  assert (N3 : C.cstr body = body).
  { destruct s3; try discriminate; simpl in H3.
    - inversion H3; reflexivity.
    - destruct (C.has_nul s) eqn:E; inversion H3; subst.
      apply cstr_no_nul; exact E. }
  rewrite E1, E2, E3. cbn [rb_bind].
  unfold response_object, JS_NewString, JS_NewInt32, JS_NewBool.
  rewrite N2, N3. reflexivity.
Qed.

(** C6 (amended).  When the registered handler returns a mapping whose
    [status] is absent or an Integer a C [int] holds, and whose
    [statusText] and [body] are absent or Strings without a NUL byte, the
    [fetch] call returns to the script the object
    [{status, statusText, ok, body, headers}]: [status] is the field or 200,
    [statusText] the field or "OK", [body] the field or the empty string,
    [ok] is true exactly when [200 <= status < 300], [headers] is an empty
    object; the handler has been called once, with the request. *)
Theorem fetch_builds_response :
  forall (st : World) (callback : Callback) (target : JSValue)
         (more : list JSValue) (url : list ascii) (m u b h : VALUE)
         (entries : list (VALUE * VALUE)) (status : Z)
         (status_text body : list ascii),
    current_wrapper st = true ->
    rb_http_callback (self st) = Some callback ->
    JS_ToCString target = Some url ->
    request_of url more = (m, u, b, h) ->
    callback m u b h = Return (T_HASH entries) ->
    response_status entries = Some status ->
    response_text "statusText" "OK" entries = Some status_text ->
    response_text "body" "" entries = Some body ->
    let response := response_object status status_text body in
    js_fetch st (target :: more)
    = (Return response, set_http_calls (http_calls st ++ [(m, u, b, h)]) st)
    /\ JS_GetPropertyStr response "status" = JS_INT status
    /\ JS_GetPropertyStr response "statusText" = JS_STRING status_text
    /\ JS_GetPropertyStr response "body" = JS_STRING body
    /\ JS_GetPropertyStr response "headers" = JS_OBJECT JS_CLASS_OBJECT []
    /\ (JS_GetPropertyStr response "ok" = JS_TRUE <-> 200 <= status < 300)
    /\ (JS_GetPropertyStr response "ok" = JS_FALSE <-> ~ 200 <= status < 300)
    /\ (hash_lookup_sym (C.lit "status") entries = Qnil -> status = 200)
    /\ (hash_lookup_sym (C.lit "statusText") entries = Qnil ->
        status_text = C.lit "OK")
    /\ (hash_lookup_sym (C.lit "body") entries = Qnil -> body = [])
    /\ (forall n, hash_lookup_sym (C.lit "status") entries = T_FIXNUM n ->
        status = n)
    /\ (forall s, hash_lookup_sym (C.lit "statusText") entries = T_STRING s ->
        status_text = s)
    /\ (forall s, hash_lookup_sym (C.lit "body") entries = T_STRING s ->
        body = s).
Proof.
  intros st callback target more url m u b h entries status status_text body
    Hcw Hcb Hurl Hreq Hcall Hs Ht Hb response.
  split.
  { rewrite (js_fetch_calls_handler st callback target more url Hcw Hcb Hurl
               m u b h Hreq), Hcall.
    rewrite (fetch_response_structured _ _ _ _ Hs Ht Hb). reflexivity. }
  repeat (split; [reflexivity|]).
  assert (Hok : JS_GetPropertyStr response "ok"
                = JS_BOOL ((200 <=? status) && (status <? 300))) by reflexivity.
  rewrite Hok. unfold JS_TRUE, JS_FALSE.
  unfold response_status, response_text in Hs, Ht, Hb.
  assert (Hiff : (200 <=? status) && (status <? 300) = true <-> 200 <= status < 300)
    by (rewrite andb_true_iff; lia).
  split; [|split; [|split; [|split; [|split; [|split; [|split]]]]]].
  - rewrite <- Hiff. split; [congruence | intros ->; reflexivity].
  - rewrite <- Hiff. destruct ((200 <=? status) && (status <? 300));
      split; congruence.
  - intros E; rewrite E in Hs; inversion Hs; reflexivity.
  - intros E; rewrite E in Ht; inversion Ht; reflexivity.
  - intros E; rewrite E in Hb; inversion Hb; reflexivity.
  - intros n E; rewrite E in Hs.
    destruct ((C.INT_MIN <=? n) && (n <=? C.INT_MAX)); inversion Hs; reflexivity.
  - intros s E; rewrite E in Ht.
    destruct (C.has_nul s); inversion Ht; reflexivity.
  - intros s E; rewrite E in Hb.
    destruct (C.has_nul s); inversion Hb; reflexivity.
Qed.

(* ================================================================== *)
(** * The outcome of an evaluation                                     *)
(* ================================================================== *)

(** C2.  When the run ends with the [timed_out] flag set, [sandbox_eval]
    raises the TimeoutError built from the console output captured so far
    and the truncation flag, whatever the engine returned and whatever
    the deferred-exception slot holds: neither is looked at, and the slot
    is left as it is. *)
Theorem timeout_preempts :
  forall (st : World) (now : Z) (code : VALUE) (code_str : list ascii)
         (result : JSValue) (st' : World),
    StringValueCStr code = Return code_str ->
    JS_Eval (sandbox_eval_reset st now) (js_program code_str) = (Return result, st') ->
    timed_out (self st') = true ->
    sandbox_eval st now code
    = (Raise (rb_class_new_instance
                [T_STRING (C.lit "JavaScript execution timeout exceeded");
                 captured_output (self st'); captured_truncated (self st')]
                rb_eQuickJSTimeoutError),
       set_current_wrapper false st').
Proof.
  intros st now code code_str result st' Hcode Hrun Hto.
  unfold sandbox_eval. rewrite Hcode, Hrun. simpl self. rewrite Hto.
  reflexivity.
Qed.

Lemma defers_refl st : defers st st.
Proof.
  split; [reflexivity|]. exists []. rewrite app_nil_r. auto.
Qed.

Lemma defers_trans a b c : defers a b -> defers b c -> defers a c.
Proof.
  intros (Hcb1 & l1 & Hl1 & Hp1) (Hcb2 & l2 & Hl2 & Hp2).
  split; [congruence|]. exists (l1 ++ l2).
  split; [rewrite Hl2, Hl1, app_assoc; reflexivity|].
  destruct Hp2 as [Hp2 | (cb & m & u & b0 & h & Hc & Hin & Hr)].
  - rewrite Hp2. destruct Hp1 as [Hp1 | (cb & m & u & b0 & h & Hc & Hin & Hr)];
      [left; exact Hp1 | right].
    exists cb, m, u, b0, h. split; [exact Hc|].
    split; [apply in_or_app; left; exact Hin | exact Hr].
  - right. exists cb, m, u, b0, h. split; [congruence|].
    split; [apply in_or_app; right; exact Hin | exact Hr].
Qed.

Lemma defers_same a b :
  rb_http_callback (self b) = rb_http_callback (self a) ->
  http_calls b = http_calls a ->
  pending_ruby_exception (self b) = pending_ruby_exception (self a) ->
  defers a b.
Proof.
  intros H1 H2 H3. split; [exact H1|]. exists [].
  rewrite app_nil_r. auto.
Qed.

Lemma js_fetch_defers st argv : defers st (snd (js_fetch st argv)).
Proof.
  unfold js_fetch.
  destruct (current_wrapper st); simpl negb; cbv iota;
    [|apply defers_same; reflexivity].
  destruct (rb_http_callback (self st)) as [callback|] eqn:Ecb;
    [|apply defers_same; reflexivity].
  destruct argv as [|arg0 more]; [apply defers_same; reflexivity|].
  destruct (JS_ToCString arg0) as [url|]; [|apply defers_same; reflexivity].
  destruct (fetch_options more) as [method_str body_str].
  match goal with
  | |- context [callback ?m ?u ?b ?h] =>
      destruct (callback m u b h) as [resp | exc |] eqn:Ecall
  end; simpl snd.
  - split; [reflexivity|]. eexists. split; [reflexivity|]. left; reflexivity.
  - split; [reflexivity|]. eexists. split; [reflexivity|]. right.
    rewrite Ecb. do 5 eexists. split; [reflexivity|].
    split; [left; reflexivity | exact Ecall].
  - split; [reflexivity|]. eexists. split; [reflexivity|]. left; reflexivity.
Qed.

Lemma JS_Eval_defers program :
  forall st, defers st (snd (JS_Eval st program)).
Proof.
  induction program as [r | e | | argv next IH | argv next IH | now next IH];
    intros st; simpl.
  - apply defers_refl.
  - apply defers_same; reflexivity.
  - apply defers_refl.
  - eapply defers_trans; [|apply IH].
    pose proof (js_console_log_same_but_console st argv)
      as (_ & Hc & _ & _ & _ & _ & _ & _ & _ & Hcb & Hp).
    apply defers_same; assumption.
  - pose proof (js_fetch_defers st argv) as Hf.
    destruct (js_fetch st argv) as [[r | e |] st1]; simpl in *; try exact Hf.
    eapply defers_trans; [exact Hf | apply IH].
  - unfold interrupt_handler.
    destruct (0 <? timeout_ms (self st));
      [destruct (timeout_ms (self st) <? now - start_time_ms (self st))|];
      simpl; try apply IH.
    apply defers_same; reflexivity.
Qed.

Lemma rclass_eqb_reserved klass :
  rclass_eqb klass rb_eQuickJSHTTPBlockedError
  || rclass_eqb klass rb_eQuickJSHTTPLimitError
  || rclass_eqb klass rb_eQuickJSHTTPError
  = reserved_effect_error klass.
Proof. destruct klass; reflexivity. Qed.

(** C3 (amended).  When the registered handler raises during a [fetch]
    call, the bridge writes the raised exception into the deferred slot,
    over whatever was there, and throws a generic InternalError into the
    script.  If the run then ends in an uncaught engine exception and
    without a timeout, [sandbox_eval] takes the engine exception out of
    the context, clears the slot, forces a garbage collection and raises
    the exception found in the slot: rebuilt from its message, the
    captured console output and the truncation flag when its class is one
    of the three reserved HTTP error classes, as it is otherwise.  What
    the slot holds at the end of a run is an exception the handler raised
    on one of the calls of that run. *)
Theorem deferred_exception_handoff :
  (forall (st : World) (callback : Callback) (target : JSValue)
          (more : list JSValue) (url : list ascii) (m u b h exc : VALUE),
      current_wrapper st = true ->
      rb_http_callback (self st) = Some callback ->
      JS_ToCString target = Some url ->
      request_of url more = (m, u, b, h) ->
      callback m u b h = Raise exc ->
      exists st1,
        js_fetch st (target :: more) = (Return JS_EXCEPTION, st1)
        /\ pending_ruby_exception (self st1) = exc
        /\ exception (ctx (self st1))
           = Some (js_error JS_INTERNAL_ERROR "HTTP request failed")
        /\ http_calls st1 = http_calls st ++ [(m, u, b, h)])
  /\ (forall (st : World) (now : Z) (code : VALUE) (code_str : list ascii)
             (result : JSValue) (st' : World) (pending : VALUE),
         StringValueCStr code = Return code_str ->
         JS_Eval (sandbox_eval_reset st now) (js_program code_str)
         = (Return result, st') ->
         timed_out (self st') = false ->
         JS_IsException result = true ->
         pending_ruby_exception (self st') = pending ->
         pending <> Qnil ->
         exists st'',
           sandbox_eval st now code
           = (Raise (if reserved_effect_error (rb_obj_class pending)
                     then rb_class_new_instance
                            [rb_exc_message pending;
                             captured_output (self st');
                             captured_truncated (self st')]
                            (rb_obj_class pending)
                     else pending), st'')
           /\ pending_ruby_exception (self st'') = Qnil
           /\ exception (ctx (self st'')) = None
           /\ gc_runs (rt (self st'')) = S (gc_runs (rt (self st')))
           /\ current_wrapper st'' = false)
  /\ (forall (st : World) (now : Z) (program : Script),
         let st' := snd (JS_Eval (sandbox_eval_reset st now) program) in
         pending_ruby_exception (self st') <> Qnil ->
         exists calls,
           http_calls st' = http_calls st ++ calls
           /\ raised_during (rb_http_callback (self st)) calls
                (pending_ruby_exception (self st'))).
Proof.
  split; [|split].
  - intros st callback target more url m u b h exc Hcw Hcb Hurl Hreq Hcall.
    rewrite (js_fetch_calls_handler st callback target more url Hcw Hcb Hurl
               m u b h Hreq), Hcall.
    eexists; split; [reflexivity|]. repeat split.
  - intros st now code code_str result st' pending Hcode Hrun Hto Hexc Hp Hne.
    unfold sandbox_eval. rewrite Hcode, Hrun. simpl self. rewrite Hto, Hexc.
    unfold JS_GetException. rewrite Hp.
    destruct (NIL_P pending) eqn:En; [destruct pending; try discriminate; contradiction|].
    simpl negb. cbv iota. rewrite rclass_eqb_reserved.
    destruct (reserved_effect_error (rb_obj_class pending));
      eexists; (split; [reflexivity|]); repeat split.
  - intros st now program st' Hne.
    destruct (JS_Eval_defers program (sandbox_eval_reset st now))
      as (_ & calls & Hcalls & Hp).
    fold st' in Hcalls, Hp. exists calls. split; [exact Hcalls|].
    destruct Hp as [Hp | Hp]; [|exact Hp].
    exfalso. apply Hne. rewrite Hp. reflexivity.
Qed.

(* ================================================================== *)
(** * Globals                                                          *)
(* ================================================================== *)

(** C8.  For every host value, [set_variable] with the empty name raises
    ArgumentError and leaves the whole state, the global object included,
    as it was; the value has not been converted. *)
Theorem set_variable_empty_name :
  forall (st : World) (value : VALUE),
    sandbox_set_variable st (T_STRING []) value
    = (Raise (T_OBJECT rb_eArgError
                [T_STRING (C.lit "Variable name cannot be empty")]), st).
Proof. intros st value; reflexivity. Qed.

(* ================================================================== *)
(** * Facts about doubles                                              *)
(* ================================================================== *)

Lemma digits2_pos_size p : digits2_pos p = Pos.size p.
Proof. induction p; simpl; congruence. Qed.

Lemma digits2_pos_bounds p :
  2 ^ (Z.pos (digits2_pos p) - 1) <= Z.pos p < 2 ^ Z.pos (digits2_pos p).
Proof.
  rewrite digits2_pos_size. split.
  - pose proof (Pos.size_le p) as H.
    assert (H' : Z.pos (2 ^ Pos.size p) <= Z.pos p~0) by exact H.
    rewrite Pos2Z.inj_pow in H'.
    replace (Z.pos (Pos.size p)) with (Z.pos (Pos.size p) - 1 + 1) in H' by lia.
    rewrite Z.pow_add_r in H' by lia. lia.
  - pose proof (Pos.size_gt p) as H.
    assert (H' : Z.pos p < Z.pos (2 ^ Pos.size p)) by exact H.
    rewrite Pos2Z.inj_pow in H'. exact H'.
Qed.

Lemma iter_xO_value p d : Z.pos (Pos.iter xO p d) = Z.pos p * 2 ^ Z.pos d.
Proof.
  induction d using Pos.peano_ind.
  - simpl. lia.
  - rewrite Pos.iter_succ, Pos2Z.inj_succ, Z.pow_succ_r by lia.
    rewrite Pos2Z.inj_xO, IHd. lia.
Qed.

Lemma iter_xO_digits p d :
  Z.pos (digits2_pos (Pos.iter xO p d)) = Z.pos (digits2_pos p) + Z.pos d.
Proof.
  induction d using Pos.peano_ind.
  - simpl. lia.
  - rewrite Pos.iter_succ. simpl digits2_pos. lia.
Qed.

Lemma binary_round_aux_exact s m e :
  Z.pos (digits2_pos m) = 53 -> -1074 <= e <= 971 ->
  binary_round_aux 53 1024 s (Z.pos m) e loc_Exact = S754_finite s m e.
Proof.
  intros Hd He. unfold binary_round_aux, shr_fexp. simpl Zdigits2.
  rewrite Hd.
  assert (Hf : fexp 53 1024 (53 + e) - e = 0).
  { unfold fexp, emin. lia. }
  rewrite Hf. simpl shr. cbv iota beta zeta.
  cbn [shr_m loc_of_shr_record round_nearest_even Zdigits2]. rewrite Hd, Hf.
  simpl. destruct (Z.leb_spec e 971); [reflexivity | lia].
Qed.

Lemma binary_round_exact s p :
  Z.pos (digits2_pos p) <= 53 ->
  exists m,
    binary_round 53 1024 s p 0 = S754_finite s m (Z.pos (digits2_pos p) - 53)
    /\ Z.pos m = Z.pos p * 2 ^ (53 - Z.pos (digits2_pos p))
    /\ Z.pos (digits2_pos m) = 53.
Proof.
  intros Hk. unfold binary_round.
  assert (Hf : fexp 53 1024 (Z.pos (digits2_pos p) + 0) = Z.pos (digits2_pos p) - 53).
  { unfold fexp, emin. lia. }
  rewrite Hf. unfold shl_align.
  destruct (Z.pos (digits2_pos p) - 53 - 0) as [|q|q] eqn:E; try lia.
  - exists p. assert (Hd : Z.pos (digits2_pos p) = 53) by lia.
    split; [|split; [|exact Hd]].
    + replace (Z.pos (digits2_pos p) - 53) with 0 by lia.
      apply binary_round_aux_exact; lia.
    + replace (53 - Z.pos (digits2_pos p)) with 0 by lia. lia.
  - assert (Hq : Z.pos q = 53 - Z.pos (digits2_pos p)) by lia.
    exists (Pos.iter xO p q).
    assert (Hd : Z.pos (digits2_pos (Pos.iter xO p q)) = 53)
      by (rewrite iter_xO_digits; lia).
    split; [apply binary_round_aux_exact; lia|].
    split; [rewrite iter_xO_value, Hq; reflexivity | exact Hd].
Qed.

Lemma of_Z_exact n :
  n <> 0 -> - 2 ^ 53 < n < 2 ^ 53 ->
  exists m e,
    Double.of_Z n = S754_finite (n <? 0) m e
    /\ -52 <= e <= 0
    /\ Z.pos m = Z.abs n * 2 ^ (- e)
    /\ Z.pos (digits2_pos m) = 53.
Proof.
  intros Hn Hr. unfold Double.of_Z, Double.prec, Double.emax, binary_normalize.
  destruct n as [|p|p]; [contradiction| |].
  - pose proof (digits2_pos_bounds p) as Hb.
    assert (Hk : Z.pos (digits2_pos p) <= 53).
    { destruct (Z.le_gt_cases (Z.pos (digits2_pos p)) 53) as [H|H]; [exact H|].
      assert (2 ^ 53 <= 2 ^ (Z.pos (digits2_pos p) - 1))
        by (apply Z.pow_le_mono_r; lia). lia. }
    destruct (binary_round_exact false p Hk) as (m & Hm & Hv & Hd).
    exists m, (Z.pos (digits2_pos p) - 53). rewrite Hm.
    split; [reflexivity|]. split; [lia|]. split; [|exact Hd].
    rewrite Hv. simpl Z.abs. f_equal. f_equal. lia.
  - pose proof (digits2_pos_bounds p) as Hb.
    assert (Hk : Z.pos (digits2_pos p) <= 53).
    { destruct (Z.le_gt_cases (Z.pos (digits2_pos p)) 53) as [H|H]; [exact H|].
      assert (2 ^ 53 <= 2 ^ (Z.pos (digits2_pos p) - 1))
        by (apply Z.pow_le_mono_r; lia). lia. }
    destruct (binary_round_exact true p Hk) as (m & Hm & Hv & Hd).
    exists m, (Z.pos (digits2_pos p) - 53). rewrite Hm.
    split; [reflexivity|]. split; [lia|]. split; [|exact Hd].
    rewrite Hv. simpl Z.abs. f_equal. f_equal. lia.
Qed.


Lemma trunc_of_Z n :
  - 2 ^ 53 < n < 2 ^ 53 -> Double.trunc (Double.of_Z n) = Some n.
Proof.
  intros Hr. destruct (Z.eq_dec n 0) as [->|Hn]; [reflexivity|].
  destruct (of_Z_exact n Hn Hr) as (m & e & -> & He & Hv & _).
  unfold Double.trunc. f_equal.
  assert (Ha : match e with
               | Z.neg p => Z.pos m / 2 ^ Z.pos p
               | _ => Z.pos m * 2 ^ e
               end = Z.abs n).
  { destruct e as [|q|q]; try lia.
    rewrite Hv. simpl Z.opp. apply Z.div_mul. apply Z.pow_nonzero; lia. }
  rewrite Ha. destruct (Z.ltb_spec n 0); lia.
Qed.

Lemma SFcompare_finite_refl s m e :
  SFcompare (S754_finite s m e) (S754_finite s m e) = Some Eq.
Proof.
  unfold SFcompare. rewrite Z.compare_refl.
  change (Pos.compare_cont Eq m m) with (Pos.compare m m).
  rewrite Pos.compare_refl. destruct s; reflexivity.
Qed.

Lemma LONG2FIX_fixable n :
  FIXNUM_MIN <= n <= FIXNUM_MAX -> LONG2FIX n = T_FIXNUM n.
Proof.
  unfold FIXNUM_MIN, FIXNUM_MAX, LONG2FIX; intros H. f_equal.
  rewrite Z.mod_small; lia.
Qed.

(** An integer a double holds exactly comes back from the number case as
    the same FIXNUM. *)
Lemma js_number_of_Z n :
  - 2 ^ 53 < n < 2 ^ 53 -> js_number_to_ruby (Double.of_Z n) = T_FIXNUM n.
Proof.
  intros Hr. destruct (Z.eq_dec n 0) as [->|Hn]; [reflexivity|].
  unfold js_number_to_ruby, js_number_to_ruby_with.
  assert (Hi : Double.to_int64 (Double.of_Z n) = n).
  { unfold Double.to_int64, Double.to_int64_with. rewrite (trunc_of_Z n Hr).
    unfold C.INT64_MIN, C.INT64_MAX.
    destruct (Z.leb_spec (- 2 ^ 63) n); destruct (Z.leb_spec n (2 ^ 63 - 1));
      simpl; lia. }
  rewrite Hi.
  destruct (of_Z_exact n Hn Hr) as (m & e & E & He & Hv & Hd).
  rewrite E.
  assert (E1 : Double.eqb (S754_finite (n <? 0) m e) (S754_finite (n <? 0) m e) = true)
    by (unfold Double.eqb, SFeqb; rewrite SFcompare_finite_refl; reflexivity).
  assert (E2 : Double.geb (S754_finite (n <? 0) m e) (Double.of_Z FIXNUM_MIN) = true).
  { change (Double.of_Z FIXNUM_MIN) with (S754_finite true 4503599627370496 10).
    unfold Double.geb, SFleb, SFcompare.
    destruct (n <? 0); [|reflexivity].
    destruct (Z.compare_spec 10 e); try lia; reflexivity. }
  assert (E3 : Double.leb (S754_finite (n <? 0) m e) (Double.of_Z FIXNUM_MAX) = true).
  { change (Double.of_Z FIXNUM_MAX) with (S754_finite false 4503599627370496 10).
    unfold Double.leb, SFleb, SFcompare.
    destruct (n <? 0); [reflexivity|].
    destruct (Z.compare_spec e 10); try lia; reflexivity. }
  rewrite E1, E2, E3. simpl andb. cbv iota.
  apply LONG2FIX_fixable. unfold FIXNUM_MIN, FIXNUM_MAX. lia.
Qed.

Lemma SFcompare_finite_eq s m e s' m' e' :
  SFcompare (S754_finite s m e) (S754_finite s' m' e') = Some Eq ->
  s = s' /\ m = m' /\ e = e'.
Proof.
  unfold SFcompare.
  change (Pos.compare_cont Eq m m') with (Pos.compare m m').
  destruct s, s'; try discriminate;
    destruct (Z.compare_spec e e'); try discriminate;
    destruct (Pos.compare_spec m m'); try discriminate;
    intros _; subst; auto.
Qed.

Lemma canonical_digits m e :
  canonical_mantissa 53 1024 m e = true ->
  Z.pos (digits2_pos m) <= 53 /\ (-1074 < e -> Z.pos (digits2_pos m) = 53).
Proof.
  unfold canonical_mantissa, fexp, emin. intros H.
  apply Z.eqb_eq in H. lia.
Qed.

Lemma SFleb_finite_pos m e m' e' :
  SFleb (S754_finite false m e) (S754_finite false m' e') = true ->
  e < e' \/ (e = e' /\ Z.pos m <= Z.pos m').
Proof.
  unfold SFleb, SFcompare.
  change (Pos.compare_cont Eq m m') with (Pos.compare m m').
  destruct (Z.compare_spec e e'); try discriminate; [|lia].
  destruct (Pos.compare_spec m m'); try discriminate; intros _; right; lia.
Qed.

Lemma SFleb_finite_neg m e m' e' :
  SFleb (S754_finite true m e) (S754_finite true m' e') = true ->
  e' < e \/ (e = e' /\ Z.pos m' <= Z.pos m).
Proof.
  unfold SFleb, SFcompare.
  change (Pos.compare_cont Eq m m') with (Pos.compare m m').
  destruct (Z.compare_spec e e'); try discriminate; [|lia].
  destruct (Pos.compare_spec m m'); try discriminate; intros _; right; lia.
Qed.

(** A well-formed double that passes the range test has an integer part
    of magnitude at most [2^62]. *)
Lemma range_test_trunc d :
  valid_binary 53 1024 d = true ->
  Double.geb d (Double.of_Z FIXNUM_MIN) = true ->
  Double.leb d (Double.of_Z FIXNUM_MAX) = true ->
  exists n, Double.trunc d = Some n /\ - 2 ^ 62 <= n <= 2 ^ 62.
Proof.
  intros Hv Hge Hle. destruct d as [s | s | | s m e].
  - exists 0. split; [reflexivity | lia].
  - destruct s; discriminate.
  - discriminate.
  - simpl in Hv. apply andb_true_iff in Hv. destruct Hv as [Hcan _].
    destruct (canonical_digits m e Hcan) as [Hd53 Hdeq].
    pose proof (digits2_pos_bounds m) as Hb.
    assert (Hm : Z.pos m < 2 ^ 53).
    { assert (2 ^ Z.pos (digits2_pos m) <= 2 ^ 53)
        by (apply Z.pow_le_mono_r; lia). lia. }
    change (Double.of_Z FIXNUM_MAX) with (S754_finite false 4503599627370496 10) in Hle.
    change (Double.of_Z FIXNUM_MIN) with (S754_finite true 4503599627370496 10) in Hge.
    assert (He : e < 10 \/ (e = 10 /\ Z.pos m <= 4503599627370496)).
    { destruct s.
      - apply SFleb_finite_neg in Hge. destruct Hge as [Hge | [<- Hge]]; lia.
      - apply SFleb_finite_pos in Hle. destruct Hle as [Hle | [-> Hle]]; lia. }
    set (a := match e with
              | Z.neg p => Z.pos m / 2 ^ Z.pos p
              | _ => Z.pos m * 2 ^ e
              end).
    assert (Ha : 0 <= a <= 2 ^ 62).
    { unfold a. destruct e as [|q|q].
      - lia.
      - destruct He as [He | [He Hm']].
        + assert (2 ^ Z.pos q <= 2 ^ 9) by (apply Z.pow_le_mono_r; lia).
          assert (0 < 2 ^ Z.pos q) by (apply Z.pow_pos_nonneg; lia).
          split; [lia|]. change (2 ^ 62) with (2 ^ 53 * 2 ^ 9). nia.
        + rewrite He. change (2 ^ 62) with (4503599627370496 * 2 ^ 10). lia.
      - assert (0 < 2 ^ Z.pos q) by (apply Z.pow_pos_nonneg; lia).
        split; [apply Z.div_pos; lia|].
        assert (Z.pos m / 2 ^ Z.pos q <= Z.pos m)
          by (apply Z.div_le_upper_bound; nia). lia. }
    exists (if s then - a else a). split; [reflexivity|]. destruct s; lia.
Qed.

(** The number case does not depend on what the cast delivers where C
    leaves it undefined: such a double fails the range test. *)
Lemma js_number_cast_irrelevant (indefinite : double -> Z) d :
  valid_binary 53 1024 d = true ->
  js_number_to_ruby_with (Double.to_int64_with indefinite) d
  = js_number_to_ruby d.
Proof.
  intros Hv. unfold js_number_to_ruby, js_number_to_ruby_with.
  destruct (Double.geb d (Double.of_Z FIXNUM_MIN)) eqn:Hge;
    [|rewrite !andb_false_r; reflexivity].
  destruct (Double.leb d (Double.of_Z FIXNUM_MAX)) eqn:Hle;
    [|rewrite !andb_false_r; reflexivity].
  destruct (range_test_trunc d Hv Hge Hle) as (n & Hn & Hr).
  assert (Hc : forall f, Double.to_int64_with f d = n).
  { intros f. unfold Double.to_int64_with. rewrite Hn.
    unfold C.INT64_MIN, C.INT64_MAX.
    destruct (Z.leb_spec (- 2 ^ 63) n); destruct (Z.leb_spec n (2 ^ 63 - 1));
      simpl; lia. }
  unfold Double.to_int64. rewrite !Hc. reflexivity.
Qed.

(** The number case on a well-formed double other than [2^62]: the double
    itself comes back, or the FIXNUM that is its exact value. *)
Lemma js_number_to_ruby_spec d :
  valid_binary 53 1024 d = true ->
  is_double_2_62 d = false ->
  js_number_to_ruby d = T_FLOAT d
  \/ exists n, js_number_to_ruby d = T_FIXNUM n
               /\ FIXNUM_MIN <= n <= FIXNUM_MAX
               /\ double_is_integer d n.
Proof.
  intros Hv H62. unfold js_number_to_ruby, js_number_to_ruby_with.
  destruct (Double.eqb d (Double.of_Z (Double.to_int64 d))
            && Double.geb d (Double.of_Z FIXNUM_MIN)
            && Double.leb d (Double.of_Z FIXNUM_MAX)) eqn:C;
    [|left; reflexivity].
  right. apply andb_true_iff in C. destruct C as [C Hle].
  apply andb_true_iff in C. destruct C as [Heq Hge].
  destruct d as [s | s | | s m e].
  - exists 0. split; [reflexivity|]. split; [unfold FIXNUM_MIN, FIXNUM_MAX; lia|].
    reflexivity.
  - destruct s; discriminate Heq.
  - discriminate Heq.
  - simpl in Hv. apply andb_true_iff in Hv. destruct Hv as [Hcan Hemax].
    apply Z.leb_le in Hemax.
    destruct (canonical_digits m e Hcan) as [Hd53 Hdeq].
    pose proof (digits2_pos_bounds m) as Hb.
    assert (Hm : Z.pos m < 2 ^ 53).
    { assert (2 ^ Z.pos (digits2_pos m) <= 2 ^ 53)
        by (apply Z.pow_le_mono_r; lia). lia. }
    change (Double.of_Z FIXNUM_MAX) with (S754_finite false 4503599627370496 10) in Hle.
    change (Double.of_Z FIXNUM_MIN) with (S754_finite true 4503599627370496 10) in Hge.
    (* the exponent is below 10, but for the double -2^62 *)
    assert (He : e < 10 \/ (s = true /\ e = 10 /\ m = 4503599627370496%positive)).
    { assert (Hlow : e = 10 -> 4503599627370496 <= Z.pos m).
      { intros ->. rewrite Hdeq in Hb by lia. simpl in Hb. lia. }
      destruct s.
      - apply SFleb_finite_neg in Hge. destruct Hge as [Hge | [<- Hge]]; [lia|].
        right. split; [reflexivity|]. split; [reflexivity|].
        specialize (Hlow eq_refl). apply Pos2Z.inj. lia.
      - apply SFleb_finite_pos in Hle. destruct Hle as [Hle | [-> Hle]]; [lia|].
        exfalso. specialize (Hlow eq_refl).
        assert (m = 4503599627370496%positive) by (apply Pos2Z.inj; lia).
        subst m. discriminate H62. }
    set (a := match e with
              | Z.neg p => Z.pos m / 2 ^ Z.pos p
              | _ => Z.pos m * 2 ^ e
              end).
    assert (Ha : 0 <= a < 2 ^ 62 \/ (s = true /\ a = 2 ^ 62)).
    { destruct He as [He | (-> & -> & ->)]; [left | right; split; reflexivity].
      unfold a. destruct e as [|q|q].
      - lia.
      - assert (2 ^ Z.pos q <= 2 ^ 9) by (apply Z.pow_le_mono_r; lia).
        assert (0 < 2 ^ Z.pos q) by (apply Z.pow_pos_nonneg; lia).
        split; [lia|]. change (2 ^ 62) with (2 ^ 53 * 2 ^ 9). nia.
      - assert (0 < 2 ^ Z.pos q) by (apply Z.pow_pos_nonneg; lia).
        split; [apply Z.div_pos; lia|].
        assert (Z.pos m / 2 ^ Z.pos q <= Z.pos m)
          by (apply Z.div_le_upper_bound; nia). lia. }
    set (n := if s then - a else a).
    assert (Hn : FIXNUM_MIN <= n <= FIXNUM_MAX).
    { unfold FIXNUM_MIN, FIXNUM_MAX, n.
      destruct Ha as [Ha | [-> ->]]; [destruct s; lia | lia]. }
    assert (Hi : Double.to_int64 (S754_finite s m e) = n).
    { unfold Double.to_int64, Double.to_int64_with, Double.trunc.
      fold a. fold n. unfold FIXNUM_MIN, FIXNUM_MAX in Hn.
      unfold C.INT64_MIN, C.INT64_MAX.
      destruct (Z.leb_spec (- 2 ^ 63) n); destruct (Z.leb_spec n (2 ^ 63 - 1));
        simpl; lia. }
    rewrite Hi in *. exists n. split; [apply LONG2FIX_fixable; exact Hn|].
    split; [exact Hn|].
    unfold double_is_integer.
    assert (Hsn : (if s then - n else n) = a) by (unfold n; destruct s; lia).
    rewrite Hsn. unfold a. destruct e as [|q|q]; try reflexivity.
    fold a.
    (* a negative exponent: the equality test forces an exact quotient *)
    assert (Hq : 0 < 2 ^ Z.pos q) by (apply Z.pow_pos_nonneg; lia).
    assert (Ha53 : 0 <= a < 2 ^ 53).
    { unfold a. split; [apply Z.div_pos; lia|].
      assert (Z.pos m / 2 ^ Z.pos q <= Z.pos m)
        by (apply Z.div_le_upper_bound; nia). lia. }
    destruct (Z.eq_dec n 0) as [E0|Hn0].
    + rewrite E0 in Heq. destruct s; discriminate Heq.
    + assert (Hr : - 2 ^ 53 < n < 2 ^ 53) by (unfold n; destruct s; lia).
      destruct (of_Z_exact n Hn0 Hr) as (m' & e' & E & He' & Hv' & _).
      rewrite E in Heq. unfold Double.eqb, SFeqb in Heq.
      destruct (SFcompare (S754_finite s m (Z.neg q)) (S754_finite (n <? 0) m' e'))
        as [[| |]|] eqn:Ec; try discriminate.
      apply SFcompare_finite_eq in Ec. destruct Ec as (_ & <- & <-).
      rewrite Hv'. simpl Z.opp. f_equal. unfold n. destruct s; lia.
Qed.

(* ================================================================== *)
(** * The value bridge                                                 *)
(* ================================================================== *)

(** Induction over host values, through sequences and mappings. *)
Lemma VALUE_nested_ind (P : VALUE -> Prop) :
  P Qnil -> P Qtrue -> P Qfalse ->
  (forall n, P (T_FIXNUM n)) -> (forall n, P (T_BIGNUM n)) ->
  (forall d, P (T_FLOAT d)) -> (forall s, P (T_STRING s)) ->
  (forall s, P (T_SYMBOL s)) ->
  (forall l, Forall P l -> P (T_ARRAY l)) ->
  (forall es, Forall (fun e => P (snd e)) es -> P (T_HASH es)) ->
  (forall k args, P (T_OBJECT k args)) ->
  forall v, P v.
Proof.
  intros Hnil Htrue Hfalse Hfix Hbig Hflt Hstr Hsym Harr Hhash Hobj.
  fix IH 1. intros [| | | n | n | d | s | s | l | es | k args].
  - exact Hnil.
  - exact Htrue.
  - exact Hfalse.
  - apply Hfix.
  - apply Hbig.
  - apply Hflt.
  - apply Hstr.
  - apply Hsym.
  - apply Harr. induction l as [|x l IHl]; constructor; [apply IH | exact IHl].
  - apply Hhash. induction es as [|[k x] es IHes]; constructor;
      [apply IH | exact IHes].
  - apply Hobj.
Qed.

(** *** Sequences *)

Lemma JS_SetPropertyUint32_push acc j :
  JS_SetPropertyUint32 (JS_ARRAY acc) (Z.of_nat (List.length acc)) j
  = JS_ARRAY (acc ++ [j]).
Proof.
  unfold JS_SetPropertyUint32. rewrite Nat2Z.id, Nat.ltb_irrefl, Nat.sub_diag.
  reflexivity.
Qed.

Lemma ruby_array_to_js_spec (conv : VALUE -> rb JSValue)
  (Q : VALUE -> JSValue -> Prop) l :
  Forall (fun v => exists j, conv v = Return j /\ JS_IsException j = false /\ Q v j) l ->
  forall acc,
  exists js,
    ruby_array_to_js conv l (Z.of_nat (List.length acc)) (JS_ARRAY acc)
    = Return (JS_ARRAY (acc ++ js))
    /\ Forall2 Q l js.
Proof.
  induction 1 as [|v l (j & Hj & Hne & Hq) _ IH]; intros acc.
  - exists []. rewrite app_nil_r. split; [reflexivity | constructor].
  - cbn [ruby_array_to_js]. rewrite Hj. cbn [rb_bind].
    rewrite Hne, JS_SetPropertyUint32_push.
    destruct (IH (acc ++ [j])) as (js & Hjs & Hq2).
    rewrite length_app, Nat2Z.inj_add in Hjs. simpl in Hjs.
    exists (j :: js). rewrite Hjs, <- app_assoc. split; [reflexivity|].
    constructor; assumption.
Qed.

Lemma js_to_ruby_array js :
  Z.of_nat (List.length js) < 2 ^ 32 ->
  js_to_ruby (JS_ARRAY js) = T_ARRAY (map js_to_ruby js).
Proof.
  intros H. cbn -[Z.pow Z.modulo]. f_equal.
  rewrite Z.mod_small by lia. rewrite Nat2Z.id.
  apply firstn_all2. rewrite length_map. lia.
Qed.

(** *** Mappings *)

Lemma fresh_app k a b : fresh k (a ++ b) <-> fresh k a /\ fresh k b.
Proof. unfold fresh. rewrite existsb_app, orb_false_iff. reflexivity. Qed.

Lemma bytes_eqb_sym a b : C.bytes_eqb a b = C.bytes_eqb b a.
Proof.
  destruct (C.bytes_eqb a b) eqn:E.
  - apply bytes_eqb_eq in E; subst. symmetry; apply bytes_eqb_refl.
  - destruct (C.bytes_eqb b a) eqn:E'; [|reflexivity].
    apply bytes_eqb_eq in E'; subst. rewrite bytes_eqb_refl in E. discriminate.
Qed.

Lemma distinct_app_cons a k rest :
  distinct (a ++ k :: rest) = true ->
  fresh k a /\ distinct ((a ++ [k]) ++ rest) = true.
Proof.
  induction a as [|x a IH]; simpl.
  - intros H. split; [reflexivity | exact H].
  - rewrite !andb_true_iff, !negb_true_iff. intros [Hx Hd].
    destruct (IH Hd) as [Hf Hd'].
    rewrite existsb_app in Hx. simpl in Hx.
    apply orb_false_iff in Hx. destruct Hx as [Hx1 Hx2].
    apply orb_false_iff in Hx2. destruct Hx2 as [Hkx Hx2].
    split.
    + unfold fresh. simpl. rewrite bytes_eqb_sym, Hkx. exact Hf.
    + split; [|exact Hd'].
      rewrite <- app_assoc, existsb_app. simpl. rewrite Hx1, Hkx, Hx2.
      reflexivity.
Qed.

Lemma assign_property_fresh kjs k j :
  fresh k (map fst kjs) ->
  assign_property (JS_ATOM_STRING k) j (props_of kjs)
  = props_of (kjs ++ [(k, j)]).
Proof.
  unfold fresh, props_of. induction kjs as [|[k0 j0] kjs IH]; simpl.
  - reflexivity.
  - intros H. apply orb_false_iff in H. destruct H as [H1 H2].
    rewrite H1, IH by exact H2. reflexivity.
Qed.

Lemma plain_key_facts k :
  plain_key k = true ->
  C.cstr k = k
  /\ is_index_key k = false
  /\ C.bytes_eqb k (C.lit "__proto__") = false.
Proof.
  unfold plain_key. rewrite !andb_true_iff, !negb_true_iff.
  intros [[H1 H2] H3]. split; [apply cstr_no_nul; exact H1 | auto].
Qed.

Lemma JS_SetPropertyStr_fresh cls kjs k j :
  plain_key k = true ->
  fresh k (map fst kjs) ->
  JS_SetPropertyStr (JS_OBJECT cls (props_of kjs)) k j
  = JS_OBJECT cls (props_of (kjs ++ [(k, j)])).
Proof.
  intros Hp Hf. destruct (plain_key_facts k Hp) as (Hc & _ & Hproto).
  unfold JS_SetPropertyStr. rewrite Hc, Hproto, assign_property_fresh by exact Hf.
  reflexivity.
Qed.

(** The entries of a mapping, converted in order into the properties of
    one object. *)
Lemma rb_hash_foreach_spec (conv : VALUE -> rb JSValue)
  (Q : VALUE -> JSValue -> Prop) cls entries :
  Forall (fun e => exists k j, fst e = T_STRING k /\ plain_key k = true
                               /\ conv (snd e) = Return j
                               /\ JS_IsException j = false /\ Q (snd e) j)
    entries ->
  forall kjs0,
    distinct (map fst kjs0 ++ map key_of entries) = true ->
    exists kjs,
      rb_hash_foreach (hash_foreach_cb conv) entries
        {| obj := JS_OBJECT cls (props_of kjs0); has_error := false |}
      = Return {| obj := JS_OBJECT cls (props_of (kjs0 ++ kjs));
                  has_error := false |}
      /\ map fst kjs = map key_of entries
      /\ Forall2 (fun e kj => Q (snd e) (snd kj)) entries kjs.
Proof.
  clear js_program js_tostring.
  induction 1 as [|[key val] entries (k & j & Hk & Hp & Hj & Hne & Hq) _ IH];
    intros kjs0 Hd.
  - exists []. rewrite app_nil_r. repeat split. constructor.
  - simpl in Hk, Hj, Hq. subst key.
    change (map key_of ((T_STRING k, val) :: entries))
      with (k :: map key_of entries) in *.
    destruct (distinct_app_cons _ _ _ Hd) as [Hf Hd'].
    cbn [rb_hash_foreach hash_foreach_cb has_error rb_bind StringValueCStr].
    destruct (plain_key_facts k Hp) as (Hc & _ & _).
    assert (Hnul : C.has_nul k = false).
    { unfold plain_key in Hp. rewrite !andb_true_iff, !negb_true_iff in Hp. tauto. }
    rewrite Hnul. cbn [rb_bind]. rewrite Hj. cbn [rb_bind]. rewrite Hne.
    cbn [rb_bind fst snd obj].
    rewrite JS_SetPropertyStr_fresh by assumption.
    replace (map fst kjs0 ++ [k]) with (map fst (kjs0 ++ [(k, j)])) in Hd'
      by (rewrite map_app; reflexivity).
    destruct (IH _ Hd') as (kjs & Hrun & Hkeys & Hq2).
    exists ((k, j) :: kjs). rewrite Hrun, <- app_assoc. simpl.
    split; [reflexivity|]. split; [f_equal; exact Hkeys|].
    constructor; assumption.
Qed.

Lemma enumerable_string_keys_props_of kjs :
  enumerable_string_keys (props_of kjs) = map fst kjs.
Proof.
  unfold props_of. induction kjs as [|[k j] kjs IH]; simpl; [|rewrite IH];
    reflexivity.
Qed.

Lemma no_index_keys keys :
  forallb (fun k => negb (is_index_key k)) keys = true ->
  index_keys keys = []
  /\ filter (fun k => negb (is_index_key k)) keys = keys.
Proof.
  induction keys as [|k keys IH]; simpl; [auto|].
  rewrite andb_true_iff. intros [Hk Hr]. destruct (IH Hr) as [H1 H2].
  rewrite Hk, H2. unfold is_index_key in Hk.
  destruct (array_index k); [discriminate | auto].
Qed.

Lemma JS_GetOwnPropertyNames_plain cls kjs :
  forallb (fun k => negb (is_index_key k)) (map fst kjs) = true ->
  JS_GetOwnPropertyNames (JS_OBJECT cls (props_of kjs))
  = Some (map JS_ATOM_STRING (map fst kjs)).
Proof.
  intros H. unfold JS_GetOwnPropertyNames.
  rewrite enumerable_string_keys_props_of.
  destruct (no_index_keys _ H) as [-> ->]. reflexivity.
Qed.

Lemma find_property_converted a k j b :
  fresh k (map fst a) ->
  find_property (JS_ATOM_STRING k) (converted_of (a ++ (k, j) :: b))
  = Some (true, js_to_ruby j).
Proof.
  unfold fresh, converted_of. induction a as [|[k0 j0] a IH]; simpl.
  - rewrite bytes_eqb_refl; reflexivity.
  - intros H. apply orb_false_iff in H. destruct H as [H1 H2].
    rewrite H1. apply IH; exact H2.
Qed.

Lemma rb_hash_aset_str_fresh a k v :
  fresh k (map fst a) ->
  rb_hash_aset_str (hash_of a) k v = hash_of a ++ [(T_STRING k, v)].
Proof.
  unfold fresh, hash_of. induction a as [|[k0 j0] a IH]; simpl.
  - reflexivity.
  - intros H. apply orb_false_iff in H. destruct H as [H1 H2].
    rewrite H1, IH by exact H2. reflexivity.
Qed.

Lemma js_to_ruby_properties suffix :
  forall prefix,
    distinct (map fst (prefix ++ suffix)) = true ->
    forallb (fun k => negb (C.has_nul k)) (map fst suffix) = true ->
    fold_left (js_to_ruby_property (converted_of (prefix ++ suffix)))
      (map JS_ATOM_STRING (map fst suffix)) (hash_of prefix)
    = hash_of (prefix ++ suffix).
Proof.
  induction suffix as [|[k j] suffix IH]; intros prefix Hd Hn.
  - rewrite app_nil_r. reflexivity.
  - simpl in Hn. apply andb_true_iff in Hn. destruct Hn as [Hk Hn].
    apply negb_true_iff in Hk.
    rewrite map_app in Hd. simpl in Hd.
    destruct (distinct_app_cons _ _ _ Hd) as [Hf Hd'].
    cbn [map fold_left fst]. unfold js_to_ruby_property at 2.
    cbn [JS_AtomToCString].
    rewrite find_property_converted by exact Hf.
    rewrite cstr_no_nul by exact Hk.
    rewrite rb_hash_aset_str_fresh by exact Hf.
    replace (prefix ++ (k, j) :: suffix) with ((prefix ++ [(k, j)]) ++ suffix)
      by (rewrite <- app_assoc; reflexivity).
    replace (hash_of prefix ++ [(T_STRING k, js_to_ruby j)])
      with (hash_of (prefix ++ [(k, j)]))
      by (unfold hash_of; rewrite map_app; reflexivity).
    apply IH; [|exact Hn].
    rewrite map_app, map_app. simpl. exact Hd'.
Qed.

(** An object whose keys are distinct plain strings comes back as the
    mapping with the same keys in the same order. *)
Lemma js_to_ruby_object cls kjs :
  distinct (map fst kjs) = true ->
  forallb plain_key (map fst kjs) = true ->
  js_to_ruby (JS_OBJECT cls (props_of kjs)) = T_HASH (hash_of kjs).
Proof.
  clear js_program rb_to_s.
  intros Hd Hp.
  assert (Hidx : forallb (fun k => negb (is_index_key k)) (map fst kjs) = true).
  { rewrite forallb_forall in *. intros k Hk. specialize (Hp k Hk).
    destruct (plain_key_facts k Hp) as (_ & -> & _). reflexivity. }
  assert (Hnul : forallb (fun k => negb (C.has_nul k)) (map fst kjs) = true).
  { rewrite forallb_forall in *. intros k Hk. specialize (Hp k Hk).
    unfold plain_key in Hp. rewrite !andb_true_iff in Hp. tauto. }
  cbn [js_to_ruby JS_IsNull JS_IsUndefined JS_IsBool JS_IsNumber JS_IsString].
  rewrite JS_GetOwnPropertyNames_plain by exact Hidx.
  replace (map (fun p : JSProperty => let '(k, (en, v)) := p in (k, (en, js_to_ruby v)))
             (props_of kjs)) with (converted_of kjs)
    by (unfold converted_of, props_of; rewrite map_map; reflexivity).
  f_equal. apply (js_to_ruby_properties kjs []); assumption.
Qed.

Lemma Forall2_map_r {A B C} (R : A -> C -> Prop) (f : B -> C) l l' :
  Forall2 (fun a b => R a (f b)) l l' -> Forall2 R l (map f l').
Proof. induction 1; constructor; assumption. Qed.

Lemma Forall2_length_eq {A B} (R : A -> B -> Prop) l l' :
  Forall2 R l l' -> List.length l = List.length l'.
Proof. induction 1; simpl; congruence. Qed.

Lemma roundtrip_value v :
  marshallable v = true ->
  exists j, ruby_to_js v = Return j
            /\ JS_IsException j = false
            /\ comes_back v (js_to_ruby j).
Proof.
  clear js_program.
  induction v as [| | | n | n | d | s | s | l IH | es IH | k args]
    using VALUE_nested_ind; intros Hm; try discriminate Hm.
  - exists JS_NULL. repeat split. constructor.
  - exists JS_TRUE. repeat split. constructor.
  - exists JS_FALSE. repeat split. constructor.
  - cbn [marshallable] in Hm. apply andb_true_iff in Hm.
    destruct Hm as [H1 H2]. apply Z.ltb_lt in H1, H2.
    exists (JS_NewInt64 n). split; [reflexivity|].
    assert (Hback : js_to_ruby (JS_NewInt64 n) = T_FIXNUM n).
    { unfold JS_NewInt64, JS_NewInt32, JS_NewFloat64.
      destruct ((C.INT_MIN <=? n) && (n <=? C.INT_MAX));
        cbn [js_to_ruby JS_IsNull JS_IsUndefined JS_IsBool JS_IsNumber
               JS_ToFloat64 option_map];
        apply js_number_of_Z; lia. }
    rewrite Hback. split; [|constructor].
    unfold JS_NewInt64. destruct ((C.INT_MIN <=? n) && (n <=? C.INT_MAX));
      reflexivity.
  - cbn [marshallable] in Hm. apply andb_true_iff in Hm.
    destruct Hm as [Hv H62]. apply negb_true_iff in H62.
    exists (JS_FLOAT64 d). split; [reflexivity|]. split; [reflexivity|].
    cbn [js_to_ruby JS_IsNull JS_IsUndefined JS_IsBool JS_IsNumber
           JS_ToFloat64 option_map].
    destruct (js_number_to_ruby_spec d Hv H62) as [-> | (n & -> & Hn & Hi)];
      constructor; assumption.
  - cbn [marshallable] in Hm. apply negb_true_iff in Hm.
    exists (JS_STRING s). cbn [ruby_to_js StringValueCStr]. rewrite Hm.
    cbn [rb_bind]. unfold JS_NewString. rewrite cstr_no_nul by exact Hm.
    split; [reflexivity|]. split; [reflexivity|].
    cbn [js_to_ruby JS_IsNull JS_IsUndefined JS_IsBool JS_IsNumber JS_IsString
           JS_ToCString option_map].
    unfold rb_str_new2. rewrite cstr_no_nul by exact Hm. constructor.
  - cbn [marshallable] in Hm. apply andb_true_iff in Hm.
    destruct Hm as [Hlen Hall]. apply Z.ltb_lt in Hlen.
    assert (Hconv : Forall (fun v => exists j, ruby_to_js v = Return j
                                     /\ JS_IsException j = false
                                     /\ comes_back v (js_to_ruby j)) l).
    { rewrite forallb_forall in Hall. rewrite Forall_forall in *.
      intros v Hin. apply IH; [exact Hin | apply Hall; exact Hin]. }
    destruct (ruby_array_to_js_spec ruby_to_js
                (fun v j => comes_back v (js_to_ruby j)) l Hconv [])
      as (js & Hrun & Hq).
    exists (JS_ARRAY js). cbn [ruby_to_js]. split; [exact Hrun|].
    split; [reflexivity|].
    rewrite js_to_ruby_array
      by (rewrite <- (Forall2_length_eq _ _ _ Hq); exact Hlen).
    constructor. apply Forall2_map_r. exact Hq.
  - cbn [marshallable] in Hm. apply andb_true_iff in Hm.
    destruct Hm as [Hall Hd].
    assert (Hconv :
              Forall (fun e => exists k j, fst e = T_STRING k /\ plain_key k = true
                                 /\ ruby_to_js (snd e) = Return j
                                 /\ JS_IsException j = false
                                 /\ comes_back (snd e) (js_to_ruby j)) es).
    { rewrite forallb_forall in Hall. rewrite Forall_forall in *.
      intros e Hin. specialize (Hall e Hin). apply andb_true_iff in Hall.
      destruct Hall as [Hk Hv]. destruct (IH e Hin Hv) as (j & Hj & Hne & Hq).
      destruct (fst e) eqn:Ek; try discriminate. eauto 10. }
    destruct (rb_hash_foreach_spec ruby_to_js
                (fun v j => comes_back v (js_to_ruby j)) JS_CLASS_OBJECT es Hconv
                [] Hd) as (kjs & Hrun & Hkeys & Hq).
    exists (JS_OBJECT JS_CLASS_OBJECT (props_of kjs)).
    cbn [ruby_to_js]. unfold JS_NewObject.
    change (@nil (JSAtom * (bool * JSValue))) with (props_of []).
    rewrite Hrun. cbn [rb_bind has_error obj app].
    split; [reflexivity|]. split; [reflexivity|].
    assert (Hplain : forallb plain_key (map fst kjs) = true).
    { rewrite Hkeys. rewrite forallb_forall in *. intros k Hin.
      apply in_map_iff in Hin. destruct Hin as (e & <- & Hin).
      specialize (Hall e Hin). apply andb_true_iff in Hall.
      destruct Hall as [Hk _]. unfold key_of.
      destruct (fst e); try discriminate. exact Hk. }
    rewrite js_to_ruby_object; [| rewrite Hkeys; exact Hd | exact Hplain].
    constructor.
    (* entry by entry: the same key, the value as it came back *)
    clear Hrun Hd Hplain IH Hall.
    revert kjs Hkeys Hq. induction Hconv as [|e es (k & j & Hk & _) _ IHc];
      intros kjs Hkeys Hq.
    + inversion Hq; subst. constructor.
    + inversion Hq as [|? [k' j'] ? kjs' Hq1 Hq2]; subst.
      simpl in Hkeys. inversion Hkeys as [[Hk' Hkeys']].
      constructor; [|apply IHc; assumption].
      simpl. split; [|exact Hq1].
      unfold key_of. rewrite Hk. reflexivity.
Qed.

(** C4 (amended).  For every host value built from null, booleans,
    integers below [2^53] in magnitude, well-formed doubles other than
    [2^62], NUL-free strings, sequences of fewer than [2^32] such values
    and mappings from distinct plain string keys (NUL-free, not an array
    index, not [__proto__]) to such values, converting host to script and
    then script to host succeeds and yields a structurally equal value:
    the same keys in the same order and the same values, except that a
    double with no fractional part within the FIXNUM range may come back
    as the integer of the same value. *)
Theorem roundtrip_preserves :
  forall v : VALUE,
    marshallable v = true ->
    exists v', roundtrip v = Return v' /\ comes_back v v'.
Proof.
  intros v Hm. destruct (roundtrip_value v Hm) as (j & Hj & _ & Hback).
  exists (js_to_ruby j). unfold roundtrip. rewrite Hj. split; [reflexivity|].
  exact Hback.
Qed.

(** *** Keys of other types *)




(* ================================================================== *)
(** * The console buffer over a run                                    *)
(* ================================================================== *)

(** A run is a sequence of calls into the extension: what every call
    keeps, the run keeps. *)
Lemma JS_Eval_steps (Inv : World -> Prop) (R : World -> World -> Prop) :
  (forall st, R st st) ->
  (forall a b c, R a b -> R b c -> R a c) ->
  (forall st argv, Inv st ->
     Inv (snd (js_console_log st argv)) /\ R st (snd (js_console_log st argv))) ->
  (forall st argv, Inv st ->
     Inv (snd (js_fetch st argv)) /\ R st (snd (js_fetch st argv))) ->
  (forall st now, Inv st ->
     Inv (snd (interrupt_handler st now))
     /\ R st (snd (interrupt_handler st now))) ->
  (forall st e, Inv st -> Inv (set_exception e st) /\ R st (set_exception e st)) ->
  forall program st,
    Inv st -> Inv (snd (JS_Eval st program)) /\ R st (snd (JS_Eval st program)).
Proof.
  intros Hrefl Htrans Hlog Hfetch Hpoll Hexc.
  induction program as [r | e | | argv next IH | argv next IH | now next IH];
    intros st Hinv; simpl.
  - split; [assumption | apply Hrefl].
  - apply Hexc; assumption.
  - split; [assumption | apply Hrefl].
  - destruct (Hlog st argv Hinv) as [H1 H2]. destruct (IH _ H1) as [H3 H4].
    split; [assumption | eapply Htrans; eassumption].
  - destruct (Hfetch st argv Hinv) as [H1 H2].
    destruct (js_fetch st argv) as [[r | e |] st1]; simpl in *.
    + destruct (IH r st1 H1) as [H3 H4].
      split; [assumption | eapply Htrans; eassumption].
    + split; assumption.
    + split; assumption.
  - destruct (Hpoll st now Hinv) as [H1 H2].
    destruct (interrupt_handler st now) as [[|] st1]; simpl in *.
    + destruct (Hexc st1 (Some (js_error JS_INTERNAL_ERROR "interrupted")) H1)
        as [H3 H4].
      split; [assumption | eapply Htrans; eassumption].
    + destruct (IH st1 H1) as [H3 H4].
      split; [assumption | eapply Htrans; eassumption].
Qed.

Lemma append_all_steps (Inv : World -> Prop) (R : World -> World -> Prop) :
  (forall st, R st st) ->
  (forall a b c, R a b -> R b c -> R a c) ->
  (forall st str, Inv st ->
     Inv (append_console_output st str) /\ R st (append_console_output st str)) ->
  forall strs st, Inv st -> Inv (append_all st strs) /\ R st (append_all st strs).
Proof.
  intros Hrefl Htrans Hstep. unfold append_all.
  induction strs as [|s rest IH]; intros st Hinv; simpl.
  - split; [assumption | apply Hrefl].
  - destruct (Hstep st s Hinv) as [H1 H2]. destruct (IH _ H1) as [H3 H4].
    split; [assumption | eapply Htrans; eassumption].
Qed.

Lemma js_console_log_steps (Inv : World -> Prop) (R : World -> World -> Prop) :
  (forall st, R st st) ->
  (forall a b c, R a b -> R b c -> R a c) ->
  (forall st str, Inv st ->
     Inv (append_console_output st str) /\ R st (append_console_output st str)) ->
  forall st argv, Inv st ->
    Inv (snd (js_console_log st argv)) /\ R st (snd (js_console_log st argv)).
Proof.
  intros Hrefl Htrans Hstep st argv Hinv.
  destruct (current_wrapper st) eqn:E.
  - rewrite js_console_log_pieces by assumption.
    apply append_all_steps; assumption.
  - unfold js_console_log; rewrite E; simpl. split; [assumption | apply Hrefl].
Qed.

Lemma js_fetch_same_buffer st argv : same_buffer st (snd (js_fetch st argv)).
Proof.
  unfold js_fetch, same_buffer.
  repeat (break_match; simpl; try (repeat split; reflexivity)).
Qed.

Lemma interrupt_handler_same_buffer st now :
  same_buffer st (snd (interrupt_handler st now)).
Proof.
  unfold interrupt_handler, same_buffer.
  repeat (break_match; simpl; try (repeat split; reflexivity)).
Qed.

Lemma set_exception_same_buffer st e : same_buffer st (set_exception e st).
Proof. unfold same_buffer; simpl; repeat split. Qed.

(** What holds of the steps that append holds of a run, when it depends
    on the buffer alone. *)
Lemma JS_Eval_buffer (Inv : World -> Prop) (R : World -> World -> Prop) :
  (forall st, R st st) ->
  (forall a b c, R a b -> R b c -> R a c) ->
  (forall st str, Inv st ->
     Inv (append_console_output st str) /\ R st (append_console_output st str)) ->
  (forall st st', same_buffer st st' -> Inv st -> Inv st' /\ R st st') ->
  forall program st,
    Inv st -> Inv (snd (JS_Eval st program)) /\ R st (snd (JS_Eval st program)).
Proof.
  intros Hrefl Htrans Hstep Hsame.
  apply JS_Eval_steps; try assumption.
  - apply js_console_log_steps; assumption.
  - intros st argv. apply Hsame, js_fetch_same_buffer.
  - intros st now. apply Hsame, interrupt_handler_same_buffer.
  - intros st e. apply Hsame, set_exception_same_buffer.
Qed.

Lemma console_grows_refl st : console_grows st st.
Proof.
  unfold console_grows. split; [exists []; rewrite app_nil_r; reflexivity|].
  split; [lia | auto].
Qed.

Lemma console_grows_trans a b c :
  console_grows a b -> console_grows b c -> console_grows a c.
Proof.
  intros ((s1 & H1) & L1 & T1) ((s2 & H2) & L2 & T2).
  split; [exists (s1 ++ s2); rewrite H2, H1, app_assoc; reflexivity|].
  split; [lia | auto].
Qed.

Lemma append_console_grows st str :
  console_ok (self st) -> console_grows st (append_console_output st str).
Proof.
  unfold console_ok, console_grows, append_console_output; intros [[Hlo Hhi] Hlen].
  destruct (Z.eqb_spec (Z.of_nat (List.length str)) 0) as [E0|E0].
  { split; [exists []; rewrite app_nil_r; reflexivity|]. split; [lia | auto]. }
  destruct (Z.leb_spec (console_max_size (self st)) (console_output_len (self st))).
  { simpl. split; [exists []; rewrite app_nil_r; reflexivity|].
    split; [lia | auto]. }
  set (available := console_max_size (self st) - console_output_len (self st)).
  set (to_append := if Z.of_nat (List.length str) <? available
                    then Z.of_nat (List.length str) else available).
  assert (Hta : 0 <= to_append).
  { unfold to_append, available.
    destruct (Z.ltb_spec (Z.of_nat (List.length str))
                (console_max_size (self st) - console_output_len (self st))); lia. }
  assert (Hkeep : firstn (Z.to_nat (console_output_len (self st)))
                    (console_output (self st)) = console_output (self st))
    by (apply firstn_all2; lia).
  unfold realloc.
  destruct (to_append <? Z.of_nat (List.length str));
    destruct (console_output_capacity (self st) <? console_output_len (self st) + to_append);
    simpl; try (destruct (realloc_results st) as [|[|] rest]); simpl;
    rewrite ?Hkeep;
    (split; [first [ eexists; reflexivity
                   | exists []; rewrite app_nil_r; reflexivity ]
            | split; [lia | auto]]).
Qed.

(** X1.  During a run, whatever the program does and whatever the allocator
    does, the bytes already captured stay where they are: the output is
    only extended at its end, its recorded length never decreases, and a
    truncation flag that is set is never cleared. *)
Theorem console_output_append_only :
  forall (program : Script) (st : World),
    console_ok (self st) ->
    let st' := snd (JS_Eval st program) in
    (exists suffix,
        console_output (self st') = console_output (self st) ++ suffix)
    /\ console_output_len (self st) <= console_output_len (self st')
    /\ (console_truncated (self st) = true ->
        console_truncated (self st') = true).
Proof.
  intros program st Hok.
  apply (JS_Eval_buffer (fun st => console_ok (self st)) console_grows);
    try assumption.
  - apply console_grows_refl.
  - apply console_grows_trans.
  - intros st0 str H. split; [apply append_console_ok | apply append_console_grows];
      assumption.
  - intros st0 st1 (Ho & Hl & Hc & Hm & Ht) H. split.
    + unfold console_ok in *. rewrite Ho, Hl, Hm. exact H.
    + unfold console_grows. rewrite Ho, Hl, Ht.
      split; [exists []; rewrite app_nil_r; reflexivity|]. split; [lia | auto].
Qed.

Lemma capacity_grows_refl st : capacity_grows st st.
Proof. unfold capacity_grows. repeat split; lia. Qed.

Lemma capacity_grows_trans a b c :
  capacity_grows a b -> capacity_grows b c -> capacity_grows a c.
Proof.
  unfold capacity_grows. intros (L1 & U1 & M1) (L2 & U2 & M2).
  rewrite M1 in U2. repeat split; try lia; congruence.
Qed.

Lemma append_console_capacity st str :
  console_ok (self st) ->
  capacity_ok (self st) ->
  capacity_ok (self (append_console_output st str))
  /\ capacity_grows st (append_console_output st str).
Proof.
  unfold console_ok, capacity_ok, capacity_grows, append_console_output;
    intros [[Hlo Hhi] Hlen] Hcap.
  destruct (Z.eqb_spec (Z.of_nat (List.length str)) 0) as [E0|E0];
    [repeat split; lia|].
  destruct (Z.leb_spec (console_max_size (self st)) (console_output_len (self st)));
    [simpl; repeat split; lia|].
  set (available := console_max_size (self st) - console_output_len (self st)).
  set (to_append := if Z.of_nat (List.length str) <? available
                    then Z.of_nat (List.length str) else available).
  assert (Hta : 0 <= to_append <= available).
  { unfold to_append, available.
    destruct (Z.ltb_spec (Z.of_nat (List.length str))
                (console_max_size (self st) - console_output_len (self st))); lia. }
  generalize (C.size_wrap (console_output_capacity (self st) * 2)); intros doubled.
  unfold realloc, available in *.
  destruct (to_append <? Z.of_nat (List.length str));
    destruct (Z.ltb_spec (console_output_capacity (self st))
                (console_output_len (self st) + to_append));
    simpl; try (destruct (realloc_results st) as [|[|] rest]); simpl;
    repeat match goal with
           | |- context [?a <? ?b] => destruct (Z.ltb_spec a b)
           end; repeat split; lia.
Qed.

(** X2.  The capacity of the buffer covers its length throughout a run, it
    never shrinks, and it never passes the larger of the capacity at the
    start and the ceiling [console_max_size]: the memory the console
    takes is bounded by the ceiling, whatever the script logs. *)
Theorem console_capacity_bounded :
  forall (program : Script) (st : World),
    console_ok (self st) ->
    capacity_ok (self st) ->
    let st' := snd (JS_Eval st program) in
    console_output_len (self st') <= console_output_capacity (self st')
    /\ console_output_capacity (self st) <= console_output_capacity (self st')
    /\ console_output_capacity (self st')
       <= Z.max (console_output_capacity (self st)) (console_max_size (self st)).
Proof.
  intros program st Hok Hcap.
  destruct (JS_Eval_buffer
              (fun st => console_ok (self st) /\ capacity_ok (self st))
              capacity_grows capacity_grows_refl capacity_grows_trans)
    with (program := program) (st := st) as [[_ H1] (H2 & H3 & _)].
  - intros st0 str [H H']. split; [split|].
    + apply append_console_ok; assumption.
    + apply append_console_capacity; assumption.
    + apply append_console_capacity; assumption.
  - intros st0 st1 (Ho & Hl & Hc & Hm & Ht) [H H']. split; [split|].
    + unfold console_ok in *. rewrite Ho, Hl, Hm. exact H.
    + unfold capacity_ok in *. rewrite Hl, Hc. exact H'.
    + unfold capacity_grows. rewrite Hc, Hm. repeat split; lia.
  - split; assumption.
  - unfold capacity_ok in H1. auto.
Qed.

(** ** The block behind the buffer *)

(** X3.  Once the block has one byte more than the recorded capacity, as every
    [realloc] of the append leaves it, an append writes inside the block,
    terminating NUL included, and leaves a block that again has one byte
    more than the capacity. *)
Theorem console_writes_inside_block :
  forall (block : Z) (st : World) (str : list ascii),
    console_ok (self st) ->
    capacity_ok (self st) ->
    console_max_size (self st) < 2 ^ 64 - 1 ->
    console_output_capacity (self st) + 1 <= block ->
    let st' := append_console_output st str in
    console_output_capacity (self st') + 1 <= fst (append_console_block block st str)
    /\ match snd (append_console_block block st str) with
       | Some nul =>
           nul = console_output_len (self st')
           /\ 0 <= nul < fst (append_console_block block st str)
       | None => console_output (self st') = console_output (self st)
       end.
Proof.
  unfold console_ok, capacity_ok, append_console_output, append_console_block;
    intros block st str [[Hlo Hhi] Hlen] Hcap Hmax Hblock.
  destruct (Z.eqb_spec (Z.of_nat (List.length str)) 0) as [E0|E0];
    [simpl; split; [lia | reflexivity]|].
  destruct (Z.leb_spec (console_max_size (self st)) (console_output_len (self st)));
    [simpl; split; [lia | reflexivity]|].
  set (available := console_max_size (self st) - console_output_len (self st)).
  set (to_append := if Z.of_nat (List.length str) <? available
                    then Z.of_nat (List.length str) else available).
  assert (Hta : 0 <= to_append <= available).
  { unfold to_append, available.
    destruct (Z.ltb_spec (Z.of_nat (List.length str))
                (console_max_size (self st) - console_output_len (self st))); lia. }
  generalize (C.size_wrap (console_output_capacity (self st) * 2)); intros doubled.
  unfold C.size_wrap, C.SIZE_BITS, realloc, available in *.
  destruct (to_append <? Z.of_nat (List.length str));
    destruct (Z.ltb_spec (console_output_capacity (self st))
                (console_output_len (self st) + to_append));
    simpl; try (destruct (realloc_results st) as [|[|] rest]); simpl;
    repeat match goal with
           | |- context [?a <? ?b] => destruct (Z.ltb_spec a b)
           end;
    rewrite ?Z.mod_small by lia;
    (split; [lia | first [reflexivity | split; lia]]).
Qed.

(** X4.  The block [sandbox_initialize] allocates has exactly
    [console_output_capacity] bytes.  While the buffer still sits in it,
    an append that brings the length to exactly the capacity does not
    reallocate, and stores the terminating NUL at index
    [console_output_capacity]: one byte past the end of the block. *)
Theorem console_terminator_past_initial_block :
  forall (st : World) (str : list ascii),
    console_ok (self st) ->
    str <> [] ->
    console_output_len (self st) + Z.of_nat (List.length str)
    = console_output_capacity (self st) ->
    console_output_capacity (self st) <= console_max_size (self st) ->
    let block := console_output_capacity (self st) in
    append_console_block block st str = (block, Some block)
    /\ console_output_len (self (append_console_output st str)) = block
    /\ console_output_capacity (self (append_console_output st str)) = block.
Proof.
  unfold console_ok, append_console_output, append_console_block;
    intros st str [[Hlo Hhi] Hlen] Hne Hfill Hmax.
  destruct (Z.eqb_spec (Z.of_nat (List.length str)) 0) as [E0|E0];
    [destruct str; [contradiction | discriminate]|].
  destruct (Z.leb_spec (console_max_size (self st)) (console_output_len (self st)));
    [lia|].
  cbv zeta.
  destruct (Z.ltb_spec (Z.of_nat (List.length str))
              (console_max_size (self st) - console_output_len (self st)));
    repeat match goal with
           | |- context [?a <? ?b] => destruct (Z.ltb_spec a b); try lia
           end; simpl; repeat split; try f_equal; try f_equal; lia.
Qed.

(* ================================================================== *)
(** * The clock, the timeout and the settings                          *)
(* ================================================================== *)

(** X5.  For readings of a clock that does not go back, taken in the first
    [2^53] seconds, [get_time_ms] is defined and does not go back either;
    each value lies in the millisecond range of its second. *)
Theorem get_time_ms_monotone :
  forall ts1 ts2 : timespec,
    normalized ts1 ->
    normalized ts2 ->
    0 <= tv_sec ts1 ->
    tv_sec ts2 < 2 ^ 53 ->
    not_after ts1 ts2 ->
    exists t1 t2,
      get_time_ms ts1 = Some t1
      /\ get_time_ms ts2 = Some t2
      /\ t1 <= t2
      /\ tv_sec ts1 * 1000 <= t1 < (tv_sec ts1 + 1) * 1000
      /\ tv_sec ts2 * 1000 <= t2 < (tv_sec ts2 + 1) * 1000.
Proof.
  clear js_tostring rb_to_s js_program.
  intros [s1 n1] [s2 n2]; unfold normalized, not_after, get_time_ms; simpl.
  intros Hn1 Hn2 Hs1 Hs2 Hord.
  assert (Q : forall n, 0 <= n < 1000000000 -> 0 <= Z.quot n 1000000 <= 999).
  { intros n Hn. rewrite Z.quot_div_nonneg by lia. split.
    - apply Z.div_pos; lia.
    - apply Z.lt_succ_r. apply Z.div_lt_upper_bound; lia. }
  pose proof (Q n1 Hn1) as Q1. pose proof (Q n2 Hn2) as Q2.
  assert (Hs2' : 0 <= s2) by (destruct Hord; lia).
  assert (Hs1' : s1 < 2 ^ 53) by (destruct Hord; lia).
  exists (s1 * 1000 + Z.quot n1 1000000), (s2 * 1000 + Z.quot n2 1000000).
  unfold C.INT64_MIN, C.INT64_MAX.
  change (2 ^ 53) with 9007199254740992 in *.
  change (2 ^ 63) with 9223372036854775808.
  repeat match goal with
         | |- context [?a <=? ?b] => destruct (Z.leb_spec a b); try lia
         end.
  simpl. repeat split; try lia.
  destruct Hord as [Hlt | [-> Hle]]; [lia|].
  apply Z.add_le_mono_l. rewrite !Z.quot_div_nonneg by lia.
  apply Z.div_le_mono; lia.
Qed.

Lemma js_console_log_flags st argv :
  timed_out (self (snd (js_console_log st argv))) = timed_out (self st)
  /\ timeout_ms (self (snd (js_console_log st argv))) = timeout_ms (self st)
  /\ start_time_ms (self (snd (js_console_log st argv))) = start_time_ms (self st)
  /\ current_wrapper (snd (js_console_log st argv)) = current_wrapper st.
Proof.
  destruct (js_console_log_same_but_console st argv)
    as (H1 & _ & _ & _ & _ & H2 & H3 & H4 & _).
  auto.
Qed.

Lemma js_fetch_flags st argv :
  timed_out (self (snd (js_fetch st argv))) = timed_out (self st)
  /\ timeout_ms (self (snd (js_fetch st argv))) = timeout_ms (self st)
  /\ start_time_ms (self (snd (js_fetch st argv))) = start_time_ms (self st)
  /\ current_wrapper (snd (js_fetch st argv)) = current_wrapper st.
Proof.
  unfold js_fetch.
  repeat (break_match; simpl; try (repeat split; reflexivity)).
Qed.

(** The flag is raised by a poll that stops the run, and by nothing
    else. *)
Lemma JS_Eval_timed_out program :
  forall st,
    timed_out (self st) = false ->
    timed_out (self (snd (JS_Eval st program))) = true ->
    fst (JS_Eval st program) = Return JS_EXCEPTION
    /\ exception (ctx (self (snd (JS_Eval st program))))
       = Some (js_error JS_INTERNAL_ERROR "interrupted")
    /\ 0 < timeout_ms (self st).
Proof.
  induction program as [r | e | | argv next IH | argv next IH | now next IH];
    intros st Hf; simpl; try congruence.
  - destruct (js_console_log_flags st argv) as (H1 & H2 & _).
    intros Ht. destruct (IH (snd (js_console_log st argv))) as (A & B & C);
      [congruence | exact Ht |]. rewrite H2 in C. auto.
  - destruct (js_fetch_flags st argv) as (H1 & H2 & _).
    destruct (js_fetch st argv) as [[r | e |] st1]; simpl in *; try congruence.
    intros Ht. destruct (IH r st1) as (A & B & C);
      [congruence | exact Ht |]. rewrite H2 in C. auto.
  - unfold interrupt_handler.
    destruct (Z.ltb_spec 0 (timeout_ms (self st))); [|apply IH; exact Hf].
    destruct (timeout_ms (self st) <? now - start_time_ms (self st));
      [simpl; auto|].
    intros Ht. destruct (IH st Hf Ht) as (A & B & C). auto.
Qed.

(** X6.  When an evaluation ends with the [timed_out] flag set, the interrupt
    handler has stopped the run: a positive timeout is configured, the
    engine returned the exception marker, and the exception pending in
    the context is the engine's own interruption error. *)
Theorem timeout_only_when_interrupted :
  forall (st : World) (now : Z) (program : Script),
    let run := JS_Eval (sandbox_eval_reset st now) program in
    timed_out (self (snd run)) = true ->
    fst run = Return JS_EXCEPTION
    /\ exception (ctx (self (snd run)))
       = Some (js_error JS_INTERNAL_ERROR "interrupted")
    /\ 0 < timeout_ms (self st).
Proof.
  intros st now program run Ht.
  apply (JS_Eval_timed_out program (sandbox_eval_reset st now));
    [reflexivity | exact Ht].
Qed.

Lemma sandbox_eval_timed_out st now code :
  timed_out (self (snd (sandbox_eval st now code))) = true ->
  exists code_str,
    StringValueCStr code = Return code_str
    /\ timed_out (self (snd (JS_Eval (sandbox_eval_reset st now)
                               (js_program code_str)))) = true.
Proof.
  unfold sandbox_eval.
  destruct (StringValueCStr code) as [code_str | e |]; try discriminate.
  intros H. exists code_str. split; [reflexivity|]. revert H.
  destruct (JS_Eval (sandbox_eval_reset st now) (js_program code_str))
    as [[result | e |] st1]; simpl; try (intros H; exact H).
  unfold JS_GetException.
  repeat (break_match; simpl; try (intros; congruence)).
Qed.

(** X7.  A timeout of zero or less switches the timeout off: a poll of the
    interrupt handler never stops the run, whatever the clock reads, and
    no evaluation ends with the [timed_out] flag set. *)
Theorem timeout_disabled :
  forall st : World,
    timeout_ms (self st) <= 0 ->
    (forall now, interrupt_handler st now = (false, st))
    /\ (forall now next, JS_Eval st (Polls now next) = JS_Eval st next)
    /\ (forall now code,
          timed_out (self (snd (sandbox_eval st now code))) = false).
Proof.
  intros st Hto.
  assert (H : forall now, interrupt_handler st now = (false, st)).
  { intros now. unfold interrupt_handler.
    destruct (Z.ltb_spec 0 (timeout_ms (self st))); [lia | reflexivity]. }
  split; [exact H|]. split.
  - intros now next. simpl. rewrite H. reflexivity.
  - intros now code.
    destruct (timed_out (self (snd (sandbox_eval st now code)))) eqn:E;
      [|reflexivity].
    destruct (sandbox_eval_timed_out st now code E) as (code_str & _ & Ht).
    destruct (JS_Eval_timed_out _ (sandbox_eval_reset st now) eq_refl Ht)
      as (_ & _ & Hpos).
    simpl in Hpos. lia.
Qed.

Lemma same_settings_refl st : same_settings st st.
Proof. unfold same_settings; repeat split. Qed.

Lemma same_settings_trans a b c :
  same_settings a b -> same_settings b c -> same_settings a c.
Proof.
  unfold same_settings; intros H1 H2.
  repeat match goal with H : _ /\ _ |- _ => destruct H end.
  repeat split; congruence.
Qed.

Lemma JS_Eval_settings program st :
  same_settings st (snd (JS_Eval st program)).
Proof.
  apply (JS_Eval_steps (fun _ => True) same_settings); auto.
  - apply same_settings_refl.
  - apply same_settings_trans.
  - intros st0 argv _. split; [exact I|].
    destruct (js_console_log_same_but_console st0 argv)
      as (_ & _ & H1 & _ & H2 & _ & H3 & _ & H4 & H5 & _).
    unfold same_settings. rewrite H1. auto.
  - intros st0 argv _. split; [exact I|]. unfold js_fetch, same_settings.
    repeat (break_match; simpl; try (repeat split; congruence)).
  - intros st0 now _. split; [exact I|]. unfold interrupt_handler, same_settings.
    repeat (break_match; simpl; try (repeat split; reflexivity)).
  - intros st0 e _. split; [exact I|]. unfold same_settings; repeat split.
Qed.

(** X8.  An evaluation changes none of the settings of the sandbox, however
    it ends: the memory limit (of the wrapper and of the engine), the
    timeout, the console ceiling and the registered handler are after
    [sandbox_eval] what they were before. *)
Theorem eval_keeps_settings :
  forall (st : World) (now : Z) (code : VALUE),
    same_settings st (snd (sandbox_eval st now code)).
Proof.
  intros st now code. unfold sandbox_eval.
  assert (H0 : same_settings st (sandbox_eval_reset st now))
    by (unfold same_settings; repeat split).
  destruct (StringValueCStr code) as [code_str | e |]; try exact H0.
  pose proof (JS_Eval_settings (js_program code_str) (sandbox_eval_reset st now))
    as H1.
  destruct (JS_Eval (sandbox_eval_reset st now) (js_program code_str))
    as [[result | e |] st1]; simpl in H1;
    try (simpl; eapply same_settings_trans; [exact H0 | exact H1]).
  eapply same_settings_trans; [exact H0|].
  eapply same_settings_trans; [exact H1|].
  unfold same_settings, JS_GetException.
  repeat (break_match; simpl; try (repeat split; congruence)).
Qed.

(** ** The lines of a run *)

Lemma js_fetch_allocator st argv :
  realloc_results (snd (js_fetch st argv)) = realloc_results st.
Proof.
  unfold js_fetch. repeat (break_match; simpl; try reflexivity).
Qed.

Lemma interrupt_handler_allocator st now :
  realloc_results (snd (interrupt_handler st now)) = realloc_results st.
Proof.
  unfold interrupt_handler. repeat (break_match; simpl; try reflexivity).
Qed.

Lemma truncated_after_two (t : bool) (len max a b : Z) :
  0 <= len <= max -> 0 <= a -> 0 <= b ->
  (t || (max <? len + a)) || (max <? Z.min max (len + a) + b)
  = t || (max <? len + (a + b)).
Proof.
  intros H Ha Hb.
  destruct t; simpl; [reflexivity|].
  repeat match goal with
         | |- context [?x <? ?y] => destruct (Z.ltb_spec x y)
         end; simpl; try reflexivity; lia.
Qed.

(** The buffer after a run, from what it held and the lines logged. *)
Lemma JS_Eval_console_lines program :
  forall st,
    current_wrapper st = true ->
    console_ok (self st) ->
    reallocs_succeed st ->
    let st' := snd (JS_Eval st program) in
    console_output (self st')
    = firstn (Z.to_nat (console_max_size (self st)))
        (console_output (self st) ++ concat (console_lines st program))
    /\ console_truncated (self st')
       = console_truncated (self st)
         || (console_max_size (self st)
             <? console_output_len (self st)
                + Z.of_nat (List.length (concat (console_lines st program)))).
Proof.
  assert (Hnil : forall st : World,
             console_ok (self st) ->
             console_output (self st)
             = firstn (Z.to_nat (console_max_size (self st)))
                 (console_output (self st) ++ [])
             /\ console_truncated (self st)
                = console_truncated (self st)
                  || (console_max_size (self st)
                      <? console_output_len (self st) + Z.of_nat 0)).
  { intros st [[Hlo Hhi] Hlen]. rewrite app_nil_r, firstn_all2 by lia.
    split; [reflexivity|].
    destruct (Z.ltb_spec (console_max_size (self st))
                (console_output_len (self st) + Z.of_nat 0)); [lia|].
    rewrite orb_false_r; reflexivity. }
  induction program as [r | e | | argv next IH | argv next IH | now next IH];
    intros st Hcw Hok Hre; simpl; try (apply Hnil; exact Hok).
  - (* console.log *)
    pose proof (js_console_log_pieces st argv Hcw) as Hp.
    destruct (append_all_spec st (log_pieces 0 argv ++ [[C.newline]]) Hok Hre)
      as (Ho & Ht & Hr).
    destruct (js_console_log_ok st argv Hok) as [Hok1 Hsame].
    rewrite <- Hp in Ho, Ht, Hr. unfold bytes_offered in Ht.
    rewrite log_pieces_line in Ho, Ht.
    assert (Hcw1 : current_wrapper (snd (js_console_log st argv)) = true)
      by (rewrite (proj1 Hsame); exact Hcw).
    assert (Hmax : console_max_size (self (snd (js_console_log st argv)))
                   = console_max_size (self st)) by apply Hsame.
    destruct (IH _ Hcw1 Hok1 Hr) as [Ho' Ht']. rewrite Hmax in Ho', Ht'.
    split.
    + rewrite Ho', Ho, firstn_firstn_app, app_assoc. reflexivity.
    + rewrite Ht', Ht. destruct Hok as [[Hlo Hhi] Hlen].
      destruct Hok1 as [_ Hlen1].
      rewrite <- Hlen1, Ho, length_firstn, !length_app, <- Hlen.
      rewrite Nat2Z.inj_min, Z2Nat.id, !Nat2Z.inj_add by lia.
      apply truncated_after_two; lia.
  - (* fetch *)
    pose proof (js_fetch_same_console st argv) as (S1 & S2 & S3 & S4).
    pose proof (js_fetch_allocator st argv) as Ha.
    pose proof (js_fetch_flags st argv) as (_ & _ & _ & Hcw1).
    destruct (js_fetch st argv) as [[r | e |] st1]; simpl in *;
      try (rewrite S1, S4; apply Hnil; exact Hok).
    rewrite <- S1, <- S2, <- S3, <- S4.
    apply IH; [congruence | | unfold reallocs_succeed in *; congruence].
    unfold console_ok in *. rewrite S1, S2, S3. exact Hok.
  - (* poll *)
    pose proof (interrupt_handler_same_console st now) as (S1 & S2 & S3 & S4).
    pose proof (interrupt_handler_allocator st now) as Ha.
    assert (Hcw1 : current_wrapper (snd (interrupt_handler st now))
                   = current_wrapper st)
      by (unfold interrupt_handler; repeat (break_match; simpl; try reflexivity)).
    destruct (interrupt_handler st now) as [[|] st1]; simpl in *.
    + rewrite S1, S4. apply Hnil; exact Hok.
    + rewrite <- S1, <- S2, <- S3, <- S4.
      apply IH; [congruence | | unfold reallocs_succeed in *; congruence].
      unfold console_ok in *. rewrite S1, S2, S3. exact Hok.
Qed.

(** X9.  With an allocator that does not fail, the console output an
    evaluation ends with is exactly the lines its calls of [console.log]
    have logged, one after the other, cut at the ceiling
    [console_max_size]; and the truncation flag is set if and only if
    those lines together are longer than the ceiling. *)
Theorem console_output_of_run :
  forall (st : World) (now : Z) (program : Script),
    0 <= console_max_size (self st) ->
    reallocs_succeed st ->
    let st0 := sandbox_eval_reset st now in
    let st' := snd (JS_Eval st0 program) in
    let logged := concat (console_lines st0 program) in
    console_output (self st')
    = firstn (Z.to_nat (console_max_size (self st))) logged
    /\ (console_truncated (self st') = true
        <-> console_max_size (self st) < Z.of_nat (List.length logged)).
Proof.
  intros st now program Hmax Hre st0 st' logged.
  destruct (sandbox_eval_reset_console st now Hmax)
    as (Hok & Hout & Hlen & Htr & Hm & Hr).
  fold st0 in Hok, Hout, Hlen, Htr, Hm, Hr.
  assert (Hre0 : reallocs_succeed st0)
    by (unfold reallocs_succeed; rewrite Hr; exact Hre).
  destruct (JS_Eval_console_lines program st0 eq_refl Hok Hre0) as [Ho Ht].
  fold st' logged in Ho, Ht. rewrite Hout, Hm in Ho. rewrite Htr, Hlen, Hm in Ht.
  split; [exact Ho|]. rewrite Ht. simpl. apply Z.ltb_lt.
Qed.

(* ================================================================== *)
(** * The callbacks                                                    *)
(* ================================================================== *)

(** X10.  [console.log] returns [undefined] and, of the state of the
    extension, touches nothing but the console buffer (and the
    allocator): no handler is called, and no setting, no flag and no
    deferred exception changes.  Called while no evaluation is under way,
    it does nothing at all. *)
Theorem console_log_frame :
  forall (st : World) (argv : list JSValue),
    let st' := snd (js_console_log st argv) in
    fst (js_console_log st argv) = JS_UNDEFINED
    /\ http_calls st' = http_calls st
    /\ pending_ruby_exception (self st') = pending_ruby_exception (self st)
    /\ timed_out (self st') = timed_out (self st)
    /\ start_time_ms (self st') = start_time_ms (self st)
    /\ current_wrapper st' = current_wrapper st
    /\ same_settings st st'
    /\ (current_wrapper st = false -> st' = st).
Proof.
  intros st argv st'.
  destruct (js_console_log_same_but_console st argv)
    as (H1 & H2 & H3 & _ & H5 & H6 & H7 & H8 & H9 & H10 & H11).
  fold st' in H1, H2, H3, H5, H6, H7, H8, H9, H10, H11.
  split; [unfold js_console_log; destruct (current_wrapper st); reflexivity|].
  repeat (split; [assumption|]). split.
  - unfold same_settings. rewrite H3. auto.
  - intros E. unfold st', js_console_log. rewrite E. reflexivity.
Qed.

Lemma adds_bare_calls_refl st : adds_bare_calls st st.
Proof. exists []. rewrite app_nil_r. split; [reflexivity | constructor]. Qed.

Lemma adds_bare_calls_trans a b c :
  adds_bare_calls a b -> adds_bare_calls b c -> adds_bare_calls a c.
Proof.
  intros (l1 & H1 & F1) (l2 & H2 & F2). exists (l1 ++ l2).
  split; [rewrite H2, H1, app_assoc; reflexivity | apply Forall_app; auto].
Qed.

Lemma adds_bare_calls_same a b :
  http_calls b = http_calls a -> adds_bare_calls a b.
Proof.
  intros H. exists []. rewrite app_nil_r. split; [exact H | constructor].
Qed.

Lemma js_fetch_bare_calls st argv : adds_bare_calls st (snd (js_fetch st argv)).
Proof.
  unfold js_fetch.
  repeat (break_match; simpl; try (apply adds_bare_calls_same; reflexivity));
    (eexists; split; [reflexivity | repeat constructor]).
Qed.

(** X11.  Whatever the script passes to [fetch], the handler never sees headers
    of the script's: every call made during a run hands it a new, empty
    headers mapping, and the log of calls is only extended. *)
Theorem fetch_headers_never_forwarded :
  forall (program : Script) (st : World),
    exists calls,
      http_calls (snd (JS_Eval st program)) = http_calls st ++ calls
      /\ Forall (fun call => call_headers call = T_HASH []) calls.
Proof.
  intros program st.
  apply (JS_Eval_steps (fun _ => True) adds_bare_calls); auto.
  - apply adds_bare_calls_refl.
  - apply adds_bare_calls_trans.
  - intros st0 argv _. split; [exact I|]. apply adds_bare_calls_same.
    apply js_console_log_same_but_console.
  - intros st0 argv _. split; [exact I|]. apply js_fetch_bare_calls.
  - intros st0 now _. split; [exact I|]. apply adds_bare_calls_same.
    unfold interrupt_handler. repeat (break_match; simpl; try reflexivity).
  - intros st0 e _. split; [exact I|]. apply adds_bare_calls_same. reflexivity.
Qed.

(** X12.  A [fetch] whose options are missing, or have neither a [method] nor a
    [body] (as with [undefined], [null] or a value that is no object),
    reaches the handler as a GET request without a body: the method is
    the String "GET", the target is the text of the first argument up to
    its first NUL byte, the body is nil and the headers are empty.  The
    handler is called once, and what it returns or raises decides how the
    call ends. *)
Theorem fetch_request_defaults :
  forall (st : World) (callback : Callback) (target : JSValue)
         (more : list JSValue) (url : list ascii),
    current_wrapper st = true ->
    rb_http_callback (self st) = Some callback ->
    JS_ToCString target = Some url ->
    (forall options rest,
        more = options :: rest ->
        JS_GetPropertyStr options "method" = JS_UNDEFINED
        /\ JS_GetPropertyStr options "body" = JS_UNDEFINED) ->
    let request :=
      (T_STRING (C.lit "GET"), T_STRING (C.cstr url), Qnil, T_HASH []) in
    http_calls (snd (js_fetch st (target :: more))) = http_calls st ++ [request]
    /\ (forall exc,
          callback (T_STRING (C.lit "GET")) (T_STRING (C.cstr url)) Qnil (T_HASH [])
          = Raise exc ->
          fst (js_fetch st (target :: more)) = Return JS_EXCEPTION)
    /\ (forall resp,
          callback (T_STRING (C.lit "GET")) (T_STRING (C.cstr url)) Qnil (T_HASH [])
          = Return resp ->
          fst (js_fetch st (target :: more)) = fetch_response resp).
Proof.
  clear js_program rb_to_s.
  intros st callback target more url Hcw Hcb Hurl Hopt request.
  assert (Hreq : request_of url more = request).
  { unfold request_of, request. destruct more as [|options rest]; [reflexivity|].
    destruct (Hopt options rest eq_refl) as [-> ->]. reflexivity. }
  rewrite (js_fetch_calls_handler st callback target more url Hcw Hcb Hurl
             _ _ _ _ Hreq).
  destruct (callback _ _ _ _) as [resp | exc |]; simpl;
    (split; [reflexivity|]); split; intros x E; try discriminate;
    try reflexivity.
  inversion E; reflexivity.
Qed.

Lemma JS_Eval_current_wrapper program st :
  current_wrapper (snd (JS_Eval st program)) = current_wrapper st.
Proof.
  apply (JS_Eval_steps (fun _ => True)
           (fun a b => current_wrapper b = current_wrapper a)); auto.
  - intros a b c H1 H2. congruence.
  - intros st0 argv _. split; [exact I|]. apply js_console_log_flags.
  - intros st0 argv _. split; [exact I|]. apply js_fetch_flags.
  - intros st0 now _. split; [exact I|].
    unfold interrupt_handler. repeat (break_match; simpl; try reflexivity).
Qed.

(** X13.  The answer of the handler is read outside [rb_protect].  When reading
    it raises (a status that is no number or that a C [int] does not
    hold, a status text or a body that is no String or that holds a NUL
    byte), the exception is not deferred: it leaves [js_fetch] and the
    running engine at once, the rest of the script does not run, the
    deferred slot stays as it was, and [sandbox_eval] is left through the
    same exception, with no console output attached and with
    [current_wrapper] still set. *)
Theorem fetch_response_error_escapes :
  forall (st : World) (callback : Callback) (target : JSValue)
         (more : list JSValue) (url : list ascii) (m u b h resp e : VALUE),
    current_wrapper st = true ->
    rb_http_callback (self st) = Some callback ->
    JS_ToCString target = Some url ->
    request_of url more = (m, u, b, h) ->
    callback m u b h = Return resp ->
    fetch_response resp = Raise e ->
    let st1 := set_http_calls (http_calls st ++ [(m, u, b, h)]) st in
    js_fetch st (target :: more) = (Raise e, st1)
    /\ (forall next, JS_Eval st (CallsFetch (target :: more) next) = (Raise e, st1))
    /\ pending_ruby_exception (self st1) = pending_ruby_exception (self st)
    /\ (forall st0 now code code_str st',
          StringValueCStr code = Return code_str ->
          JS_Eval (sandbox_eval_reset st0 now) (js_program code_str)
          = (Raise e, st') ->
          sandbox_eval st0 now code = (Raise e, st')
          /\ current_wrapper st' = true).
Proof.
  intros st callback target more url m u b h resp e Hcw Hcb Hurl Hreq Hcall Hresp
    st1.
  assert (Hf : js_fetch st (target :: more) = (Raise e, st1)).
  { rewrite (js_fetch_calls_handler st callback target more url Hcw Hcb Hurl
               m u b h Hreq), Hcall, Hresp. reflexivity. }
  split; [exact Hf|]. split; [intros next; simpl; rewrite Hf; reflexivity|].
  split; [reflexivity|].
  intros st0 now code code_str st' Hcode Hrun. split.
  - unfold sandbox_eval. rewrite Hcode, Hrun. reflexivity.
  - pose proof (JS_Eval_current_wrapper (js_program code_str)
                  (sandbox_eval_reset st0 now)) as H.
    rewrite Hrun in H. exact H.
Qed.

(* ================================================================== *)
(** * What comes out of the engine                                     *)
(* ================================================================== *)

Lemma JSValue_nested_ind (P : JSValue -> Prop) :
  P JS_NULL -> P JS_UNDEFINED -> (forall b, P (JS_BOOL b)) ->
  (forall i, P (JS_INT i)) -> (forall d, P (JS_FLOAT64 d)) ->
  (forall s, P (JS_STRING s)) -> (forall s, P (JS_SYMBOL s)) ->
  (forall n, P (JS_BIG_INT n)) ->
  (forall elems, Forall P elems -> P (JS_ARRAY elems)) ->
  (forall cls props,
      Forall (fun p : JSProperty => P (snd (snd p))) props ->
      P (JS_OBJECT cls props)) ->
  P JS_EXCEPTION ->
  forall v, P v.
Proof.
  intros Hnull Hundef Hbool Hint Hflt Hstr Hsym Hbig Harr Hobj Hexc.
  fix IH 1. intros [| | b | i | d | s | s | n | elems | cls props |].
  - exact Hnull.
  - exact Hundef.
  - apply Hbool.
  - apply Hint.
  - apply Hflt.
  - apply Hstr.
  - apply Hsym.
  - apply Hbig.
  - apply Harr. induction elems as [|x l IHl]; constructor; [apply IH | exact IHl].
  - apply Hobj. induction props as [|[k [en x]] l IHl]; constructor;
      [apply IH | exact IHl].
  - exact Hexc.
Qed.

Lemma LONG2FIX_host_data n : host_data (LONG2FIX n) = true.
Proof.
  unfold LONG2FIX, host_data, FIXNUM_MIN, FIXNUM_MAX.
  pose proof (Z.mod_pos_bound (n + 2 ^ 62) (2 ^ 63) ltac:(lia)) as H.
  apply andb_true_iff. split; apply Z.leb_le; lia.
Qed.

Lemma js_number_host_data d : host_data (js_number_to_ruby d) = true.
Proof.
  unfold js_number_to_ruby, js_number_to_ruby_with.
  break_if; [apply LONG2FIX_host_data | reflexivity].
Qed.

Lemma forallb_firstn {A} (f : A -> bool) n l :
  forallb f l = true -> forallb f (firstn n l) = true.
Proof.
  revert l; induction n as [|n IH]; intros [|x l]; simpl; auto.
  rewrite !andb_true_iff. intros [H1 H2]. auto.
Qed.

(** Storing under a String key keeps a Hash of plain data plain: the keys
    stay pairwise distinct NUL-free Strings. *)
Lemma rb_hash_aset_str_keys entries key val k :
  forallb (fun e => match fst e with
                    | T_STRING k => negb (C.has_nul k)
                    | _ => false
                    end && host_data (snd e)) entries = true ->
  existsb (fun k0 => C.bytes_eqb k0 k) (map key_of (rb_hash_aset_str entries key val))
  = existsb (fun k0 => C.bytes_eqb k0 k) (map key_of entries) || C.bytes_eqb key k.
Proof.
  induction entries as [|[k0 v0] rest IH]; simpl.
  - intros _. rewrite orb_false_r. reflexivity.
  - destruct k0; simpl; try discriminate.
    rewrite !andb_true_iff. intros [_ Hr].
    destruct (C.bytes_eqb s key) eqn:E; simpl; cbn [key_of fst].
    + apply bytes_eqb_eq in E; subst.
      destruct (C.bytes_eqb key k); simpl;
        rewrite ?orb_true_r, ?orb_false_r; reflexivity.
    + rewrite IH by exact Hr. rewrite orb_assoc. reflexivity.
Qed.

Lemma rb_hash_aset_str_host_data entries key val :
  host_data (T_HASH entries) = true ->
  C.has_nul key = false ->
  host_data val = true ->
  host_data (T_HASH (rb_hash_aset_str entries key val)) = true.
Proof.
  cbn [host_data]. intros H Hkey Hval.
  apply andb_true_iff in H. destruct H as [Hall Hd].
  induction entries as [|[k0 v0] rest IH]; simpl.
  - rewrite Hkey, Hval. reflexivity.
  - simpl in Hall, Hd. destruct k0; simpl in Hall; try discriminate.
    apply andb_true_iff in Hall. destruct Hall as [H0 Hall].
    apply andb_true_iff in H0. destruct H0 as [Hs Hv0].
    apply andb_true_iff in Hd. destruct Hd as [Hfresh Hd].
    specialize (IH Hall Hd). apply andb_true_iff in IH. destruct IH as [IH1 IH2].
    destruct (C.bytes_eqb s key) eqn:E; simpl; cbn [key_of fst] in *.
    + rewrite Hs, Hval, Hall, Hfresh, Hd. reflexivity.
    + rewrite Hs, Hv0, IH1, IH2. simpl.
      rewrite rb_hash_aset_str_keys by exact Hall.
      apply negb_true_iff in Hfresh. rewrite Hfresh. simpl.
      rewrite bytes_eqb_sym, E. reflexivity.
Qed.

Lemma find_property_host_data a (converted : list (JSAtom * (bool * VALUE))) :
  Forall (fun p => host_data (snd (snd p)) = true) converted ->
  host_data match find_property a converted with
            | Some (_, v) => v
            | None => Qnil
            end = true.
Proof.
  induction 1 as [|[k [en v]] rest Hv _ IH]; simpl; [reflexivity|].
  destruct (atom_eqb k a); [exact Hv | exact IH].
Qed.

Lemma js_to_ruby_property_host_data converted names :
  Forall (fun p => host_data (snd (snd p)) = true) converted ->
  forall acc,
    host_data (T_HASH acc) = true ->
    host_data (T_HASH (fold_left (js_to_ruby_property converted) names acc)) = true.
Proof.
  intros Hc. induction names as [|a names IH]; intros acc Hacc; simpl;
    [exact Hacc|].
  apply IH. unfold js_to_ruby_property.
  destruct (JS_AtomToCString a) as [key|]; [|exact Hacc].
  apply rb_hash_aset_str_host_data;
    [exact Hacc | apply cstr_has_no_nul | apply find_property_host_data; exact Hc].
Qed.

Lemma js_to_ruby_plain val : host_data (js_to_ruby val) = true.
Proof.
  clear rb_to_s js_program.
  induction val as [| | b | i | d | s | s | n | elems IH | cls props IH |]
    using JSValue_nested_ind; try reflexivity.
  - destruct b; reflexivity.
  - apply js_number_host_data.
  - apply js_number_host_data.
  - cbn. rewrite cstr_has_no_nul. reflexivity.
  - cbn -[Z.pow Z.modulo]. apply forallb_firstn.
    induction IH as [|x l Hx _ IHl]; simpl; [reflexivity|].
    rewrite Hx, IHl. reflexivity.
  - cbn [js_to_ruby JS_IsNull JS_IsUndefined JS_IsBool JS_IsNumber JS_IsString].
    destruct (JS_GetOwnPropertyNames (JS_OBJECT cls props)) as [names|];
      [|reflexivity].
    apply js_to_ruby_property_host_data; [|reflexivity].
    induction IH as [|[k [en x]] l Hx _ IHl]; simpl; constructor;
      [exact Hx | exact IHl].
Qed.

(** X14.  Whatever the script returns, the host gets plain data: nil, a
    boolean, an Integer in the FIXNUM range, a Float, a String without a
    NUL byte, an Array of plain data, or a Hash from pairwise distinct
    NUL-free Strings to plain data.  No Symbol, no other object and no
    reference into the engine ever crosses. *)
Theorem js_to_ruby_host_data :
  forall val : JSValue, host_data (js_to_ruby val) = true.
Proof. exact js_to_ruby_plain. Qed.

(** X15.  The number case at its edges.  An integer below [2^53] in magnitude
    arrives as the Integer of the same value, whether the engine holds it
    as an [int32] or as a double; both zeros arrive as the Integer 0, so
    the sign of a negative zero is lost; NaN and the infinities arrive as
    Floats; and a well-formed double arrives either unchanged as a Float
    or as the Integer of exactly its value, with one exception: [2^62]
    passes the range test and arrives as the Integer [-2^62]. *)
Theorem js_to_ruby_numbers :
  (forall i, - 2 ^ 53 < i < 2 ^ 53 ->
     js_to_ruby (JS_INT i) = T_FIXNUM i
     /\ js_to_ruby (JS_FLOAT64 (Double.of_Z i)) = T_FIXNUM i)
  /\ (forall s, js_to_ruby (JS_FLOAT64 (S754_zero s)) = T_FIXNUM 0)
  /\ js_to_ruby (JS_FLOAT64 S754_nan) = T_FLOAT S754_nan
  /\ (forall s, js_to_ruby (JS_FLOAT64 (S754_infinity s))
                = T_FLOAT (S754_infinity s))
  /\ (forall d, valid_binary 53 1024 d = true ->
        js_to_ruby (JS_FLOAT64 d) = T_FLOAT d
        \/ (exists n, js_to_ruby (JS_FLOAT64 d) = T_FIXNUM n
                      /\ FIXNUM_MIN <= n <= FIXNUM_MAX
                      /\ double_is_integer d n)
        \/ (d = double_2_62
            /\ js_to_ruby (JS_FLOAT64 d) = T_FIXNUM (- 2 ^ 62))).
Proof.
  clear rb_to_s js_program.
  assert (E : forall d, js_to_ruby (JS_FLOAT64 d) = js_number_to_ruby d)
    by reflexivity.
  split; [|split; [|split; [|split]]].
  - intros i Hi. rewrite E. split; [|apply js_number_of_Z; exact Hi].
    change (js_to_ruby (JS_INT i)) with (js_number_to_ruby (Double.of_Z i)).
    apply js_number_of_Z; exact Hi.
  - intros []; vm_compute; reflexivity.
  - vm_compute; reflexivity.
  - intros []; vm_compute; reflexivity.
  - intros d Hv. rewrite E. destruct (is_double_2_62 d) eqn:H62.
    + right; right.
      assert (d = double_2_62).
      { destruct d as [| | |[] m e]; try discriminate.
        unfold is_double_2_62 in H62.
        destruct m as [m|m|]; try discriminate.
        repeat (destruct m as [m|m|]; try discriminate).
        destruct e as [|e|e]; try discriminate.
        repeat (destruct e as [e|e|]; try discriminate). reflexivity. }
      subst d. split; [reflexivity | vm_compute; reflexivity].
    + destruct (js_number_to_ruby_spec d Hv H62) as [H | H]; auto.
Qed.

(** ** The keys of a converted object *)

Lemma existsb_bytes_In k l :
  existsb (fun k0 => C.bytes_eqb k0 k) l = true <-> In k l.
Proof.
  clear js_tostring rb_to_s js_program.
  rewrite existsb_exists. split.
  - intros (x & Hx & E). apply bytes_eqb_eq in E. subst. exact Hx.
  - intros H. exists k. split; [exact H | apply bytes_eqb_refl].
Qed.

Lemma In_insert_by_index x k l :
  In x (insert_by_index k l) <-> x = k \/ In x l.
Proof.
  clear js_tostring rb_to_s js_program.
  induction l as [|h t IH]; simpl.
  - split; intros [H | H]; auto.
  - destruct (fst k <=? fst h); simpl; [intuition auto|].
    rewrite IH. intuition auto.
Qed.

Lemma In_sort_by_index x l : In x (sort_by_index l) <-> In x l.
Proof.
  clear js_tostring rb_to_s js_program.
  unfold sort_by_index. induction l as [|h t IH]; simpl; [reflexivity|].
  rewrite In_insert_by_index, IH. intuition auto.
Qed.

Lemma In_index_keys i k keys :
  In (i, k) (index_keys keys) <-> In k keys /\ array_index k = Some i.
Proof.
  clear js_tostring rb_to_s js_program.
  induction keys as [|k0 keys IH]; simpl; [tauto|].
  destruct (array_index k0) as [i0|] eqn:E; simpl; rewrite IH.
  - split.
    + intros [H | [H1 H2]]; [inversion H; subst; auto | auto].
    + intros [[-> | H1] H2]; [left; congruence | auto].
  - split.
    + intros [H1 H2]; auto.
    + intros [[-> | H1] H2]; [congruence | auto].
Qed.

(** The names [JS_GetOwnPropertyNames] delivers are the enumerable
    string keys, each once listed. *)
Lemma own_property_names cls props names :
  JS_GetOwnPropertyNames (JS_OBJECT cls props) = Some names ->
  forall a, In a names
            <-> exists k, a = JS_ATOM_STRING k
                          /\ In k (enumerable_string_keys props).
Proof.
  clear js_tostring rb_to_s js_program.
  unfold JS_GetOwnPropertyNames. intros E; inversion E; subst; clear E.
  intros a. rewrite in_app_iff, !in_map_iff. split.
  - intros [([i k] & <- & H) | (k & <- & H)].
    + apply In_sort_by_index, In_index_keys in H. exists k. tauto.
    + apply filter_In in H. exists k. tauto.
  - intros (k & -> & H). unfold is_index_key.
    destruct (array_index k) as [i|] eqn:Ei.
    + left. exists (i, k). split; [reflexivity|].
      apply In_sort_by_index, In_index_keys. auto.
    + right. exists k. split; [reflexivity|].
      apply filter_In. unfold is_index_key. rewrite Ei. auto.
Qed.

Lemma js_to_ruby_property_keys converted names :
  Forall (fun p => host_data (snd (snd p)) = true) converted ->
  forall acc,
    host_data (T_HASH acc) = true ->
    forall k,
      In k (map key_of (fold_left (js_to_ruby_property converted) names acc))
      <-> In k (map key_of acc)
          \/ exists k0, In (JS_ATOM_STRING k0) names /\ C.cstr k0 = k.
Proof.
  clear js_tostring rb_to_s js_program.
  intros Hc. induction names as [|a names IH]; intros acc Hacc k; simpl.
  - split; [auto | intros [H | (k0 & [] & _)]; exact H].
  - assert (Hstep : host_data (T_HASH (js_to_ruby_property converted acc a)) = true).
    { apply (js_to_ruby_property_host_data converted [a] Hc acc Hacc). }
    rewrite (IH _ Hstep). unfold js_to_ruby_property.
    destruct a as [key | description]; cbn [JS_AtomToCString].
    + rewrite <- (existsb_bytes_In k (map key_of (rb_hash_aset_str _ _ _))).
      rewrite rb_hash_aset_str_keys
        by (cbn [host_data] in Hacc; apply andb_true_iff in Hacc; apply Hacc).
      rewrite orb_true_iff, existsb_bytes_In, bytes_eqb_eq.
      split.
      * intros [[H | H] | (k0 & H1 & H2)]; eauto.
      * intros [H | (k0 & [H1 | H1] & H2)]; eauto.
        inversion H1; subst. auto.
    + split.
      * intros [H | (k0 & H1 & H2)]; eauto.
      * intros [H | (k0 & [H1 | H1] & H2)]; eauto. discriminate.
Qed.

(** The entries an object leaves: keyed by Strings, one for each own
    enumerable string-keyed property. *)
Lemma js_to_ruby_object_entries :
  forall (cls : JSClassID) (props : list JSProperty),
    exists entries,
      js_to_ruby (JS_OBJECT cls props) = T_HASH entries
      /\ Forall (fun e => exists k, fst e = T_STRING k) entries
      /\ (forall k,
            In k (map key_of entries)
            <-> exists k0, In k0 (enumerable_string_keys props)
                           /\ C.cstr k0 = k).
Proof.
  clear rb_to_s js_program.
  intros cls props.
  pose proof (js_to_ruby_plain (JS_OBJECT cls props)) as Hplain.
  cbn [js_to_ruby JS_IsNull JS_IsUndefined JS_IsBool JS_IsNumber JS_IsString]
    in Hplain |- *.
  destruct (JS_GetOwnPropertyNames (JS_OBJECT cls props)) as [names|] eqn:En;
    [|discriminate En].
  eexists. split; [reflexivity|]. split.
  - cbn [host_data] in Hplain. apply andb_true_iff in Hplain.
    destruct Hplain as [Hall _]. rewrite forallb_forall in Hall.
    apply Forall_forall. intros [k0 v0] Hin. specialize (Hall _ Hin).
    destruct k0; try discriminate. simpl. eauto.
  - intros k. rewrite js_to_ruby_property_keys; [| |reflexivity].
    + split.
      * intros [[] | (k0 & Hin & Hc)].
        apply (own_property_names _ _ _ En) in Hin.
        destruct Hin as (k1 & E & Hin). inversion E; subst. eauto.
      * intros (k0 & Hin & Hc). right. exists k0. split; [|exact Hc].
        apply (own_property_names _ _ _ En). eauto.
    + apply Forall_forall. intros [a [en v]] Hin. apply in_map_iff in Hin.
      destruct Hin as ([a0 [en0 v0]] & E & _). inversion E; subst.
      apply js_to_ruby_plain.
Qed.





(** X16.  An object of any class arrives as a Hash whose keys are Strings, and
    they are exactly the names of the object's own enumerable
    string-keyed properties, each cut at its first NUL byte: a property
    that is not enumerable (the [message] of an error, say) or that is
    keyed by a symbol leaves no entry. *)
Theorem js_to_ruby_object_keys :
  forall (cls : JSClassID) (props : list JSProperty),
    exists entries,
      js_to_ruby (JS_OBJECT cls props) = T_HASH entries
      /\ Forall (fun e => exists k, fst e = T_STRING k) entries
      /\ (forall k,
            In k (map key_of entries)
            <-> exists k0, In k0 (enumerable_string_keys props)
                           /\ C.cstr k0 = k).
Proof. exact js_to_ruby_object_entries. Qed.

(* ================================================================== *)
(** * What goes into the engine                                        *)
(* ================================================================== *)

Lemma JS_SetPropertyUint32_not_exception arr i v :
  JS_IsException arr = false ->
  JS_IsException (JS_SetPropertyUint32 arr i v) = false.
Proof.
  destruct arr; simpl; auto. intros _. break_if; reflexivity.
Qed.

Lemma JS_SetPropertyStr_not_exception o key v :
  JS_IsException o = false ->
  JS_IsException (JS_SetPropertyStr o key v) = false.
Proof.
  destruct o; simpl; auto. intros _. break_if; reflexivity.
Qed.

(** The array loop and the Hash loop on data: every element converts, or
    the first String with a NUL byte ends the conversion. *)
Lemma ruby_array_to_js_data l :
  Forall (fun v =>
            data_only v = true ->
            (nul_free v = true ->
             exists j, ruby_to_js v = Return j /\ JS_IsException j = false)
            /\ (nul_free v = false ->
                ruby_to_js v = rb_raise rb_eArgError "string contains null byte")) l ->
  forallb data_only l = true ->
  forall i arr,
    JS_IsException arr = false ->
    (forallb nul_free l = true ->
     exists j, ruby_array_to_js ruby_to_js l i arr = Return j
               /\ JS_IsException j = false)
    /\ (forallb nul_free l = false ->
        ruby_array_to_js ruby_to_js l i arr
        = rb_raise rb_eArgError "string contains null byte").
Proof.
  induction 1 as [|v l Hv _ IH]; intros Hd i arr Harr.
  - split; [intros _; exists arr; auto | discriminate].
  - cbn [forallb] in Hd. apply andb_true_iff in Hd. destruct Hd as [Hdv Hdl].
    destruct (Hv Hdv) as [Hok Hbad]. cbn [ruby_array_to_js forallb].
    destruct (nul_free v).
    + destruct (Hok eq_refl) as (j & Hj & Hne). rewrite Hj. cbn [rb_bind].
      rewrite Hne. simpl andb.
      apply IH; [exact Hdl | apply JS_SetPropertyUint32_not_exception; exact Harr].
    + split; [discriminate|]. intros _. rewrite (Hbad eq_refl). reflexivity.
Qed.

Lemma rb_hash_foreach_data entries :
  Forall (fun e =>
            data_only (snd e) = true ->
            (nul_free (snd e) = true ->
             exists j, ruby_to_js (snd e) = Return j /\ JS_IsException j = false)
            /\ (nul_free (snd e) = false ->
                ruby_to_js (snd e)
                = rb_raise rb_eArgError "string contains null byte")) entries ->
  forallb (fun e => match fst e with
                    | T_STRING _ | T_SYMBOL _ => true
                    | _ => false
                    end && data_only (snd e)) entries = true ->
  forall data,
    has_error data = false ->
    JS_IsException (obj data) = false ->
    (forallb (fun e => nul_free (fst e) && nul_free (snd e)) entries = true ->
     exists data', rb_hash_foreach (hash_foreach_cb ruby_to_js) entries data
                   = Return data'
                   /\ has_error data' = false
                   /\ JS_IsException (obj data') = false)
    /\ (forallb (fun e => nul_free (fst e) && nul_free (snd e)) entries = false ->
        rb_hash_foreach (hash_foreach_cb ruby_to_js) entries data
        = rb_raise rb_eArgError "string contains null byte").
Proof.
  induction 1 as [|[key val] entries Hv _ IH]; intros Hd data Herr Hobj.
  - split; [intros _; exists data; auto | discriminate].
  - cbn [forallb fst snd] in Hd, Hv |- *.
    apply andb_true_iff in Hd. destruct Hd as [Hd0 Hdl].
    apply andb_true_iff in Hd0. destruct Hd0 as [Hkey Hdv].
    destruct (Hv Hdv) as [Hok Hbad].
    cbn [rb_hash_foreach]. unfold hash_foreach_cb. rewrite Herr.
    assert (Hk : (nul_free key = true /\
                  exists key_str,
                    match key with
                    | T_SYMBOL name => Return (rb_id2name name)
                    | T_STRING _ => StringValueCStr key
                    | _ => rb_bind (rb_to_s key) (fun v => StringValueCStr v)
                    end = Return key_str)
                 \/ (nul_free key = false /\
                     match key with
                     | T_SYMBOL name => Return (rb_id2name name)
                     | T_STRING _ => StringValueCStr key
                     | _ => rb_bind (rb_to_s key) (fun v => StringValueCStr v)
                     end = rb_raise rb_eArgError "string contains null byte")).
    { destruct key; try discriminate; cbn [nul_free StringValueCStr].
      - destruct (C.has_nul s); [right | left]; eauto.
      - left; eauto. }
    destruct Hk as [[Hnk (key_str & ->)] | [Hnk ->]]; rewrite Hnk; simpl andb;
      cbn [rb_bind].
    + destruct (nul_free val).
      * destruct (Hok eq_refl) as (j & Hj & Hne). rewrite Hj. cbn [rb_bind].
        rewrite Hne. cbn [rb_bind fst snd]. simpl andb.
        apply IH; [exact Hdl | reflexivity |].
        cbn [obj]. apply JS_SetPropertyStr_not_exception; exact Hobj.
      * split; [discriminate|]. intros _. rewrite (Hbad eq_refl). reflexivity.
    + split; [discriminate | reflexivity].
Qed.

(** X17.  On host data (nil, booleans, Integers of any size, Floats, Strings,
    Symbols, Arrays, and Hashes with String or Symbol keys) the
    conversion into the engine fails in one way only: it succeeds when no
    String in the value, key or element at any depth, holds a NUL byte,
    and otherwise it raises ArgumentError for the first such String it
    meets. *)
Theorem ruby_to_js_data :
  forall v : VALUE,
    data_only v = true ->
    (nul_free v = true ->
     exists j, ruby_to_js v = Return j /\ JS_IsException j = false)
    /\ (nul_free v = false ->
        ruby_to_js v = rb_raise rb_eArgError "string contains null byte").
Proof.
  clear js_program js_tostring.
  intros v.
  induction v as [| | | n | n | d | s | s | l IH | es IH | k args]
    using VALUE_nested_ind; intros Hd;
    try (split; [intros _; eexists; split; reflexivity | discriminate]).
  - split; [intros _; eexists; split; [reflexivity|] | discriminate].
    unfold JS_NewInt64. break_if; reflexivity.
  - cbn [nul_free ruby_to_js StringValueCStr]. destruct (C.has_nul s); simpl.
    + split; [discriminate | reflexivity].
    + split; [intros _; eexists; split; reflexivity | discriminate].
  - cbn [ruby_to_js nul_free]. cbn [data_only] in Hd.
    apply ruby_array_to_js_data; [exact IH | exact Hd | reflexivity].
  - cbn [ruby_to_js nul_free]. cbn [data_only] in Hd.
    destruct (rb_hash_foreach_data es IH Hd
                {| obj := JS_NewObject; has_error := false |} eq_refl eq_refl)
      as [Hok Hbad].
    split.
    + intros Hn. destruct (Hok Hn) as (data' & -> & Herr & Hobj).
      cbn [rb_bind]. rewrite Herr. eauto.
    + intros Hn. rewrite (Hbad Hn). reflexivity.
  - discriminate.
Qed.

(** ** Arrays *)

Lemma ruby_array_to_js_elementwise (conv : VALUE -> rb JSValue) l :
  forall acc js,
    ruby_array_to_js conv l (Z.of_nat (List.length acc)) (JS_ARRAY acc)
    = Return js ->
    JS_IsException js = false ->
    exists elems,
      js = JS_ARRAY (acc ++ elems)
      /\ Forall2 (fun v j => conv v = Return j) l elems.
Proof.
  induction l as [|v l IH]; intros acc js Hrun Hne; cbn [ruby_array_to_js] in Hrun.
  - inversion Hrun; subst. exists []. rewrite app_nil_r. auto.
  - destruct (conv v) as [j| |] eqn:Hj; cbn [rb_bind] in Hrun; try discriminate.
    destruct (JS_IsException j) eqn:Hex.
    + inversion Hrun; subst. congruence.
    + rewrite JS_SetPropertyUint32_push in Hrun.
      replace (Z.of_nat (List.length acc) + 1)
        with (Z.of_nat (List.length (acc ++ [j]))) in Hrun
        by (rewrite length_app, Nat2Z.inj_add; reflexivity).
      destruct (IH _ _ Hrun Hne) as (elems & -> & Hall).
      exists (j :: elems). rewrite <- app_assoc. split; [reflexivity|].
      constructor; assumption.
Qed.

(** X18.  An Array that converts arrives as a script array of the same length
    whose element at each index is the conversion of the element at that
    index. *)
Theorem ruby_to_js_array_elementwise :
  forall (l : list VALUE) (js : JSValue),
    Z.of_nat (List.length l) < 2 ^ 32 ->
    ruby_to_js (T_ARRAY l) = Return js ->
    JS_IsException js = false ->
    exists elems,
      js = JS_ARRAY elems
      /\ List.length elems = List.length l
      /\ Forall2 (fun v j => ruby_to_js v = Return j) l elems
      /\ (forall i, (i < List.length l)%nat ->
            ruby_to_js (nth i l Qnil)
            = Return (JS_GetPropertyUint32 js (Z.of_nat i))).
Proof.
  clear js_program js_tostring.
  intros l js _ Hrun Hne. cbn [ruby_to_js] in Hrun.
  destruct (ruby_array_to_js_elementwise ruby_to_js l [] js Hrun Hne)
    as (elems & -> & Hall).
  exists elems. split; [reflexivity|].
  pose proof (Forall2_length_eq _ _ _ Hall) as Hlen.
  split; [auto|]. split; [exact Hall|].
  intros i Hi. cbn [JS_GetPropertyUint32 app]. rewrite Nat2Z.id.
  clear Hrun Hne Hlen. revert i Hi.
  induction Hall as [|v j l elems Hv _ IH]; intros i Hi; [simpl in Hi; lia|].
  destruct i as [|i]; simpl; [exact Hv | apply IH; simpl in Hi; lia].
Qed.

(** ** Keys that meet in one property *)

Lemma JS_GetProperty_set_same cls props name v :
  C.bytes_eqb (C.cstr name) (C.lit "__proto__") = false ->
  JS_GetProperty (JS_SetPropertyStr (JS_OBJECT cls props) name v)
    (JS_ATOM_STRING (C.cstr name)) = v.
Proof.
  intros Hproto. unfold JS_SetPropertyStr. rewrite Hproto. unfold JS_GetProperty.
  induction props as [|[k [en old]] props IH]; simpl.
  - rewrite bytes_eqb_refl; reflexivity.
  - destruct (atom_eqb k (JS_ATOM_STRING (C.cstr name))) eqn:E; simpl;
      rewrite E; [reflexivity | exact IH].
Qed.

Lemma JS_GetProperty_set_other o key v n :
  C.cstr key <> n ->
  JS_GetProperty (JS_SetPropertyStr o key v) (JS_ATOM_STRING n)
  = JS_GetProperty o (JS_ATOM_STRING n).
Proof.
  intros Hne. destruct o as [| | | | | | | | |cls props|]; try reflexivity.
  unfold JS_SetPropertyStr.
  destruct (C.bytes_eqb (C.cstr key) (C.lit "__proto__")); [reflexivity|].
  unfold JS_GetProperty.
  assert (Hk : C.bytes_eqb (C.cstr key) n = false).
  { destruct (C.bytes_eqb (C.cstr key) n) eqn:E; [|reflexivity].
    apply bytes_eqb_eq in E. contradiction. }
  replace (find_property (JS_ATOM_STRING n)
             (assign_property (JS_ATOM_STRING (C.cstr key)) v props))
    with (find_property (JS_ATOM_STRING n) props); [reflexivity|].
  induction props as [|[k [en old]] props IH]; simpl.
  - rewrite Hk. reflexivity.
  - destruct (atom_eqb k (JS_ATOM_STRING (C.cstr key))) eqn:E; simpl.
    + destruct k as [x|x]; simpl in E; [|discriminate].
      apply bytes_eqb_eq in E; subst x. simpl. rewrite Hk. reflexivity.
    + destruct (atom_eqb k (JS_ATOM_STRING n)); [reflexivity | exact IH].
Qed.

Lemma JS_SetPropertyStr_object o key v :
  (exists cls props, o = JS_OBJECT cls props) ->
  exists cls props, JS_SetPropertyStr o key v = JS_OBJECT cls props.
Proof.
  intros (cls & props & ->). unfold JS_SetPropertyStr. break_if; eauto.
Qed.

(** One round of the Hash loop either goes on, having stored the
    converted value under the name of the key, or stops with the error
    flag set. *)
Lemma hash_foreach_cb_round conv key val data r d1 :
  hash_foreach_cb conv key val data = Return (r, d1) ->
  match r with
  | ST_STOP => has_error d1 = true
  | ST_CONTINUE =>
      has_error data = false
      /\ exists name j,
          property_name key = Return name
          /\ conv val = Return j
          /\ d1 = {| obj := JS_SetPropertyStr (obj data) name j;
                     has_error := false |}
  end.
Proof.
  unfold hash_foreach_cb. destruct (has_error data) eqn:Herr.
  - intros E; inversion E; subst; exact Herr.
  - change (match key with
            | T_SYMBOL name => Return (rb_id2name name)
            | T_STRING _ => StringValueCStr key
            | _ => rb_bind (rb_to_s key) (fun v => StringValueCStr v)
            end) with (property_name key).
    destruct (property_name key) as [name| |]; cbn [rb_bind]; try discriminate.
    destruct (conv val) as [j| |]; cbn [rb_bind]; try discriminate.
    destruct (JS_IsException j); intros E; inversion E; subst; simpl;
      [reflexivity|].
    split; [reflexivity|]. exists name, j. auto.
Qed.

Lemma rb_hash_foreach_no_error conv entries data data' :
  rb_hash_foreach (hash_foreach_cb conv) entries data = Return data' ->
  has_error data' = false ->
  has_error data = false.
Proof.
  destruct entries as [|[key val] rest]; simpl.
  - intros E; inversion E; subst; auto.
  - unfold hash_foreach_cb at 1. destruct (has_error data) eqn:Herr; [|reflexivity].
    cbn [rb_bind fst snd]. intros E; inversion E; subst. congruence.
Qed.

Lemma rb_hash_foreach_split conv a b :
  forall data data',
    rb_hash_foreach (hash_foreach_cb conv) (a ++ b) data = Return data' ->
    has_error data' = false ->
    exists mid,
      rb_hash_foreach (hash_foreach_cb conv) a data = Return mid
      /\ has_error mid = false
      /\ rb_hash_foreach (hash_foreach_cb conv) b mid = Return data'.
Proof.
  induction a as [|[key val] a IH]; intros data data' Hrun Hok; simpl in *.
  - exists data. split; [reflexivity|]. split; [|exact Hrun].
    eapply rb_hash_foreach_no_error; eassumption.
  - destruct (hash_foreach_cb conv key val data) as [[r d1]| |] eqn:E;
      cbn [rb_bind fst snd] in *; try discriminate.
    pose proof (hash_foreach_cb_round _ _ _ _ _ _ E) as Hr.
    destruct r.
    + apply IH; assumption.
    + inversion Hrun; subst. congruence.
Qed.

Lemma rb_hash_foreach_frame conv n after :
  Forall (fun e => forall name, property_name (fst e) = Return name ->
                                C.cstr name <> n) after ->
  forall data data',
    rb_hash_foreach (hash_foreach_cb conv) after data = Return data' ->
    has_error data' = false ->
    JS_GetProperty (obj data') (JS_ATOM_STRING n)
    = JS_GetProperty (obj data) (JS_ATOM_STRING n).
Proof.
  induction 1 as [|[key val] after Hkey _ IH]; intros data data' Hrun Hok;
    simpl in *.
  - inversion Hrun; reflexivity.
  - destruct (hash_foreach_cb conv key val data) as [[r d1]| |] eqn:E;
      cbn [rb_bind fst snd] in *; try discriminate.
    pose proof (hash_foreach_cb_round _ _ _ _ _ _ E) as Hr.
    destruct r.
    + destruct Hr as (_ & name & j & Hname & _ & ->).
      rewrite (IH _ _ Hrun Hok). cbn [obj].
      apply JS_GetProperty_set_other. apply Hkey. exact Hname.
    + inversion Hrun; subst. congruence.
Qed.

(** The value of an entry is found under the name of its key, unless a
    later entry has the same name. *)
Lemma ruby_to_js_entry_property :
  forall (before after : list (VALUE * VALUE)) (key val : VALUE)
         (js : JSValue) (name : list ascii),
    ruby_to_js (T_HASH (before ++ (key, val) :: after)) = Return js ->
    JS_IsException js = false ->
    property_name key = Return name ->
    C.bytes_eqb (C.cstr name) (C.lit "__proto__") = false ->
    Forall (fun e => forall name', property_name (fst e) = Return name' ->
                                   C.cstr name' <> C.cstr name) after ->
    exists j,
      ruby_to_js val = Return j
      /\ JS_GetProperty js (JS_ATOM_STRING (C.cstr name)) = j.
Proof.
  clear js_program js_tostring.
  intros before after key val js name Hrun Hne Hname Hproto Hafter.
  cbn [ruby_to_js] in Hrun.
  destruct (rb_hash_foreach (hash_foreach_cb ruby_to_js)
              (before ++ (key, val) :: after)
              {| obj := JS_NewObject; has_error := false |})
    as [data'| |] eqn:E; cbn [rb_bind] in Hrun; try discriminate.
  destruct (has_error data') eqn:Herr; inversion Hrun; subst js;
    [discriminate|].
  destruct (rb_hash_foreach_split _ _ _ _ _ E Herr) as (mid & Hmid & Hmok & Hrest).
  assert (Hobj : exists cls props, obj mid = JS_OBJECT cls props).
  { assert (G : forall l d, (exists cls props, obj d = JS_OBJECT cls props) ->
                  rb_hash_foreach (hash_foreach_cb ruby_to_js) l d = Return mid ->
                  exists cls props, obj mid = JS_OBJECT cls props).
    { induction l as [|[k v] l IH]; intros d Hd Hl; simpl in Hl.
      - inversion Hl; subst; exact Hd.
      - destruct (hash_foreach_cb ruby_to_js k v d) as [[r d1]| |] eqn:E0;
          cbn [rb_bind fst snd] in Hl; try discriminate.
        pose proof (hash_foreach_cb_round _ _ _ _ _ _ E0) as Hr.
        destruct r.
        + destruct Hr as (_ & name0 & j & _ & _ & ->).
          eapply IH; [|exact Hl]. cbn [obj].
          apply JS_SetPropertyStr_object; exact Hd.
        + inversion Hl; subst. congruence. }
    apply (G before {| obj := JS_NewObject; has_error := false |});
      [unfold JS_NewObject; simpl; eauto | exact Hmid]. }
  simpl in Hrest.
  destruct (hash_foreach_cb ruby_to_js key val mid) as [[r d1]| |] eqn:E1;
    cbn [rb_bind fst snd] in Hrest; try discriminate.
  pose proof (hash_foreach_cb_round _ _ _ _ _ _ E1) as Hr.
  destruct r; [|inversion Hrest; subst; congruence].
  destruct Hr as (_ & name0 & j & Hname0 & Hj & ->).
  rewrite Hname in Hname0. inversion Hname0; subst name0.
  exists j. split; [exact Hj|].
  rewrite (rb_hash_foreach_frame _ _ _ Hafter _ _ Hrest Herr). cbn [obj].
  destruct Hobj as (cls & props & ->).
  apply JS_GetProperty_set_same. exact Hproto.
Qed.


(** X19.  When several keys of a Hash stand for the same property name (a
    Symbol and a String of the same text, say), the object ends with one
    property of that name and it holds the value of the last of them:
    the value of an entry is what the object holds under the entry's
    name, provided no later entry has the same name. *)
Theorem later_key_wins :
  forall (before after : list (VALUE * VALUE)) (key val : VALUE)
         (js : JSValue) (name : list ascii),
    ruby_to_js (T_HASH (before ++ (key, val) :: after)) = Return js ->
    JS_IsException js = false ->
    property_name key = Return name ->
    C.bytes_eqb (C.cstr name) (C.lit "__proto__") = false ->
    Forall (fun e => forall name', property_name (fst e) = Return name' ->
                                   C.cstr name' <> C.cstr name) after ->
    exists j,
      ruby_to_js val = Return j
      /\ JS_GetProperty js (JS_ATOM_STRING (C.cstr name)) = j.
Proof. exact ruby_to_js_entry_property. Qed.


(* ================================================================== *)
(** * Globals and construction                                         *)
(* ================================================================== *)


(** X21.  A call of [set_variable] that does not return leaves the sandbox as
    it was.  A name that is no String raises TypeError and a name with a
    NUL byte ArgumentError, before the value is looked at; a value whose
    conversion raises lets that exception through. *)
Theorem set_variable_failure :
  (forall st name value,
      (forall r, fst (sandbox_set_variable st name value) <> Return r) ->
      snd (sandbox_set_variable st name value) = st)
  /\ (forall st name value,
        (forall s, name <> T_STRING s) ->
        fst (sandbox_set_variable st name value)
        = rb_raise rb_eTypeError "no implicit conversion into String")
  /\ (forall st s value,
        C.has_nul s = true ->
        fst (sandbox_set_variable st (T_STRING s) value)
        = rb_raise rb_eArgError "string contains null byte")
  /\ (forall st s value e,
        C.has_nul s = false ->
        s <> [] ->
        ruby_to_js value = Raise e ->
        sandbox_set_variable st (T_STRING s) value = (Raise e, st)).
Proof.
  clear js_program js_tostring.
  split; [|split; [|split]].
  - intros st name value H. revert H. unfold sandbox_set_variable.
    destruct (StringValueCStr name) as [var_name| |]; try reflexivity.
    destruct (C.strlen var_name =? 0); try reflexivity.
    destruct (ruby_to_js value) as [js_val| |]; try reflexivity.
    intros H. exfalso. apply (H Qnil). reflexivity.
  - intros st name value H. unfold sandbox_set_variable.
    destruct name; try reflexivity. exfalso. apply (H s). reflexivity.
  - intros st s value H. unfold sandbox_set_variable. cbn [StringValueCStr].
    rewrite H. reflexivity.
  - intros st s value e Hnul Hne Hconv. unfold sandbox_set_variable.
    cbn [StringValueCStr]. rewrite Hnul.
    destruct (Z.eqb_spec (C.strlen s) 0) as [E0|E0].
    + exfalso. unfold C.strlen in E0. rewrite cstr_no_nul in E0 by exact Hnul.
      destruct s; [contradiction | discriminate].
    + rewrite Hconv. reflexivity.
Qed.

(** X22.  A sandbox as [new] leaves it.  Each of the three options is the
    Integer given under its key, or its default when the key is absent or
    nil: a memory limit of 1000000 bytes, a timeout of 5000 ms and a
    console ceiling of 10000 bytes.  The console buffer is empty with a
    capacity of 1024, no handler is registered, nothing is pending, the
    engine is given the memory limit, and the global object holds [fetch]
    and a [console] with [log], [error] and [warn]. *)
Theorem initialize_settings :
  forall (allocator : list bool) (entries : list (VALUE * VALUE))
         (mem timeout cmax : Z),
    setting "memory_limit" 1000000 entries = Some mem ->
    0 <= mem < 2 ^ 64 ->
    setting "timeout_ms" 5000 entries = Some timeout ->
    - 2 ^ 63 <= timeout < 2 ^ 63 ->
    setting "console_log_max_size" 10000 entries = Some cmax ->
    0 <= cmax < 2 ^ 64 ->
    exists st,
      sandbox_initialize allocator (T_HASH entries) = Return st
      /\ mem_limit (self st) = mem
      /\ memory_limit (rt (self st)) = Some mem
      /\ timeout_ms (self st) = timeout
      /\ console_max_size (self st) = cmax
      /\ console_output (self st) = []
      /\ console_output_len (self st) = 0
      /\ console_output_capacity (self st) = 1024
      /\ console_truncated (self st) = false
      /\ timed_out (self st) = false
      /\ rb_http_callback (self st) = None
      /\ pending_ruby_exception (self st) = Qnil
      /\ current_wrapper st = false
      /\ JS_GetPropertyStr (global (ctx (self st))) "fetch" = js_cfunction "fetch"
      /\ (let console := JS_GetPropertyStr (global (ctx (self st))) "console" in
          JS_GetPropertyStr console "log" = js_cfunction "log"
          /\ JS_GetPropertyStr console "error" = js_cfunction "error"
          /\ JS_GetPropertyStr console "warn" = js_cfunction "warn").
Proof.
  clear js_program js_tostring rb_to_s.
  intros allocator entries mem timeout cmax Hm Hmr Ht Htr Hc Hcr.
  unfold setting in Hm, Ht, Hc. unfold sandbox_initialize.
  cbn [rb_hash_aref_sym rb_bind].
  assert (E1 : (if NIL_P (hash_lookup_sym (C.lit "memory_limit") entries)
                then Return 1000000
                else NUM2SIZET (hash_lookup_sym (C.lit "memory_limit") entries))
               = Return mem).
  { unfold NUM2SIZET, C.SIZE_BITS.
    destruct (hash_lookup_sym (C.lit "memory_limit") entries);
      try discriminate; inversion Hm; subst; cbn [NIL_P]; try reflexivity;
      destruct (Z.leb_spec 0 mem); destruct (Z.ltb_spec mem (2 ^ 64));
      try lia; reflexivity. }
  assert (E2 : (if NIL_P (hash_lookup_sym (C.lit "timeout_ms") entries)
                then Return 5000
                else NUM2LL (hash_lookup_sym (C.lit "timeout_ms") entries))
               = Return timeout).
  { unfold NUM2LL, C.INT64_MIN, C.INT64_MAX.
    destruct (hash_lookup_sym (C.lit "timeout_ms") entries);
      try discriminate; inversion Ht; subst; cbn [NIL_P]; try reflexivity;
      destruct (Z.leb_spec (- 2 ^ 63) timeout);
      destruct (Z.leb_spec timeout (2 ^ 63 - 1)); try lia; reflexivity. }
  assert (E3 : (if NIL_P (hash_lookup_sym (C.lit "console_log_max_size") entries)
                then Return 10000
                else NUM2SIZET
                       (hash_lookup_sym (C.lit "console_log_max_size") entries))
               = Return cmax).
  { unfold NUM2SIZET, C.SIZE_BITS.
    destruct (hash_lookup_sym (C.lit "console_log_max_size") entries);
      try discriminate; inversion Hc; subst; cbn [NIL_P]; try reflexivity;
      destruct (Z.leb_spec 0 cmax); destruct (Z.ltb_spec cmax (2 ^ 64));
      try lia; reflexivity. }
  rewrite E1, E2, E3. cbn [rb_bind].
  eexists. split; [reflexivity|]. cbn. repeat split; reflexivity.
Qed.

(** X23.  Registering a handler calls nothing and changes nothing but the
    handler.  The handler registered is the one [fetch] calls from then
    on, once for each call with a readable target; registering nil
    switches [fetch] off again: it throws a TypeError into the script and
    calls nothing. *)
Theorem http_callback_registration :
  forall (st : World) (callback : option Callback),
    let st' := snd (sandbox_set_http_callback st callback) in
    fst (sandbox_set_http_callback st callback) = Return Qnil
    /\ rb_http_callback (self st') = callback
    /\ http_calls st' = http_calls st
    /\ same_buffer st st'
    /\ ctx (self st') = ctx (self st)
    /\ pending_ruby_exception (self st') = pending_ruby_exception (self st)
    /\ (callback = None ->
        current_wrapper st = true ->
        forall argv,
          js_fetch st' argv
          = (Return JS_EXCEPTION,
             set_exception
               (Some (js_error JS_TYPE_ERROR
                        "fetch() is not enabled - HTTP callback not configured"))
               st'))
    /\ (forall cb target more url m u b h,
          callback = Some cb ->
          current_wrapper st = true ->
          JS_ToCString target = Some url ->
          request_of url more = (m, u, b, h) ->
          http_calls (snd (js_fetch st' (target :: more)))
          = http_calls st ++ [(m, u, b, h)]
          /\ (forall exc, cb m u b h = Raise exc ->
                pending_ruby_exception (self (snd (js_fetch st' (target :: more))))
                = exc)).
Proof.
  clear js_program rb_to_s.
  intros st callback st'. subst st'. unfold sandbox_set_http_callback.
  cbn [fst snd]. repeat (split; [reflexivity|]).
  split; [unfold same_buffer; simpl; repeat split|].
  repeat (split; [reflexivity|]). split.
  - intros -> Hcw argv. unfold js_fetch. simpl. rewrite Hcw. reflexivity.
  - intros cb target more url m u b h -> Hcw Hurl Hreq.
    rewrite (js_fetch_calls_handler
               (update_self (set_rb_http_callback (Some cb)) st)
               cb target more url Hcw eq_refl Hurl m u b h Hreq).
    destruct (cb m u b h) as [resp | exc |]; simpl;
      (split; [reflexivity|]); intros exc0 E; try discriminate.
    inversion E; reflexivity.
Qed.

(* ================================================================== *)
(** * The other outcomes of an evaluation                              *)
(* ================================================================== *)

(** X24.  Code that is no String raises TypeError and code with a NUL byte
    raises ArgumentError, and nothing is evaluated: no handler is called
    and the engine is not entered.  The reset has already happened by
    then: the console output of the evaluation before is gone, and
    [current_wrapper] stays pointed at the sandbox. *)
Theorem eval_rejects_code :
  (forall st now code,
      (forall s, code <> T_STRING s) ->
      sandbox_eval st now code
      = (rb_raise rb_eTypeError "no implicit conversion into String",
         sandbox_eval_reset st now))
  /\ (forall st now s,
        C.has_nul s = true ->
        sandbox_eval st now (T_STRING s)
        = (rb_raise rb_eArgError "string contains null byte",
           sandbox_eval_reset st now))
  /\ (forall st now,
        http_calls (sandbox_eval_reset st now) = http_calls st
        /\ current_wrapper (sandbox_eval_reset st now) = true
        /\ console_output_len (self (sandbox_eval_reset st now)) = 0
        /\ captured_output (self (sandbox_eval_reset st now)) = T_STRING []
        /\ same_settings st (sandbox_eval_reset st now)).
Proof.
  split; [|split].
  - intros st now code H. unfold sandbox_eval.
    destruct code; try reflexivity. exfalso. apply (H s). reflexivity.
  - intros st now s H. unfold sandbox_eval. cbn [StringValueCStr]. rewrite H.
    reflexivity.
  - intros st now. unfold same_settings. repeat split.
Qed.

(** X25.  A run that completes without a timeout returns a [Result] holding the
    converted value, which is plain data, the console output captured
    during the run, the truncation flag, and an empty list of requests.
    One garbage collection is forced and [current_wrapper] is cleared.
    The deferred slot is not looked at: what a [fetch] whose failure the
    script caught has left there stays there and is not raised. *)
Theorem eval_returns_result :
  forall (st : World) (now : Z) (code : VALUE) (code_str : list ascii)
         (result : JSValue) (st' : World),
    StringValueCStr code = Return code_str ->
    JS_Eval (sandbox_eval_reset st now) (js_program code_str) = (Return result, st') ->
    timed_out (self st') = false ->
    JS_IsException result = false ->
    sandbox_eval st now code
    = (Return (rb_class_new_instance
                 [js_to_ruby result; captured_output (self st');
                  captured_truncated (self st'); T_ARRAY []] rb_cResult),
       JS_RunGC (set_current_wrapper false st'))
    /\ host_data (js_to_ruby result) = true
    /\ pending_ruby_exception (self (snd (sandbox_eval st now code)))
       = pending_ruby_exception (self st')
    /\ gc_runs (rt (self (snd (sandbox_eval st now code))))
       = S (gc_runs (rt (self st')))
    /\ current_wrapper (snd (sandbox_eval st now code)) = false.
Proof.
  intros st now code code_str result st' Hcode Hrun Hto Hne.
  assert (E : sandbox_eval st now code
              = (Return (rb_class_new_instance
                           [js_to_ruby result; captured_output (self st');
                            captured_truncated (self st'); T_ARRAY []] rb_cResult),
                 JS_RunGC (set_current_wrapper false st'))).
  { unfold sandbox_eval. rewrite Hcode, Hrun. simpl self. rewrite Hto, Hne.
    reflexivity. }
  rewrite E. split; [reflexivity|]. split; [apply js_to_ruby_plain|].
  repeat split.
Qed.

Lemma firstn_prefix {A} (p s : list A) :
  firstn (List.length p) s = p <-> exists rest, s = p ++ rest.
Proof.
  split.
  - intros H. exists (skipn (List.length p) s).
    rewrite <- H at 1. symmetry. apply firstn_skipn.
  - intros (rest & ->). rewrite firstn_app, Nat.sub_diag, firstn_all.
    simpl. apply app_nil_r.
Qed.

Lemma strncmp_syntax_error str :
  C.strncmp_eq str (C.lit "SyntaxError") 11 = true
  <-> starts_with (C.lit "SyntaxError") (C.cstr str).
Proof.
  unfold C.strncmp_eq, starts_with. rewrite bytes_eqb_eq.
  change (firstn 11 (C.cstr (C.lit "SyntaxError"))) with (C.lit "SyntaxError").
  apply (firstn_prefix (C.lit "SyntaxError")).
Qed.

Lemma error_stack_spec thrown :
  (if JS_IsObject thrown then
     let stack_val := JS_GetPropertyStr thrown "stack" in
     if negb (JS_IsUndefined stack_val) && negb (JS_IsNull stack_val)
     then match JS_ToCString stack_val with
          | Some stack => rb_str_new2 stack
          | None => rb_str_new2 []
          end
     else rb_str_new2 []
   else rb_str_new2 []) = error_stack thrown.
Proof.
  destruct thrown; try reflexivity.
  unfold error_stack, JS_GetPropertyStr, JS_GetProperty. cbn [JS_IsObject].
  destruct (find_property (JS_ATOM_STRING (C.lit "stack")) props) as [[en v]|];
    [|reflexivity].
  destruct v; try reflexivity; cbn [JS_IsUndefined JS_IsNull negb andb];
    destruct (JS_ToCString _); reflexivity.
Qed.

(** X26.  A run that ends in an uncaught script error, with no timeout and
    nothing deferred, raises SyntaxError or JavascriptError carrying the
    message, the stack text, the console output and the truncation flag.
    The message is the string form of the thrown value, or "Unknown
    JavaScript error" when it has none; the stack text is the string form
    of the [stack] property of a thrown object, or empty.  The class is
    decided by the message alone: SyntaxError exactly when the message
    starts with the eleven bytes "SyntaxError", whatever was thrown. *)
Theorem uncaught_error_classified :
  forall (st : World) (now : Z) (code : VALUE) (code_str : list ascii)
         (result : JSValue) (st' : World) (thrown : JSValue),
    StringValueCStr code = Return code_str ->
    JS_Eval (sandbox_eval_reset st now) (js_program code_str) = (Return result, st') ->
    timed_out (self st') = false ->
    JS_IsException result = true ->
    pending_ruby_exception (self st') = Qnil ->
    exception (ctx (self st')) = Some thrown ->
    exists klass,
      sandbox_eval st now code
      = (Raise (rb_class_new_instance
                  [error_message thrown; error_stack thrown;
                   captured_output (self st'); captured_truncated (self st')]
                  klass),
         set_exception None (set_current_wrapper false st'))
      /\ (klass = rb_eQuickJSSyntaxError \/ klass = rb_eQuickJSJavascriptError)
      /\ (klass = rb_eQuickJSSyntaxError
          <-> exists str, JS_ToCString thrown = Some str
                          /\ starts_with (C.lit "SyntaxError") (C.cstr str)).
Proof.
  intros st now code code_str result st' thrown Hcode Hrun Hto Hexc Hp Hthrown.
  unfold sandbox_eval. rewrite Hcode, Hrun. simpl self. rewrite Hto, Hexc.
  unfold JS_GetException. cbn [self set_current_wrapper]. rewrite Hthrown, Hp.
  cbn [NIL_P negb]. cbv iota. rewrite error_stack_spec.
  unfold error_message, rb_str_new2.
  destruct (JS_ToCString thrown) as [str|] eqn:Estr.
  - destruct (C.strncmp_eq str (C.lit "SyntaxError") 11) eqn:Esyn.
    + exists rb_eQuickJSSyntaxError. split; [reflexivity|]. split; [auto|].
      split; [|reflexivity]. intros _. exists str. split; [reflexivity|].
      apply strncmp_syntax_error; exact Esyn.
    + exists rb_eQuickJSJavascriptError. split; [reflexivity|]. split; [auto|].
      split; [discriminate|]. intros (str' & E' & Hs). inversion E'; subst str'.
      apply strncmp_syntax_error in Hs. congruence.
  - exists rb_eQuickJSJavascriptError. split; [reflexivity|]. split; [auto|].
    split; [discriminate|]. intros (str' & E' & _). discriminate.
Qed.

(* ================================================================== *)
(** * One evaluation and the next                                      *)
(* ================================================================== *)

Ltac same_run_fields :=
  repeat match goal with
         | H : same_run _ _ |- _ =>
             destruct H as (?Hcw & ?Hctx & ?Hto & ?Hstart & ?Htimed & ?Hout
                            & ?Hlen & ?Hmax & ?Htrunc & ?Hcb & ?Hpend)
         end.

Lemma same_run_console_ok a b :
  same_run a b -> console_ok (self a) -> console_ok (self b).
Proof.
  intros H Hok. same_run_fields. unfold console_ok in *.
  rewrite <- Hout, <- Hlen, <- Hmax. exact Hok.
Qed.

Lemma append_same_run a b str :
  same_run a b ->
  console_ok (self a) ->
  reallocs_succeed a ->
  reallocs_succeed b ->
  same_run (append_console_output a str) (append_console_output b str)
  /\ console_ok (self (append_console_output a str))
  /\ reallocs_succeed (append_console_output a str)
  /\ reallocs_succeed (append_console_output b str).
Proof.
  intros Hsame Hoka Hra Hrb.
  pose proof (same_run_console_ok a b Hsame Hoka) as Hokb.
  destruct (append_console_spec a str Hoka Hra) as (Oa & Ta & Ra).
  destruct (append_console_spec b str Hokb Hrb) as (Ob & Tb & Rb).
  destruct (append_console_ok a str Hoka) as [[_ La] Ma].
  destruct (append_console_ok b str Hokb) as [[_ Lb] Mb].
  destruct (append_same_but_console a str)
    as (A1 & _ & _ & A2 & _ & A3 & A4 & A5 & _ & A6 & A7).
  destruct (append_same_but_console b str)
    as (B1 & _ & _ & B2 & _ & B3 & B4 & B5 & _ & B6 & B7).
  same_run_fields.
  split; [|split; [apply append_console_ok; exact Hoka | split; assumption]].
  unfold same_run.
  rewrite A1, A2, A3, A4, A5, A6, A7, B1, B2, B3, B4, B5, B6, B7, Ma, Mb.
  rewrite <- La, <- Lb, Oa, Ob, Ta, Tb, Hout, Hlen, Hmax, Htrunc.
  repeat split; assumption.
Qed.

Lemma append_all_same_run strs :
  forall a b,
    same_run a b ->
    console_ok (self a) ->
    reallocs_succeed a ->
    reallocs_succeed b ->
    same_run (append_all a strs) (append_all b strs)
    /\ console_ok (self (append_all a strs))
    /\ reallocs_succeed (append_all a strs)
    /\ reallocs_succeed (append_all b strs).
Proof.
  unfold append_all. induction strs as [|s rest IH]; intros a b H1 H2 H3 H4; simpl.
  - auto.
  - destruct (append_same_run a b s H1 H2 H3 H4) as (G1 & G2 & G3 & G4).
    apply IH; assumption.
Qed.

Lemma js_fetch_same_run a b argv :
  same_run a b ->
  fst (js_fetch a argv) = fst (js_fetch b argv)
  /\ same_run (snd (js_fetch a argv)) (snd (js_fetch b argv))
  /\ realloc_results (snd (js_fetch a argv)) = realloc_results a
  /\ realloc_results (snd (js_fetch b argv)) = realloc_results b.
Proof.
  intros H. same_run_fields. unfold js_fetch, same_run.
  rewrite Hcw, Hcb.
  repeat (break_match; simpl;
          try (rewrite ?Hctx; repeat split; congruence)).
Qed.

Lemma interrupt_handler_same_run a b now :
  same_run a b ->
  fst (interrupt_handler a now) = fst (interrupt_handler b now)
  /\ same_run (snd (interrupt_handler a now)) (snd (interrupt_handler b now))
  /\ realloc_results (snd (interrupt_handler a now)) = realloc_results a
  /\ realloc_results (snd (interrupt_handler b now)) = realloc_results b.
Proof.
  intros H. same_run_fields. unfold interrupt_handler, same_run.
  rewrite Hto, Hstart.
  repeat (break_match; simpl; try (repeat split; congruence)).
Qed.

Lemma set_exception_same_run a b e :
  same_run a b -> same_run (set_exception e a) (set_exception e b).
Proof.
  intros H. same_run_fields. unfold same_run; simpl.
  repeat split; congruence.
Qed.

(** Two runs of one program from states that agree in what a run goes
    by end alike. *)
Lemma JS_Eval_same_run program :
  forall a b,
    same_run a b ->
    console_ok (self a) ->
    reallocs_succeed a ->
    reallocs_succeed b ->
    fst (JS_Eval a program) = fst (JS_Eval b program)
    /\ same_run (snd (JS_Eval a program)) (snd (JS_Eval b program)).
Proof.
  induction program as [r | e | | argv next IH | argv next IH | now next IH];
    intros a b Hsame Hok Hra Hrb; simpl.
  - auto.
  - split; [reflexivity | apply set_exception_same_run; exact Hsame].
  - auto.
  - assert (Hcw : current_wrapper a = current_wrapper b) by apply Hsame.
    destruct (current_wrapper a) eqn:Ea.
    + rewrite !js_console_log_pieces by congruence.
      destruct (append_all_same_run (log_pieces 0 argv ++ [[C.newline]])
                  a b Hsame Hok Hra Hrb) as (G1 & G2 & G3 & G4).
      apply IH; assumption.
    + unfold js_console_log. rewrite Ea, <- Hcw. simpl. apply IH; assumption.
  - destruct (js_fetch_same_run a b argv Hsame) as (F1 & F2 & F3 & F4).
    pose proof (js_fetch_same_console a argv) as Hc.
    destruct (js_fetch a argv) as [ra a1]; destruct (js_fetch b argv) as [rb0 b1].
    simpl in *. subst rb0.
    destruct ra as [r | e |]; [|auto|auto].
    apply IH; [exact F2 | eapply same_console_ok; eassumption | |];
      unfold reallocs_succeed in *; congruence.
  - destruct (interrupt_handler_same_run a b now Hsame) as (F1 & F2 & F3 & F4).
    pose proof (interrupt_handler_same_console a now) as Hc.
    destruct (interrupt_handler a now) as [sa a1];
      destruct (interrupt_handler b now) as [sb b1].
    simpl in *. subst sb. destruct sa.
    + split; [reflexivity | apply set_exception_same_run; exact F2].
    + apply IH; [exact F2 | eapply same_console_ok; eassumption | |];
        unfold reallocs_succeed in *; congruence.
Qed.

(** X27.  For the same behaviour of the engine, what an evaluation
    yields depends on the state of the extension only through the
    settings, the handler and the context, and on nothing a former
    evaluation has left behind: not on the console output and its
    truncation flag, not on a timeout that was reported, not on the
    deferred slot, not on the capacity the buffer has grown to, the calls
    made so far or the garbage collections run (for an allocator that
    does not fail). *)
Theorem eval_independent_of_leftovers :
  forall (st1 st2 : World) (now : Z) (code : VALUE),
    same_configuration st1 st2 ->
    0 <= console_max_size (self st1) ->
    reallocs_succeed st1 ->
    reallocs_succeed st2 ->
    fst (sandbox_eval st1 now code) = fst (sandbox_eval st2 now code).
Proof.
  intros st1 st2 now code (Hmem & Hto & Hmax & Hcb & Hctx) Hpos Hr1 Hr2.
  assert (Hsame : same_run (sandbox_eval_reset st1 now) (sandbox_eval_reset st2 now)).
  { unfold same_run, sandbox_eval_reset; simpl. repeat split; assumption. }
  assert (Hok : console_ok (self (sandbox_eval_reset st1 now)))
    by (apply sandbox_eval_reset_console; exact Hpos).
  unfold sandbox_eval.
  destruct (StringValueCStr code) as [code_str | e |]; try reflexivity.
  destruct (JS_Eval_same_run (js_program code_str) _ _ Hsame Hok Hr1 Hr2)
    as [Hfst Hrun].
  destruct (JS_Eval (sandbox_eval_reset st1 now) (js_program code_str))
    as [r1 a]; destruct (JS_Eval (sandbox_eval_reset st2 now) (js_program code_str))
    as [r2 b]. simpl in Hfst, Hrun. subst r2.
  destruct r1 as [result | e |]; try reflexivity.
  same_run_fields. unfold JS_GetException.
  cbn [self set_current_wrapper].
  rewrite Htimed, Hout, Hlen, Htrunc, Hpend, Hctx0.
  repeat (break_match; simpl; try reflexivity).
Qed.

End Sandbox.

(* ================================================================== *)
(** * Instances and counterexamples                                    *)
(* ================================================================== *)

Import Sample.

(** ** Console capture *)

(** An instance of C1 (amended): the default sandbox, two appends. *)
Lemma console_capture_bounded_witness :
  0 <= console_max_size (self sandbox)
  /\ reallocs_succeed sandbox
  /\ let st' := append_all (sandbox_eval_reset sandbox 0) [C.lit "ab"; C.lit "c"] in
     console_output (self st') = C.lit "abc"
     /\ (console_truncated (self st') = true <-> 10000 < 3).
Proof.
  assert (H : 0 <= console_max_size (self sandbox)) by (vm_compute; discriminate).
  assert (R : reallocs_succeed sandbox) by constructor.
  split; [exact H|]. split; [exact R|].
  destruct (console_capture_bounded tostring sandbox 0 H) as [Happends _].
  destruct (Happends [C.lit "ab"; C.lit "c"]) as (_ & _ & Hspec).
  exact (Hspec R).
Defined.

(** Against C1 as stated.  (1) With a ceiling of one byte and one byte
    stored, an empty append starts at the ceiling and leaves the flag
    unset.  (2) With a ceiling of 2000 bytes and an allocator that fails
    twice, two appends of 1025 bytes offer more than the ceiling, nothing
    is stored and the flag stays unset. *)
Lemma console_capture_counterexample :
  (let st := append_console_output
               (sandbox_eval_reset (sandbox_of_size [] 1) 0) (C.lit "a") in
   console_max_size (self st) <= console_output_len (self st)
   /\ console_truncated (self (append_console_output st [])) = false)
  /\ (let strs := [repeat "x"%char 1025; repeat "x"%char 1025] in
      let st := append_all
                  (sandbox_eval_reset (sandbox_of_size [false; false] 2000) 0)
                  strs in
      console_max_size (self st) < bytes_offered strs
      /\ console_truncated (self st) = false
      /\ console_output (self st) = []).
Proof.
  split.
  - vm_compute. split; [discriminate | reflexivity].
  - vm_compute. repeat split.
Qed.

(** An instance of C9: in the default sandbox, [console.log ("a",
    Symbol (), "b")] stores the line with both separators. *)
Lemma console_log_line_witness :
  let st := sandbox_eval_reset sandbox 0 in
  let argv := [JS_STRING (C.lit "a"); JS_SYMBOL []; JS_STRING (C.lit "b")] in
  current_wrapper st = true
  /\ console_ok (self st)
  /\ reallocs_succeed st
  /\ console_output (self (snd (js_console_log tostring st argv)))
     = C.lit "a  b" ++ [C.newline].
Proof.
  intros st argv.
  assert (H1 : current_wrapper st = true) by reflexivity.
  assert (H2 : console_ok (self st)).
  { split; [split; vm_compute; discriminate | reflexivity]. }
  assert (H3 : reallocs_succeed st) by constructor.
  split; [exact H1|]. split; [exact H2|]. split; [exact H3|].
  destruct (console_log_line tostring st argv H1)
    as (_ & _ & _ & _ & _ & _ & Hbuf).
  destruct (Hbuf H2 H3) as (Hout & _).
  exact Hout.
Defined.

(** Against C9 as stated: with a ceiling of 0 a call without arguments
    stores no newline and raises the truncation flag; and after 1024
    bytes of output, when the reallocation for the newline fails, the
    newline is lost and no flag is raised. *)
Lemma console_log_counterexample :
  (let st := sandbox_eval_reset (sandbox_of_size [] 0) 0 in
   current_wrapper st = true
   /\ console_ok (self st)
   /\ console_output (self (snd (js_console_log tostring st []))) = []
   /\ console_truncated (self (snd (js_console_log tostring st []))) = true)
  /\ (let st := append_console_output
                  (sandbox_eval_reset (sandbox_of_size [false] 2000) 0)
                  kilobyte in
      current_wrapper st = true
      /\ console_ok (self st)
      /\ console_output (self st) = kilobyte
      /\ console_output (self (snd (js_console_log tostring st []))) = kilobyte
      /\ console_truncated (self (snd (js_console_log tostring st []))) = false).
Proof.
  split.
  - intros st. split; [reflexivity|]. split.
    { split; [split; vm_compute; discriminate | reflexivity]. }
    split; vm_compute; reflexivity.
  - intros st. split; [reflexivity|]. split.
    { split; [split; vm_compute; discriminate | vm_compute; reflexivity]. }
    repeat split; vm_compute; reflexivity.
Qed.

(** ** The fetch bridge *)

(** An instance of C7: no handler registered. *)
Lemma fetch_fails_immediately_witness :
  let st := set_current_wrapper true sandbox in
  (rb_http_callback (self st) = None
   \/ [url] = []
   \/ (exists target rest, [url] = target :: rest /\ JS_ToCString tostring target = None))
  /\ fst (js_fetch tostring st [url]) = Return JS_EXCEPTION
  /\ http_calls (snd (js_fetch tostring st [url])) = http_calls st
  /\ pending_ruby_exception (self (snd (js_fetch tostring st [url])))
     = pending_ruby_exception (self st).
Proof.
  intros st.
  assert (H : rb_http_callback (self st) = None
              \/ [url] = []
              \/ (exists target rest,
                     [url] = target :: rest /\ JS_ToCString tostring target = None))
    by (left; reflexivity).
  split; [exact H|].
  destruct (fetch_fails_immediately tostring st [url] H) as (msg & E & Hc & Hp & _).
  split; [rewrite E; reflexivity|]. split; [exact Hc | exact Hp].
Defined.

(** An instance of C6 (amended): a handler answering 404 without a
    status text. *)
Lemma fetch_builds_response_witness :
  let st := set_current_wrapper true (sandbox_with not_found) in
  let request := (T_STRING (C.lit "GET"), T_STRING (C.lit "http://example.test/"),
                  Qnil, T_HASH []) in
  let entries := [(T_SYMBOL (C.lit "status"), T_FIXNUM 404);
                  (T_SYMBOL (C.lit "body"), T_STRING (C.lit "nope"))] in
  current_wrapper st = true
  /\ rb_http_callback (self st) = Some not_found
  /\ JS_ToCString tostring url = Some (C.lit "http://example.test/")
  /\ request_of tostring (C.lit "http://example.test/") [] = request
  /\ not_found (T_STRING (C.lit "GET")) (T_STRING (C.lit "http://example.test/"))
       Qnil (T_HASH []) = Return (T_HASH entries)
  /\ response_status entries = Some 404
  /\ response_text "statusText" "OK" entries = Some (C.lit "OK")
  /\ response_text "body" "" entries = Some (C.lit "nope")
  /\ js_fetch tostring st [url]
     = (Return (response_object 404 (C.lit "OK") (C.lit "nope")),
        set_http_calls [request] st).
Proof.
  intros st request entries.
  repeat (split; [reflexivity|]).
  exact (proj1 (fetch_builds_response tostring st not_found url []
                  (C.lit "http://example.test/")
                  (T_STRING (C.lit "GET")) (T_STRING (C.lit "http://example.test/"))
                  Qnil (T_HASH []) entries 404 (C.lit "OK") (C.lit "nope")
                  eq_refl eq_refl eq_refl eq_refl eq_refl eq_refl eq_refl eq_refl)).
Defined.

(** Against C6 as stated.  Each handler returns without raising.
    (1) A Float status of 200.5 reaches the script as the integer 200:
    [NUM2INT] truncates.  (2) A body holding a NUL byte makes
    [StringValueCStr] raise ArgumentError and (3) a status of [2^31] makes
    [NUM2INT] raise RangeError: the conversions are outside [rb_protect],
    the exception unwinds through the engine and the script receives no
    object. *)
Lemma fetch_builds_response_counterexample :
  (exists response,
      fst (js_fetch tostring (set_current_wrapper true (sandbox_with fractional_status))
             [url]) = Return response
      /\ JS_GetPropertyStr response "status" = JS_INT 200
      /\ hash_lookup_sym (C.lit "status")
           [(T_SYMBOL (C.lit "status"), T_FLOAT two_hundred_and_a_half)]
         = T_FLOAT two_hundred_and_a_half
      /\ ~ double_is_integer two_hundred_and_a_half 200)
  /\ (exists msg,
        fst (js_fetch tostring (set_current_wrapper true (sandbox_with binary_body))
               [url])
        = Raise (T_OBJECT rb_eArgError [T_STRING msg]))
  /\ (exists msg,
        fst (js_fetch tostring (set_current_wrapper true (sandbox_with huge_status))
               [url])
        = Raise (T_OBJECT rb_eRangeError [T_STRING msg])).
Proof.
  split; [|split; eexists; vm_compute; reflexivity].
  eexists. split; [vm_compute; reflexivity|].
  split; [vm_compute; reflexivity|]. split; [reflexivity|].
  intros H. vm_compute in H. discriminate H.
Qed.

(** ** The outcome of an evaluation *)

(** An instance of C2: the handler raises, the script goes on, the engine
    aborts it at 6000 ms.  The run ends with an engine exception, a
    deferred host exception and the timeout flag all at once; TimeoutError
    is what [sandbox_eval] raises. *)
Lemma timeout_preempts_witness :
  let st := sandbox_with blocked in
  let code := T_STRING (C.lit "code") in
  let program := fun _ : list ascii => fetch_then_loop in
  let st' := snd (JS_Eval tostring (sandbox_eval_reset st 0) fetch_then_loop) in
  StringValueCStr code = Return (C.lit "code")
  /\ JS_Eval tostring (sandbox_eval_reset st 0) (program (C.lit "code"))
     = (Return JS_EXCEPTION, st')
  /\ timed_out (self st') = true
  /\ pending_ruby_exception (self st') = blocked_error
  /\ fst (sandbox_eval tostring program st 0 code)
     = Raise (T_OBJECT rb_eQuickJSTimeoutError
                [T_STRING (C.lit "JavaScript execution timeout exceeded");
                 T_STRING []; Qfalse]).
Proof.
  intros st code program st'.
  assert (H1 : StringValueCStr code = Return (C.lit "code")) by reflexivity.
  assert (H2 : JS_Eval tostring (sandbox_eval_reset st 0) (program (C.lit "code"))
               = (Return JS_EXCEPTION, st')) by (vm_compute; reflexivity).
  assert (H3 : timed_out (self st') = true) by (vm_compute; reflexivity).
  split; [exact H1|]. split; [exact H2|]. split; [exact H3|].
  split; [vm_compute; reflexivity|].
  rewrite (timeout_preempts tostring program st 0 code (C.lit "code")
             JS_EXCEPTION st' H1 H2 H3).
  vm_compute; reflexivity.
Defined.

(** An instance of C3 (amended): the handler raises HTTPBlockedError, the
    script does not catch the generic error, and [sandbox_eval] raises
    the rebuilt HTTPBlockedError. *)
Lemma deferred_exception_handoff_witness :
  let st := sandbox_with blocked in
  let code := T_STRING (C.lit "code") in
  let program := fun _ : list ascii => fetch_uncaught in
  let st' := snd (JS_Eval tostring (sandbox_eval_reset st 0) fetch_uncaught) in
  StringValueCStr code = Return (C.lit "code")
  /\ JS_Eval tostring (sandbox_eval_reset st 0) (program (C.lit "code"))
     = (Return JS_EXCEPTION, st')
  /\ timed_out (self st') = false
  /\ JS_IsException JS_EXCEPTION = true
  /\ pending_ruby_exception (self st') = blocked_error
  /\ blocked_error <> Qnil
  /\ fst (sandbox_eval tostring program st 0 code)
     = Raise (T_OBJECT rb_eQuickJSHTTPBlockedError
                [T_STRING (C.lit "blocked"); T_STRING []; Qfalse]).
Proof.
  intros st code program st'.
  assert (H1 : StringValueCStr code = Return (C.lit "code")) by reflexivity.
  assert (H2 : JS_Eval tostring (sandbox_eval_reset st 0) (program (C.lit "code"))
               = (Return JS_EXCEPTION, st')) by (vm_compute; reflexivity).
  assert (H3 : timed_out (self st') = false) by (vm_compute; reflexivity).
  assert (H4 : JS_IsException JS_EXCEPTION = true) by reflexivity.
  assert (H5 : pending_ruby_exception (self st') = blocked_error)
    by (vm_compute; reflexivity).
  assert (H6 : blocked_error <> Qnil) by discriminate.
  repeat (split; [assumption|]).
  destruct (proj1 (proj2 (deferred_exception_handoff tostring program))
              st 0 code (C.lit "code") JS_EXCEPTION st' blocked_error
              H1 H2 H3 H4 H5 H6) as (st'' & E & _).
  rewrite E. vm_compute; reflexivity.
Defined.

(** Against C3 as stated.  The handler raises during the [fetch] call and
    the exception is stored; (1) the script catches the generic error and
    completes: [sandbox_eval] returns a Result and raises nothing; (2) the
    script runs into the timeout: [sandbox_eval] raises TimeoutError and
    not the stored exception. *)
Lemma deferred_exception_counterexample :
  let code := T_STRING (C.lit "code") in
  (let program := fun _ : list ascii => fetch_and_ignore in
   let run := sandbox_eval tostring program (sandbox_with blocked) 0 code in
   fst run = Return (T_OBJECT rb_cResult
                       [T_FIXNUM 1; T_STRING []; Qfalse; T_ARRAY []])
   /\ pending_ruby_exception (self (snd run)) = blocked_error)
  /\ (let program := fun _ : list ascii => fetch_then_loop in
      let run := sandbox_eval tostring program (sandbox_with blocked) 0 code in
      rb_obj_class match fst run with Raise e => e | _ => Qnil end
      = rb_eQuickJSTimeoutError
      /\ pending_ruby_exception (self (snd run)) = blocked_error).
Proof. split; split; vm_compute; reflexivity. Qed.

(** ** The value bridge *)

(** An instance of C4 (amended): a nested mapping; the double 3.0 comes
    back as the integer 3. *)
Lemma roundtrip_preserves_witness :
  marshallable nested = true
  /\ exists v', roundtrip tostring to_s nested = Return v' /\ comes_back nested v'.
Proof.
  assert (H : marshallable nested = true) by (vm_compute; reflexivity).
  split; [exact H|].
  exact (roundtrip_preserves tostring to_s nested H).
Defined.

Lemma roundtrip_nested :
  roundtrip tostring to_s nested
  = Return
      (T_HASH
         [(T_STRING (C.lit "a"), T_FIXNUM 1);
          (T_STRING (C.lit "b"),
           T_ARRAY [Qnil; Qtrue; T_FLOAT two_and_a_half; T_STRING (C.lit "x")]);
          (T_STRING (C.lit "c"), T_HASH [(T_STRING (C.lit "d"), T_FIXNUM 3)])]).
Proof. vm_compute; reflexivity. Qed.

Lemma not_comes_back_entry k v k' v' rest rest' :
  (k <> k' \/ ~ comes_back v v') ->
  ~ comes_back (T_HASH ((k, v) :: rest)) (T_HASH ((k', v') :: rest')).
Proof.
  intros Hd H. inversion H as [| | | | | | | |es es' H2]; subst.
  inversion H2 as [|e e' l l' [Hk Hv] Hr]; subst; simpl in *.
  destruct Hd as [Hd | Hd]; [apply Hd; exact Hk | apply Hd; exact Hv].
Qed.

(** Against C4 as stated, each on a mapping with string keys: what comes
    back is not structurally equal to what went in.
    (1) the integer [2^53 + 1] comes back as [2^53];
    (2) the integer [2^64] comes back as a Float;
    (3) a string holding a NUL byte is not converted at all: ArgumentError;
    (4) the keys ["b"], ["1"] come back in the order ["1"], ["b"];
    (5) the key ["__proto__"] does not come back. *)
Lemma roundtrip_counterexample :
  (let v := T_HASH [(T_STRING (C.lit "n"), T_FIXNUM (2 ^ 53 + 1))] in
   let v' := T_HASH [(T_STRING (C.lit "n"), T_FIXNUM (2 ^ 53))] in
   roundtrip tostring to_s v = Return v' /\ ~ comes_back v v')
  /\ (let v := T_HASH [(T_STRING (C.lit "n"), T_BIGNUM (2 ^ 64))] in
      let v' := T_HASH [(T_STRING (C.lit "n"), T_FLOAT (Double.of_Z (2 ^ 64)))] in
      roundtrip tostring to_s v = Return v' /\ ~ comes_back v v')
  /\ (let v := T_HASH [(T_STRING (C.lit "s"),
                        T_STRING [ascii_of_nat 97; C.NUL; ascii_of_nat 98])] in
      exists msg,
        roundtrip tostring to_s v = Raise (T_OBJECT rb_eArgError [T_STRING msg]))
  /\ (let v := T_HASH [(T_STRING (C.lit "b"), T_FIXNUM 1);
                       (T_STRING (C.lit "1"), T_FIXNUM 2)] in
      let v' := T_HASH [(T_STRING (C.lit "1"), T_FIXNUM 2);
                        (T_STRING (C.lit "b"), T_FIXNUM 1)] in
      roundtrip tostring to_s v = Return v' /\ ~ comes_back v v')
  /\ (let v := T_HASH [(T_STRING (C.lit "__proto__"), T_FIXNUM 1)] in
      roundtrip tostring to_s v = Return (T_HASH [])
      /\ ~ comes_back v (T_HASH [])).
Proof.
  split; [|split; [|split; [|split]]].
  - split; [vm_compute; reflexivity|].
    apply not_comes_back_entry. right. intros H; inversion H.
  - split; [vm_compute; reflexivity|].
    apply not_comes_back_entry. right. intros H; inversion H.
  - eexists; vm_compute; reflexivity.
  - split; [vm_compute; reflexivity|].
    apply not_comes_back_entry. left. discriminate.
  - split; [vm_compute; reflexivity|].
    intros H. inversion H as [| | | | | | | |es es' H2]; subst. inversion H2.
Qed.

(** The slip at the edge of the FIXNUM range: the double [2^62] satisfies
    [d <= FIXNUM_MAX] once [FIXNUM_MAX] is rounded to a double, and
    [LONG2FIX] then wraps it to [-2^62]. *)
Lemma js_number_2_62 :
  js_number_to_ruby double_2_62 = T_FIXNUM (- 2 ^ 62).
Proof. vm_compute; reflexivity. Qed.




(* ================================================================== *)
(** * Instances of the further properties                              *)
(* ================================================================== *)

(** One byte is in the buffer; a run that logs a line keeps it in front. *)
Lemma console_output_append_only_witness :
  let st := append_console_output (sandbox_eval_reset sandbox 0) (C.lit "a") in
  console_ok (self st)
  /\ exists suffix,
       console_output (self (snd (JS_Eval tostring st log_and_finish)))
       = C.lit "a" ++ suffix.
Proof.
  intros st.
  assert (H : console_ok (self st)).
  { split; [split; vm_compute; discriminate | reflexivity]. }
  split; [exact H|].
  destruct (console_output_append_only tostring log_and_finish st H) as [Hs _].
  exact Hs.
Defined.

(** A ceiling of two bytes and a run that logs "hi" and a newline. *)
Lemma console_output_of_run_witness :
  let st := sandbox_of_size [] 2 in
  let st' := snd (JS_Eval tostring (sandbox_eval_reset st 0) log_and_finish) in
  0 <= console_max_size (self st)
  /\ reallocs_succeed st
  /\ console_output (self st') = C.lit "hi"
  /\ console_truncated (self st') = true.
Proof.
  intros st st'.
  assert (H1 : 0 <= console_max_size (self st)) by (vm_compute; discriminate).
  assert (H2 : reallocs_succeed st) by constructor.
  split; [exact H1|]. split; [exact H2|].
  destruct (console_output_of_run tostring st 0 log_and_finish H1 H2) as [Ho Ht].
  split; [etransitivity; [exact Ho | vm_compute; reflexivity]|].
  apply Ht. vm_compute. reflexivity.
Defined.

(** The default sandbox: the capacity stays between 1024 and 10000. *)
Lemma console_capacity_bounded_witness :
  let st := sandbox_eval_reset sandbox 0 in
  console_ok (self st)
  /\ capacity_ok (self st)
  /\ 1024 <= console_output_capacity (self (snd (JS_Eval tostring st log_and_finish)))
     <= 10000.
Proof.
  intros st.
  assert (H1 : console_ok (self st)).
  { split; [split; vm_compute; discriminate | reflexivity]. }
  assert (H2 : capacity_ok (self st)) by (vm_compute; discriminate).
  split; [exact H1|]. split; [exact H2|].
  destruct (console_capacity_bounded tostring log_and_finish st H1 H2)
    as (_ & Hlo & Hhi).
  split; [exact Hlo | exact Hhi].
Defined.

(** A block of 1025 bytes behind a capacity of 1024: one byte is written
    at index 0 and the NUL at index 1. *)
Lemma console_writes_inside_block_witness :
  let st := sandbox_eval_reset sandbox 0 in
  console_ok (self st)
  /\ capacity_ok (self st)
  /\ console_max_size (self st) < 2 ^ 64 - 1
  /\ console_output_capacity (self st) + 1 <= 1025
  /\ 1024 + 1 <= fst (append_console_block 1025 st (C.lit "a")).
Proof.
  intros st.
  assert (H1 : console_ok (self st)).
  { split; [split; vm_compute; discriminate | reflexivity]. }
  assert (H2 : capacity_ok (self st)) by (vm_compute; discriminate).
  assert (H3 : console_max_size (self st) < 2 ^ 64 - 1) by (vm_compute; reflexivity).
  assert (H4 : console_output_capacity (self st) + 1 <= 1025)
    by (vm_compute; discriminate).
  repeat (split; [assumption|]).
  destruct (console_writes_inside_block 1025 st (C.lit "a") H1 H2 H3 H4) as [H _].
  exact H.
Defined.

(** The default sandbox and 1024 bytes of output: the NUL goes to index
    1024 of a block of 1024 bytes. *)
Lemma console_terminator_past_initial_block_witness :
  let st := sandbox_eval_reset sandbox 0 in
  console_ok (self st)
  /\ kilobyte <> []
  /\ console_output_len (self st) + Z.of_nat (List.length kilobyte)
     = console_output_capacity (self st)
  /\ console_output_capacity (self st) <= console_max_size (self st)
  /\ append_console_block 1024 st kilobyte = (1024, Some 1024).
Proof.
  intros st.
  assert (H1 : console_ok (self st)).
  { split; [split; vm_compute; discriminate | reflexivity]. }
  assert (H2 : kilobyte <> []) by (vm_compute; discriminate).
  assert (H3 : console_output_len (self st) + Z.of_nat (List.length kilobyte)
               = console_output_capacity (self st)) by (vm_compute; reflexivity).
  assert (H4 : console_output_capacity (self st) <= console_max_size (self st))
    by (vm_compute; discriminate).
  repeat (split; [assumption|]).
  destruct (console_terminator_past_initial_block st kilobyte H1 H2 H3 H4)
    as [H _].
  exact H.
Defined.

(** The last nanosecond of a second and the start of the next. *)
Lemma get_time_ms_monotone_witness :
  normalized end_of_second
  /\ normalized next_second
  /\ 0 <= tv_sec end_of_second
  /\ tv_sec next_second < 2 ^ 53
  /\ not_after end_of_second next_second
  /\ exists t1 t2,
       get_time_ms end_of_second = Some t1
       /\ get_time_ms next_second = Some t2
       /\ t1 <= t2.
Proof.
  assert (H1 : normalized end_of_second) by (split; vm_compute; congruence).
  assert (H2 : normalized next_second) by (split; vm_compute; congruence).
  assert (H3 : 0 <= tv_sec end_of_second) by (vm_compute; discriminate).
  assert (H4 : tv_sec next_second < 2 ^ 53) by (vm_compute; reflexivity).
  assert (H5 : not_after end_of_second next_second)
    by (left; vm_compute; reflexivity).
  repeat (split; [assumption|]).
  destruct (get_time_ms_monotone end_of_second next_second H1 H2 H3 H4 H5)
    as (t1 & t2 & E1 & E2 & Hle & _).
  exists t1, t2. auto.
Defined.

(** A run polled at 6000 ms under the default timeout of 5000 ms. *)
Lemma timeout_only_when_interrupted_witness :
  let st := sandbox_with blocked in
  timed_out (self (snd (JS_Eval tostring (sandbox_eval_reset st 0)
                          fetch_then_loop))) = true
  /\ fst (JS_Eval tostring (sandbox_eval_reset st 0) fetch_then_loop)
     = Return JS_EXCEPTION
  /\ 0 < timeout_ms (self st).
Proof.
  intros st.
  assert (H : timed_out (self (snd (JS_Eval tostring (sandbox_eval_reset st 0)
                                      fetch_then_loop))) = true)
    by (vm_compute; reflexivity).
  split; [exact H|].
  destruct (timeout_only_when_interrupted tostring st 0 fetch_then_loop H)
    as (H1 & _ & H2).
  split; [exact H1 | exact H2].
Defined.

(** A timeout of 0: a poll an hour after the start does not interrupt. *)
Lemma timeout_disabled_witness :
  timeout_ms (self sandbox_without_timeout) <= 0
  /\ interrupt_handler sandbox_without_timeout 3600000
     = (false, sandbox_without_timeout).
Proof.
  assert (H : timeout_ms (self sandbox_without_timeout) <= 0)
    by (vm_compute; discriminate).
  split; [exact H|].
  destruct (timeout_disabled tostring (fun _ => Propagates)
              sandbox_without_timeout H) as [Hpoll _].
  exact (Hpoll 3600000).
Defined.

(** [fetch (url, 5)]: the handler gets a GET without a body. *)
Lemma fetch_request_defaults_witness :
  let st := sandbox_eval_reset (sandbox_with not_found) 0 in
  current_wrapper st = true
  /\ rb_http_callback (self st) = Some not_found
  /\ JS_ToCString tostring url = Some (C.lit "http://example.test/")
  /\ http_calls (snd (js_fetch tostring st [url; JS_INT 5]))
     = [(T_STRING (C.lit "GET"), T_STRING (C.lit "http://example.test/"),
         Qnil, T_HASH [])].
Proof.
  intros st.
  assert (H1 : current_wrapper st = true) by reflexivity.
  assert (H2 : rb_http_callback (self st) = Some not_found) by reflexivity.
  assert (H3 : JS_ToCString tostring url = Some (C.lit "http://example.test/"))
    by reflexivity.
  assert (H4 : forall options rest,
             [JS_INT 5] = options :: rest ->
             JS_GetPropertyStr options "method" = JS_UNDEFINED
             /\ JS_GetPropertyStr options "body" = JS_UNDEFINED).
  { intros options rest E. inversion E; subst. split; reflexivity. }
  repeat (split; [assumption|]).
  destruct (fetch_request_defaults tostring st not_found url [JS_INT 5]
              (C.lit "http://example.test/") H1 H2 H3 H4) as [H _].
  exact H.
Defined.

(** A handler whose body holds a NUL byte: ArgumentError leaves the run. *)
Lemma fetch_response_error_escapes_witness :
  let st := sandbox_eval_reset (sandbox_with binary_body) 0 in
  let resp :=
    T_HASH [(T_SYMBOL (C.lit "status"), T_FIXNUM 200);
            (T_SYMBOL (C.lit "body"),
             T_STRING [ascii_of_nat 97; C.NUL; ascii_of_nat 98])] in
  let e := T_OBJECT rb_eArgError [T_STRING (C.lit "string contains null byte")] in
  current_wrapper st = true
  /\ rb_http_callback (self st) = Some binary_body
  /\ JS_ToCString tostring url = Some (C.lit "http://example.test/")
  /\ request_of tostring (C.lit "http://example.test/") []
     = (T_STRING (C.lit "GET"), T_STRING (C.lit "http://example.test/"),
        Qnil, T_HASH [])
  /\ binary_body (T_STRING (C.lit "GET")) (T_STRING (C.lit "http://example.test/"))
       Qnil (T_HASH []) = Return resp
  /\ fetch_response resp = Raise e
  /\ fst (js_fetch tostring st [url]) = Raise e.
Proof.
  intros st resp e.
  assert (H1 : current_wrapper st = true) by reflexivity.
  assert (H2 : rb_http_callback (self st) = Some binary_body) by reflexivity.
  assert (H3 : JS_ToCString tostring url = Some (C.lit "http://example.test/"))
    by reflexivity.
  assert (H4 : request_of tostring (C.lit "http://example.test/") []
               = (T_STRING (C.lit "GET"), T_STRING (C.lit "http://example.test/"),
                  Qnil, T_HASH [])) by reflexivity.
  assert (H5 : binary_body (T_STRING (C.lit "GET"))
                 (T_STRING (C.lit "http://example.test/")) Qnil (T_HASH [])
               = Return resp) by reflexivity.
  assert (H6 : fetch_response resp = Raise e) by reflexivity.
  repeat (split; [assumption|]).
  destruct (fetch_response_error_escapes tostring (fun _ => Propagates) st
              binary_body url [] (C.lit "http://example.test/")
              _ _ _ _ resp e H1 H2 H3 H4 H5 H6) as [H _].
  rewrite H. reflexivity.
Defined.

(** A String with a NUL byte inside an Array inside a Hash. *)
Lemma ruby_to_js_data_witness :
  let v := T_HASH [(T_SYMBOL (C.lit "k"),
                    T_ARRAY [T_FIXNUM 1;
                             T_STRING [ascii_of_nat 97; C.NUL; ascii_of_nat 98]])] in
  data_only v = true
  /\ nul_free v = false
  /\ ruby_to_js to_s v = rb_raise rb_eArgError "string contains null byte".
Proof.
  intros v.
  assert (H1 : data_only v = true) by reflexivity.
  assert (H2 : nul_free v = false) by reflexivity.
  split; [exact H1|]. split; [exact H2|].
  exact (proj2 (ruby_to_js_data to_s v H1) H2).
Defined.

(** [{a: 1, "a" => 2, "b" => 3}]: the property [a] holds 2. *)
Lemma later_key_wins_witness :
  let js := JS_OBJECT JS_CLASS_OBJECT
              [(JS_ATOM_STRING (C.lit "a"), (true, JS_INT 2));
               (JS_ATOM_STRING (C.lit "b"), (true, JS_INT 3))] in
  ruby_to_js to_s (T_HASH twice_a) = Return js
  /\ JS_IsException js = false
  /\ property_name to_s (T_STRING (C.lit "a")) = Return (C.lit "a")
  /\ exists j, ruby_to_js to_s (T_FIXNUM 2) = Return j
               /\ JS_GetProperty js (JS_ATOM_STRING (C.lit "a")) = j.
Proof.
  intros js.
  assert (H1 : ruby_to_js to_s
                 (T_HASH ([(T_SYMBOL (C.lit "a"), T_FIXNUM 1)]
                          ++ (T_STRING (C.lit "a"), T_FIXNUM 2)
                             :: [(T_STRING (C.lit "b"), T_FIXNUM 3)]))
               = Return js) by (vm_compute; reflexivity).
  assert (H2 : JS_IsException js = false) by reflexivity.
  assert (H3 : property_name to_s (T_STRING (C.lit "a")) = Return (C.lit "a"))
    by reflexivity.
  assert (H4 : C.bytes_eqb (C.cstr (C.lit "a")) (C.lit "__proto__") = false)
    by reflexivity.
  assert (H5 : Forall (fun e : VALUE * VALUE =>
                         forall name', property_name to_s (fst e) = Return name' ->
                                       C.cstr name' <> C.cstr (C.lit "a"))
                 [(T_STRING (C.lit "b"), T_FIXNUM 3)]).
  { constructor; [|constructor]. intros name' E. vm_compute in E.
    inversion E; subst. vm_compute. discriminate. }
  split; [exact H1|]. split; [exact H2|]. split; [exact H3|].
  exact (later_key_wins to_s _ _ _ _ js (C.lit "a") H1 H2 H3 H4 H5).
Defined.


(** [new] with a console ceiling of 16 bytes and nothing else. *)
Lemma initialize_settings_witness :
  let entries := [(T_SYMBOL (C.lit "console_log_max_size"), T_FIXNUM 16)] in
  setting "memory_limit" 1000000 entries = Some 1000000
  /\ 0 <= 1000000 < 2 ^ 64
  /\ setting "timeout_ms" 5000 entries = Some 5000
  /\ - 2 ^ 63 <= 5000 < 2 ^ 63
  /\ setting "console_log_max_size" 10000 entries = Some 16
  /\ 0 <= 16 < 2 ^ 64
  /\ exists st,
       sandbox_initialize [] (T_HASH entries) = Return st
       /\ console_max_size (self st) = 16.
Proof.
  intros entries.
  assert (H1 : setting "memory_limit" 1000000 entries = Some 1000000) by reflexivity.
  assert (H2 : 0 <= 1000000 < 2 ^ 64) by lia.
  assert (H3 : setting "timeout_ms" 5000 entries = Some 5000) by reflexivity.
  assert (H4 : - 2 ^ 63 <= 5000 < 2 ^ 63) by lia.
  assert (H5 : setting "console_log_max_size" 10000 entries = Some 16) by reflexivity.
  assert (H6 : 0 <= 16 < 2 ^ 64) by lia.
  repeat (split; [assumption|]).
  destruct (initialize_settings [] entries _ _ _ H1 H2 H3 H4 H5 H6)
    as (st & E & _ & _ & _ & Hmax & _).
  exists st. auto.
Defined.

(** A run that logs a line and completes with 1. *)
Lemma eval_returns_result_witness :
  let program := fun _ : list ascii => log_and_finish in
  let code := T_STRING (C.lit "code") in
  let st' := snd (JS_Eval tostring (sandbox_eval_reset sandbox 0) log_and_finish) in
  StringValueCStr code = Return (C.lit "code")
  /\ JS_Eval tostring (sandbox_eval_reset sandbox 0) (program (C.lit "code"))
     = (Return (JS_INT 1), st')
  /\ timed_out (self st') = false
  /\ JS_IsException (JS_INT 1) = false
  /\ fst (sandbox_eval tostring program sandbox 0 code)
     = Return (T_OBJECT rb_cResult
                 [T_FIXNUM 1; T_STRING (C.lit "hi" ++ [C.newline]); Qfalse;
                  T_ARRAY []]).
Proof.
  intros program code st'.
  assert (H1 : StringValueCStr code = Return (C.lit "code")) by reflexivity.
  assert (H2 : JS_Eval tostring (sandbox_eval_reset sandbox 0)
                 (program (C.lit "code")) = (Return (JS_INT 1), st'))
    by (vm_compute; reflexivity).
  assert (H3 : timed_out (self st') = false) by (vm_compute; reflexivity).
  assert (H4 : JS_IsException (JS_INT 1) = false) by reflexivity.
  repeat (split; [assumption|]).
  destruct (eval_returns_result tostring program sandbox 0 code (C.lit "code")
              (JS_INT 1) st' H1 H2 H3 H4) as [E _].
  rewrite E. vm_compute; reflexivity.
Defined.

(** A thrown string that starts with "SyntaxError" is reported as a
    SyntaxError. *)
Lemma uncaught_error_classified_witness :
  let program := fun _ : list ascii => throw_text in
  let code := T_STRING (C.lit "code") in
  let thrown := JS_STRING (C.lit "SyntaxError in disguise") in
  let st' := snd (JS_Eval tostring (sandbox_eval_reset sandbox 0) throw_text) in
  StringValueCStr code = Return (C.lit "code")
  /\ JS_Eval tostring (sandbox_eval_reset sandbox 0) (program (C.lit "code"))
     = (Return JS_EXCEPTION, st')
  /\ timed_out (self st') = false
  /\ JS_IsException JS_EXCEPTION = true
  /\ pending_ruby_exception (self st') = Qnil
  /\ exception (ctx (self st')) = Some thrown
  /\ fst (sandbox_eval tostring program sandbox 0 code)
     = Raise (T_OBJECT rb_eQuickJSSyntaxError
                [T_STRING (C.lit "SyntaxError in disguise"); T_STRING [];
                 T_STRING []; Qfalse]).
Proof.
  intros program code thrown st'.
  assert (H1 : StringValueCStr code = Return (C.lit "code")) by reflexivity.
  assert (H2 : JS_Eval tostring (sandbox_eval_reset sandbox 0)
                 (program (C.lit "code")) = (Return JS_EXCEPTION, st'))
    by (vm_compute; reflexivity).
  assert (H3 : timed_out (self st') = false) by (vm_compute; reflexivity).
  assert (H4 : JS_IsException JS_EXCEPTION = true) by reflexivity.
  assert (H5 : pending_ruby_exception (self st') = Qnil) by (vm_compute; reflexivity).
  assert (H6 : exception (ctx (self st')) = Some thrown) by (vm_compute; reflexivity).
  repeat (split; [assumption|]).
  destruct (uncaught_error_classified tostring program sandbox 0 code
              (C.lit "code") JS_EXCEPTION st' thrown H1 H2 H3 H4 H5 H6)
    as (klass & E & _ & Hk).
  rewrite E. cbn [fst].
  assert (Hs : klass = rb_eQuickJSSyntaxError).
  { apply Hk. exists (C.lit "SyntaxError in disguise").
    split; [reflexivity|]. exists (C.lit " in disguise"). reflexivity. }
  rewrite Hs. vm_compute; reflexivity.
Defined.

(** A fresh sandbox and one that has already run a program that logs. *)
Lemma eval_independent_of_leftovers_witness :
  let program := fun _ : list ascii => log_and_finish in
  let code := T_STRING (C.lit "code") in
  let st1 := sandbox_with blocked in
  let st2 := snd (sandbox_eval tostring program st1 0 code) in
  same_configuration st1 st2
  /\ 0 <= console_max_size (self st1)
  /\ reallocs_succeed st1
  /\ reallocs_succeed st2
  /\ fst (sandbox_eval tostring program st1 7 code)
     = fst (sandbox_eval tostring program st2 7 code).
Proof.
  intros program code st1 st2.
  assert (H1 : same_configuration st1 st2) by (repeat split; reflexivity).
  assert (H2 : 0 <= console_max_size (self st1)) by (vm_compute; discriminate).
  assert (H3 : reallocs_succeed st1) by constructor.
  assert (H4 : reallocs_succeed st2) by constructor.
  repeat (split; [assumption|]).
  exact (eval_independent_of_leftovers tostring program st1 st2 7 code H1 H2 H3 H4).
Defined.

(** [[1, nil]] arrives as a script array of two elements. *)
Lemma ruby_to_js_array_elementwise_witness :
  let l := [T_FIXNUM 1; Qnil] in
  let js := JS_ARRAY [JS_INT 1; JS_NULL] in
  Z.of_nat (List.length l) < 2 ^ 32
  /\ ruby_to_js to_s (T_ARRAY l) = Return js
  /\ JS_IsException js = false
  /\ exists elems, js = JS_ARRAY elems /\ List.length elems = List.length l.
Proof.
  intros l js.
  assert (H1 : Z.of_nat (List.length l) < 2 ^ 32) by (vm_compute; reflexivity).
  assert (H2 : ruby_to_js to_s (T_ARRAY l) = Return js) by reflexivity.
  assert (H3 : JS_IsException js = false) by reflexivity.
  repeat (split; [assumption|]).
  destruct (ruby_to_js_array_elementwise to_s l js H1 H2 H3)
    as (elems & E & Hlen & _).
  exists elems. auto.
Defined.
